(** * Depth-first search with a visitor protocol, and the ancestor queries
      answered from its discovery/finish timestamps.

    Shallow embedding of [src/DepthFirstSearch/A-ancestor-visitor.cpp].

    - [Vertex] is the source's [int]; vectors are lists indexed through
      [vec_get]/[vec_set], which return [OutOfRange] where the source indexes
      a [std::vector] outside its bounds (undefined behaviour there).
    - The engine ([DepthFirstSearch], [DepthFirstSearchVisit]) is generic in
      the colormap and in the visitor, as the source's templates are: the two
      interfaces are type classes, the source's [Colormap] and
      [TimeDFSVisitor] are instances.
    - The recursion of [DepthFirstSearchVisit] is bounded by a fuel argument
      that plays the role of the call-stack budget; [DepthFirstSearch] hands
      out one unit per vertex, which is shown to be always enough. *)

From Stdlib Require Import ZArith Lia.
From stdpp Require Import base numbers list relations.

Local Open Scope Z_scope.

(** ** Results of partial operations *)

Inductive result (A : Type) : Type :=
| Ok (a : A)
| OutOfRange
| OutOfFuel.
Arguments Ok {A} a.
Arguments OutOfRange {A}.
Arguments OutOfFuel {A}.

#[global] Instance result_ret : MRet result := λ A a, Ok a.
#[global] Instance result_bind : MBind result := λ A B f r,
  match r with
  | Ok a => f a
  | OutOfRange => OutOfRange
  | OutOfFuel => OutOfFuel
  end.

(** [v[i]] and [v[i] = x] on a [std::vector]. *)
Definition vec_get {A} (l : list A) (i : Z) : result A :=
  if decide (0 ≤ i) then
    match l !! Z.to_nat i with
    | Some x => Ok x
    | None => OutOfRange
    end
  else OutOfRange.

Definition vec_set {A} (l : list A) (i : Z) (x : A) : result (list A) :=
  if decide (0 ≤ i < Z.of_nat (length l)) then Ok (<[Z.to_nat i := x]> l)
  else OutOfRange.

(** [++] on an [int]: two's complement wrap-around at 32 bits. *)
Definition int_wrap (z : Z) : Z := (z + 2 ^ 31) mod 2 ^ 32 - 2 ^ 31.
Definition INT_MAX : Z := 2 ^ 31 - 1.

(** ** Data model *)

(** [using Vertex = int;] *)
Abbreviation Vertex := Z (only parsing).

Record Edge := mkEdge { source : Vertex; destination : Vertex }.

#[global] Instance Edge_eq_dec : EqDecision Edge.
Proof. solve_decision. Defined.

Inductive Color := kWhite | kGray | kBlack.

#[global] Instance Color_eq_dec : EqDecision Color.
Proof. solve_decision. Defined.

(** *** Graph

    [Graph] is the only implementation of [IGraph]; an [IteratorRange] over a
    vector is the list of its elements. *)

Record Graph := mkGraph {
  vertices_ : list Vertex;
  outgoing_edges_ : list (list Edge)
}.

(** [Graph::Graph(int vertex_count)]: [iota] over the vertices, no edges. *)
Definition Graph_new (vertex_count : nat) : Graph :=
  {| vertices_ := Z.of_nat <$> seq 0 vertex_count;
     outgoing_edges_ := replicate vertex_count [] |}.

(** [outgoing_edges_[edge.source].push_back(edge)] *)
Definition AddEdge (g : Graph) (edge : Edge) : result Graph :=
  es ← vec_get (outgoing_edges_ g) (source edge);
  out ← vec_set (outgoing_edges_ g) (source edge) (es ++ [edge]);
  Ok {| vertices_ := vertices_ g; outgoing_edges_ := out |}.

Definition GetVertices (g : Graph) : list Vertex := vertices_ g.

Definition GetOutgoingEdges (g : Graph) (vertex : Vertex) : result (list Edge) :=
  vec_get (outgoing_edges_ g) vertex.

(** *** The colormap interface and the array-backed colormap *)

Class IColormap (CM : Type) := {
  NewColormap : nat → CM;
  GetColor : CM → Vertex → result Color;
  SetColor : CM → Vertex → Color → result CM
}.

(** [class Colormap]: its only member is [std::vector<Color> colormap_]. *)
Abbreviation Colormap := (list Color) (only parsing).

#[global] Instance Colormap_IColormap : IColormap Colormap := {|
  NewColormap vertex_count := replicate vertex_count kWhite;
  GetColor colormap_ vertex := vec_get colormap_ vertex;
  SetColor colormap_ vertex color := vec_set colormap_ vertex color
|}.

(** *** The visitor interface *)

Class IDFSVisitor (VS : Type) := {
  InitializeVertex : Vertex → VS → result VS;
  DiscoverVertex : Vertex → VS → result VS;
  StartVertex : Vertex → VS → result VS;
  ExamineEdge : Edge → VS → result VS;
  TreeEdge : Edge → VS → result VS;
  BackEdge : Edge → VS → result VS;
  ForwardOrCrossEdge : Edge → VS → result VS;
  FinishEdge : Edge → VS → result VS;
  FinishVertex : Vertex → VS → result VS
}.

(** The empty body [{}] every callback of [IDFSVisitor] has by default. *)
Definition no_op {A VS : Type} (_ : A) (visitor : VS) : result VS := Ok visitor.

(** *** The timestamp visitor *)

Record TimeDFSVisitor := mkTime {
  timer : Z;
  time_in : list Z;
  time_out : list Z
}.

(** [TimeDFSVisitor(int vertex_count)]: [timer = 0], both vectors resized
    (value-initialised, hence zero). *)
Definition TimeDFSVisitor_new (vertex_count : nat) : TimeDFSVisitor :=
  {| timer := 0;
     time_in := replicate vertex_count 0;
     time_out := replicate vertex_count 0 |}.

(** [time_in[vertex] = timer++;] *)
Definition Time_DiscoverVertex (vertex : Vertex) (s : TimeDFSVisitor)
  : result TimeDFSVisitor :=
  tin ← vec_set (time_in s) vertex (timer s);
  Ok {| timer := int_wrap (timer s + 1); time_in := tin; time_out := time_out s |}.

(** [time_out[vertex] = timer++;] *)
Definition Time_FinishVertex (vertex : Vertex) (s : TimeDFSVisitor)
  : result TimeDFSVisitor :=
  tout ← vec_set (time_out s) vertex (timer s);
  Ok {| timer := int_wrap (timer s + 1); time_in := time_in s; time_out := tout |}.

#[global] Instance TimeDFSVisitor_IDFSVisitor : IDFSVisitor TimeDFSVisitor := {|
  InitializeVertex := no_op;
  DiscoverVertex := Time_DiscoverVertex;
  StartVertex := no_op;
  ExamineEdge := no_op;
  TreeEdge := no_op;
  BackEdge := no_op;
  ForwardOrCrossEdge := no_op;
  FinishEdge := no_op;
  FinishVertex := Time_FinishVertex
|}.

(** ** The engine *)

Section Engine.
Context {CM VS : Type} `{!IColormap CM} `{!IDFSVisitor VS}.

(** The edge loop of [DepthFirstSearchVisit]; [visit] is the recursive call. *)
Fixpoint visit_edges (visit : CM → VS → Vertex → result (CM * VS))
    (colormap : CM) (visitor : VS) (edges : list Edge) : result (CM * VS) :=
  match edges with
  | [] => Ok (colormap, visitor)
  | outgoing_edge :: rest =>
      visitor ← ExamineEdge outgoing_edge visitor;
      let destination := destination outgoing_edge in
      c ← GetColor colormap destination;
      '(colormap, visitor) ←
        (if decide (c = kWhite) then
           '(colormap, visitor) ← visit colormap visitor destination;
           visitor ← TreeEdge outgoing_edge visitor;
           Ok (colormap, visitor)
         else
           c' ← GetColor colormap destination;
           if decide (c' = kGray) then
             visitor ← BackEdge outgoing_edge visitor;
             Ok (colormap, visitor)
           else
             visitor ← ForwardOrCrossEdge outgoing_edge visitor;
             Ok (colormap, visitor));
      visitor ← FinishEdge outgoing_edge visitor;
      visit_edges visit colormap visitor rest
  end.

Fixpoint DepthFirstSearchVisit (fuel : nat) (graph : Graph)
    (colormap : CM) (visitor : VS) (vertex : Vertex) : result (CM * VS) :=
  match fuel with
  | O => OutOfFuel
  | S fuel =>
      colormap ← SetColor colormap vertex kGray;
      visitor ← DiscoverVertex vertex visitor;
      edges ← GetOutgoingEdges graph vertex;
      '(colormap, visitor) ←
        visit_edges (DepthFirstSearchVisit fuel graph) colormap visitor edges;
      colormap ← SetColor colormap vertex kBlack;
      visitor ← FinishVertex vertex visitor;
      Ok (colormap, visitor)
  end.

(** First loop of [DepthFirstSearch]. *)
Fixpoint initialize_vertices (colormap : CM) (visitor : VS)
    (vertices : list Vertex) : result (CM * VS) :=
  match vertices with
  | [] => Ok (colormap, visitor)
  | vertex :: rest =>
      colormap ← SetColor colormap vertex kWhite;
      visitor ← InitializeVertex vertex visitor;
      initialize_vertices colormap visitor rest
  end.

(** Last loop of [DepthFirstSearch]. *)
Fixpoint sweep_vertices (fuel : nat) (graph : Graph) (colormap : CM)
    (visitor : VS) (vertices : list Vertex) : result (CM * VS) :=
  match vertices with
  | [] => Ok (colormap, visitor)
  | vertex :: rest =>
      c ← GetColor colormap vertex;
      '(colormap, visitor) ←
        (if decide (c = kWhite) then
           visitor ← StartVertex vertex visitor;
           DepthFirstSearchVisit fuel graph colormap visitor vertex
         else Ok (colormap, visitor));
      sweep_vertices fuel graph colormap visitor rest
  end.

(** [DepthFirstSearch] with an explicit recursion budget. *)
Definition DepthFirstSearch_fuel (fuel : nat) (graph : Graph) (visitor : VS)
    (start : Vertex) : result (CM * VS) :=
  let colormap := NewColormap (length (GetVertices graph)) in
  '(colormap, visitor) ←
    initialize_vertices colormap visitor (GetVertices graph);
  '(colormap, visitor) ←
    (if decide (start ≠ -1) then
       visitor ← StartVertex start visitor;
       DepthFirstSearchVisit fuel graph colormap visitor start
     else Ok (colormap, visitor));
  sweep_vertices fuel graph colormap visitor (GetVertices graph).

(** The recursion never nests deeper than the number of vertices. *)
Definition DepthFirstSearch (graph : Graph) (visitor : VS) (start : Vertex)
  : result (CM * VS) :=
  DepthFirstSearch_fuel (length (GetVertices graph)) graph visitor start.
End Engine.

(** ** The driver *)

(** The loop of [main] that reads one parent reference per vertex.  The
    references come as a list, whose length is the vertex count read first.
    [--parent] and [++vertex] are written without wrap-around: [vertex] stays
    below the vertex count, and a decrement that wraps (from [INT_MIN]) gives
    [INT_MAX], which is outside every vector just as the unwrapped value is. *)
Fixpoint read_parents (parents : list Z) (vertex : Vertex) (graph : Graph)
    (start : Vertex) : result (Graph * Vertex) :=
  match parents with
  | [] => Ok (graph, start)
  | parent :: rest =>
      if decide (parent = 0) then read_parents rest (vertex + 1) graph vertex
      else
        graph ← AddEdge graph {| source := parent - 1; destination := vertex |};
        read_parents rest (vertex + 1) graph start
  end.

(** The body of the query loop: the digit written for [(ancestor, vertex)],
    after [--ancestor, --vertex] (no wrap-around, as in [read_parents]). *)
Definition answer_query (tv : TimeDFSVisitor) (query : Z * Z) : result Z :=
  let ancestor := query.1 - 1 in
  let vertex := query.2 - 1 in
  in_a ← vec_get (time_in tv) ancestor;
  in_v ← vec_get (time_in tv) vertex;
  if decide (in_a ≤ in_v) then
    out_v ← vec_get (time_out tv) vertex;
    out_a ← vec_get (time_out tv) ancestor;
    if decide (out_v ≤ out_a) then Ok 1 else Ok 0
  else Ok 0.

Fixpoint answer_queries (tv : TimeDFSVisitor) (queries : list (Z * Z))
  : result (list Z) :=
  match queries with
  | [] => Ok []
  | q :: rest =>
      r ← answer_query tv q;
      rs ← answer_queries tv rest;
      Ok (r :: rs)
  end.

(** The timestamps [main] computes for a list of parent references. *)
Definition timestamps (parents : list Z) : result TimeDFSVisitor :=
  let vertex_count := length parents in
  '(graph, start) ← read_parents parents 0 (Graph_new vertex_count) (-1);
  '(_, tv) ← DepthFirstSearch (CM := Colormap) graph
               (TimeDFSVisitor_new vertex_count) start;
  Ok tv.

(** [main]: the lines written for the parent references and the queries. *)
Definition main (parents : list Z) (queries : list (Z * Z)) : result (list Z) :=
  tv ← timestamps parents;
  answer_queries tv queries.

(** ** Instrumentation: what the engine calls, and in which order *)

(** One constructor per callback of [IDFSVisitor]. *)
Inductive Event :=
| EvInitializeVertex (v : Vertex)
| EvDiscoverVertex (v : Vertex)
| EvStartVertex (v : Vertex)
| EvExamineEdge (e : Edge)
| EvTreeEdge (e : Edge)
| EvBackEdge (e : Edge)
| EvForwardOrCrossEdge (e : Edge)
| EvFinishEdge (e : Edge)
| EvFinishVertex (v : Vertex).

#[global] Instance Event_eq_dec : EqDecision Event.
Proof. solve_decision. Defined.

(** A visitor that overrides every callback to append it to a log. *)
Abbreviation TraceVisitor := (list Event) (only parsing).

#[global] Instance TraceVisitor_IDFSVisitor : IDFSVisitor TraceVisitor := {|
  InitializeVertex v log := Ok (log ++ [EvInitializeVertex v]);
  DiscoverVertex v log := Ok (log ++ [EvDiscoverVertex v]);
  StartVertex v log := Ok (log ++ [EvStartVertex v]);
  ExamineEdge e log := Ok (log ++ [EvExamineEdge e]);
  TreeEdge e log := Ok (log ++ [EvTreeEdge e]);
  BackEdge e log := Ok (log ++ [EvBackEdge e]);
  ForwardOrCrossEdge e log := Ok (log ++ [EvForwardOrCrossEdge e]);
  FinishEdge e log := Ok (log ++ [EvFinishEdge e]);
  FinishVertex v log := Ok (log ++ [EvFinishVertex v])
|}.

(** Delivering a logged callback, or a whole log, to any visitor. *)
Definition notify {VS} `{!IDFSVisitor VS} (ev : Event) (visitor : VS) : result VS :=
  match ev with
  | EvInitializeVertex v => InitializeVertex v visitor
  | EvDiscoverVertex v => DiscoverVertex v visitor
  | EvStartVertex v => StartVertex v visitor
  | EvExamineEdge e => ExamineEdge e visitor
  | EvTreeEdge e => TreeEdge e visitor
  | EvBackEdge e => BackEdge e visitor
  | EvForwardOrCrossEdge e => ForwardOrCrossEdge e visitor
  | EvFinishEdge e => FinishEdge e visitor
  | EvFinishVertex v => FinishVertex v visitor
  end.

Fixpoint replay {VS} `{!IDFSVisitor VS} (log : list Event) (visitor : VS)
  : result VS :=
  match log with
  | [] => Ok visitor
  | ev :: rest => visitor ← notify ev visitor; replay rest visitor
  end.

(** Projections of a log. *)
Definition discovered (log : list Event) : list Vertex :=
  omap (λ ev, match ev with EvDiscoverVertex v => Some v | _ => None end) log.
Definition finished (log : list Event) : list Vertex :=
  omap (λ ev, match ev with EvFinishVertex v => Some v | _ => None end) log.
Definition started (log : list Event) : list Vertex :=
  omap (λ ev, match ev with EvStartVertex v => Some v | _ => None end) log.
Definition examined (log : list Event) : list Edge :=
  omap (λ ev, match ev with EvExamineEdge e => Some e | _ => None end) log.
Definition non_tree (log : list Event) : list Edge :=
  omap (λ ev, match ev with
              | EvBackEdge e | EvForwardOrCrossEdge e => Some e
              | _ => None
              end) log.

(** Number of timer increments a log causes in [TimeDFSVisitor]. *)
Definition ticks (log : list Event) : Z :=
  Z.of_nat (length (discovered log)) + Z.of_nat (length (finished log)).

(** A colormap that wraps the array-backed one and records every [SetColor]
    together with the colour it overwrites. *)
Record ColorWrite := mkWrite { cw_vertex : Vertex; cw_old : Color; cw_new : Color }.

#[global] Instance ColorWrite_eq_dec : EqDecision ColorWrite.
Proof. solve_decision. Defined.

Record RecordingColormap := mkRecording {
  rc_colors : Colormap;
  rc_writes : list ColorWrite
}.

#[global] Instance RecordingColormap_IColormap : IColormap RecordingColormap := {|
  NewColormap vertex_count :=
    {| rc_colors := NewColormap vertex_count; rc_writes := [] |};
  GetColor rc vertex := GetColor (rc_colors rc) vertex;
  SetColor rc vertex color :=
    old ← GetColor (rc_colors rc) vertex;
    colors ← SetColor (rc_colors rc) vertex color;
    Ok {| rc_colors := colors;
          rc_writes := rc_writes rc ++ [mkWrite vertex old color] |}
|}.

(** ** The visitor protocol, as the specification words it

    [visit_rel g cm v log writes cm']: visiting the unvisited vertex [v] from
    the colours [cm] issues the callbacks [log] and the colour changes
    [writes], and leaves the colours [cm'].  [edges_rel] is the processing of
    a sequence of outgoing edges. *)

Definition paint (cm : Colormap) (v : Vertex) (c : Color) : Colormap :=
  <[Z.to_nat v := c]> cm.

Inductive visit_rel (g : Graph)
  : Colormap → Vertex → list Event → list ColorWrite → Colormap → Prop :=
| visit_intro cm v es body wb cm1 :
    vec_get cm v = Ok kWhite →
    GetOutgoingEdges g v = Ok es →
    edges_rel g (paint cm v kGray) es body wb cm1 →
    vec_get cm1 v = Ok kGray →
    visit_rel g cm v
      (EvDiscoverVertex v :: body ++ [EvFinishVertex v])
      (mkWrite v kWhite kGray :: wb ++ [mkWrite v kGray kBlack])
      (paint cm1 v kBlack)
with edges_rel (g : Graph)
  : Colormap → list Edge → list Event → list ColorWrite → Colormap → Prop :=
| edges_nil cm :
    edges_rel g cm [] [] [] cm
| edges_tree cm e rest t1 w1 cm1 t2 w2 cm2 :
    vec_get cm (destination e) = Ok kWhite →
    visit_rel g cm (destination e) t1 w1 cm1 →
    edges_rel g cm1 rest t2 w2 cm2 →
    edges_rel g cm (e :: rest)
      (EvExamineEdge e :: t1 ++ EvTreeEdge e :: EvFinishEdge e :: t2)
      (w1 ++ w2) cm2
| edges_back cm e rest t2 w2 cm2 :
    vec_get cm (destination e) = Ok kGray →
    edges_rel g cm rest t2 w2 cm2 →
    edges_rel g cm (e :: rest)
      (EvExamineEdge e :: EvBackEdge e :: EvFinishEdge e :: t2) w2 cm2
| edges_cross cm e rest t2 w2 cm2 :
    vec_get cm (destination e) = Ok kBlack →
    edges_rel g cm rest t2 w2 cm2 →
    edges_rel g cm (e :: rest)
      (EvExamineEdge e :: EvForwardOrCrossEdge e :: EvFinishEdge e :: t2) w2 cm2.

Scheme visit_rel_mut := Minimality for visit_rel Sort Prop
  with edges_rel_mut := Minimality for edges_rel Sort Prop.
Combined Scheme visit_edges_rel_ind from visit_rel_mut, edges_rel_mut.

(** The sweep over the vertices that ends [DepthFirstSearch]. *)
Inductive sweep_rel (g : Graph)
  : Colormap → list Vertex → list Event → list ColorWrite → Colormap → Prop :=
| sweep_nil cm :
    sweep_rel g cm [] [] [] cm
| sweep_skip cm v rest c t w cm' :
    vec_get cm v = Ok c → c ≠ kWhite →
    sweep_rel g cm rest t w cm' →
    sweep_rel g cm (v :: rest) t w cm'
| sweep_start cm v rest t1 w1 cm1 t2 w2 cm2 :
    vec_get cm v = Ok kWhite →
    visit_rel g cm v t1 w1 cm1 →
    sweep_rel g cm1 rest t2 w2 cm2 →
    sweep_rel g cm (v :: rest) (EvStartVertex v :: t1 ++ t2) (w1 ++ w2) cm2.

(** The optional visit of the designated start vertex. *)
Inductive start_rel (g : Graph)
  : Colormap → Vertex → list Event → list ColorWrite → Colormap → Prop :=
| start_none cm :
    start_rel g cm (-1) [] [] cm
| start_some cm start t w cm' :
    start ≠ -1 →
    visit_rel g cm start t w cm' →
    start_rel g cm start (EvStartVertex start :: t) w cm'.

(** The whole traversal: initialisation, start vertex, sweep. *)
Inductive dfs_rel (g : Graph) (start : Vertex)
  : list Event → list ColorWrite → Colormap → Prop :=
| dfs_intro t1 w1 cm1 t2 w2 cm2 :
    let n := length (GetVertices g) in
    Forall (λ v, 0 ≤ v < Z.of_nat n) (GetVertices g) →
    start_rel g (replicate n kWhite) start t1 w1 cm1 →
    sweep_rel g cm1 (GetVertices g) t2 w2 cm2 →
    dfs_rel g start
      ((EvInitializeVertex <$> GetVertices g) ++ t1 ++ t2)
      (((λ v, mkWrite v kWhite kWhite) <$> GetVertices g) ++ w1 ++ w2)
      cm2.

(** ** Well-formed graphs *)

(** What [Graph(n)] followed by in-range [AddEdge]s establishes: the vertices
    are [0 .. n-1], there is one edge list per vertex, and every edge sits in
    the list of its source and leads to a vertex of the graph. *)
Definition edge_ok (n : nat) (v : nat) (e : Edge) : Prop :=
  source e = Z.of_nat v ∧ 0 ≤ destination e < Z.of_nat n.

Definition graph_wf (g : Graph) : Prop :=
  let n := length (vertices_ g) in
  vertices_ g = Z.of_nat <$> seq 0 n ∧
  length (outgoing_edges_ g) = n ∧
  ∀ v es e, outgoing_edges_ g !! v = Some es → e ∈ es → edge_ok n v e.

Definition vertex_count (g : Graph) : nat := length (vertices_ g).

Definition in_graph (g : Graph) (v : Vertex) : Prop :=
  0 ≤ v < Z.of_nat (vertex_count g).

(** [edge g u w]: the graph has an edge from [u] to [w]. *)
Definition edge (g : Graph) (u w : Vertex) : Prop :=
  ∃ es e, GetOutgoingEdges g u = Ok es ∧ e ∈ es ∧ destination e = w.

Definition all_edges (g : Graph) : list Edge := concat (outgoing_edges_ g).

Definition white_count (cm : Colormap) : nat :=
  length (filter (λ c, c = kWhite) cm).

(** The outgoing edges of a vertex, none outside the graph. *)
Definition out_edges (g : Graph) (u : Vertex) : list Edge :=
  match GetOutgoingEdges g u with
  | Ok es => es
  | _ => []
  end.

(** [nonwhite cm u]: [u] has been discovered. *)
Definition nonwhite (cm : list Color) (u : Vertex) : Prop :=
  ∃ c, vec_get cm u = Ok c ∧ c ≠ kWhite.

(** [visit_at g t a]: the log [t] contains a complete visit of [a]. *)
Definition visit_at (g : Graph) (t : list Event) (a : Vertex) : Prop :=
  ∃ pre ta post cm w cm',
    t = pre ++ ta ++ post ∧ visit_rel g cm a ta w cm'.

(** What a run does to the colours: exactly the vertices it discovers change,
    from white to black, and each is discovered once and finished once. *)
Definition colours_spec (cm : list Color) (t : list Event) (cm' : list Color) : Prop :=
  NoDup (discovered t) ∧
  finished t ≡ₚ discovered t ∧
  (∀ u, u ∈ discovered t → vec_get cm u = Ok kWhite ∧ vec_get cm' u = Ok kBlack) ∧
  (∀ u, u ∉ discovered t → vec_get cm' u = vec_get cm u).

(** ** Reading the timestamps *)

(** [time_in[u]] and [time_out[u]] for a vertex of the graph. *)
Definition tin (tv : TimeDFSVisitor) (u : Vertex) : Z :=
  default 0 (time_in tv !! Z.to_nat u).
Definition tout (tv : TimeDFSVisitor) (u : Vertex) : Z :=
  default 0 (time_out tv !! Z.to_nat u).

(** Both vectors of the visitor have [n] entries. *)
Definition time_sized (n : nat) (tv : TimeDFSVisitor) : Prop :=
  length (time_in tv) = n ∧ length (time_out tv) = n.

(** The test of the query loop: the interval of [a] contains that of [v]. *)
Definition contains (tv : TimeDFSVisitor) (a v : Vertex) : Prop :=
  tin tv a ≤ tin tv v ∧ tout tv v ≤ tout tv a.

(** ** The input: one parent reference per vertex *)

(** Every reference is [0] (a root) or the 1-based index of a vertex. *)
Definition parents_ok (parents : list Z) : Prop :=
  ∀ p, p ∈ parents → 0 ≤ p ≤ Z.of_nat (length parents).

(** The parent of a vertex, [None] for a root (and outside the input). *)
Definition parent_of (parents : list Z) (v : Vertex) : option Vertex :=
  match vec_get parents v with
  | Ok p => if decide (p = 0) then None else Some (p - 1)
  | _ => None
  end.

Inductive ancestor_or_self (parents : list Z) : Vertex → Vertex → Prop :=
| anc_self v : ancestor_or_self parents v v
| anc_parent a v p :
    parent_of parents v = Some p →
    ancestor_or_self parents a p →
    ancestor_or_self parents a v.

(** Following the parent references [k] times. *)
Fixpoint climb (parents : list Z) (k : nat) (v : Vertex) : option Vertex :=
  match k with
  | O => Some v
  | S k => p ← parent_of parents v; climb parents k p
  end.

Definition acyclic (parents : list Z) : Prop :=
  ∀ v k, (0 < k)%nat → climb parents k v ≠ Some v.

(** A forest: well-formed references without a cycle. *)
Definition forest (parents : list Z) : Prop :=
  parents_ok parents ∧ acyclic parents.

Definition is_root (parents : list Z) (r : Vertex) : Prop :=
  vec_get parents r = Ok 0.

(** A tree: a forest with exactly one root, [r]. *)
Definition rooted_tree (parents : list Z) (r : Vertex) : Prop :=
  forest parents ∧ is_root parents r ∧ ∀ r', is_root parents r' → r' = r.

(** What the loop of [main] has built after reading the references [done]. *)
Definition built (n : nat) (done : list Z) (g : Graph) (start : Vertex) : Prop :=
  vertices_ g = Z.of_nat <$> seq 0 n ∧
  length (outgoing_edges_ g) = n ∧
  (∀ u es, outgoing_edges_ g !! u = Some es →
     NoDup (destination <$> es) ∧
     ∀ e, e ∈ es ↔
       source e = Z.of_nat u ∧
       ∃ c, destination e = Z.of_nat c ∧ done !! c = Some (Z.of_nat u + 1)) ∧
  ((start = -1 ∧ 0 ∉ done) ∨
   (∃ i, start = Z.of_nat i ∧ done !! i = Some 0 ∧
         ∀ j, (i < j)%nat → done !! j ≠ Some 0)).

(** No edge leads from a white vertex to a discovered one. *)
Definition white_closed (g : Graph) (cm : list Color) : Prop :=
  ∀ u x, edge g u x → vec_get cm u = Ok kWhite → vec_get cm x = Ok kWhite.

(** Decidable counterparts, for concrete inputs. *)
Definition acyclicb (parents : list Z) : bool :=
  forallb (λ i, bool_decide (climb parents (length parents) (Z.of_nat i) = None))
          (seq 0 (length parents)).

Definition roots (parents : list Z) : list Vertex :=
  Z.of_nat <$> filter (λ i, parents !! i = Some 0) (seq 0 (length parents)).

Definition tree_edges (log : list Event) : list Edge :=
  omap (λ ev, match ev with EvTreeEdge e => Some e | _ => None end) log.

(** The vertices a callback is given, directly or as the ends of its edge. *)
Definition event_vertices (ev : Event) : list Vertex :=
  match ev with
  | EvInitializeVertex v | EvDiscoverVertex v | EvStartVertex v
  | EvFinishVertex v => [v]
  | EvExamineEdge e | EvTreeEdge e | EvBackEdge e | EvForwardOrCrossEdge e
  | EvFinishEdge e => [source e; destination e]
  end.

(** The colour changes of one vertex, in the order they are made. *)
Definition writes_of (v : Vertex) (ws : list ColorWrite) : list ColorWrite :=
  filter (λ cw, cw_vertex cw = v) ws.

(** Every callback of the log is given vertices of the graph only. *)
Definition log_in_graph (g : Graph) (t : list Event) : Prop :=
  ∀ ev v, ev ∈ t → v ∈ event_vertices ev → in_graph g v.

(** During a visit a vertex changes colour twice if the visit discovers it,
    white to gray and then gray to black, and not at all otherwise. *)
Definition writes_spec (t : list Event) (w : list ColorWrite) : Prop :=
  ∀ u, writes_of u w
       = if decide (u ∈ discovered t)
         then [mkWrite u kWhite kGray; mkWrite u kGray kBlack] else [].

(** What the constructor of [TimeDFSVisitor] establishes, whatever the
    vectors hold: the timer at [0], one entry per vertex. *)
Definition fresh_visitor (n : nat) (tv : TimeDFSVisitor) : Prop :=
  timer tv = 0 ∧ time_sized n tv.

(** A checker for [graph_wf], for concrete graphs. *)
Fixpoint edges_okb (n v : nat) (out : list (list Edge)) : bool :=
  match out with
  | [] => true
  | es :: rest =>
      forallb (λ e, bool_decide (source e = Z.of_nat v) &&
                    bool_decide (0 ≤ destination e < Z.of_nat n)) es
      && edges_okb n (S v) rest
  end.

Definition graph_wfb (g : Graph) : bool :=
  let n := length (vertices_ g) in
  bool_decide (vertices_ g = Z.of_nat <$> seq 0 n) &&
  bool_decide (length (outgoing_edges_ g) = n) &&
  edges_okb n 0 (outgoing_edges_ g).

(** The graph of the end-to-end example: edges 0→1, 0→2, 2→3. *)
Definition example_graph : Graph :=
  {| vertices_ := [0; 1; 2; 3];
     outgoing_edges_ := [[mkEdge 0 1; mkEdge 0 2]; []; [mkEdge 2 3]; []] |}.

(** Its parent references, and inputs with two roots, three roots, no root. *)
Definition example_parents : list Z := [0; 1; 1; 3].
Definition two_roots : list Z := [2; 0; 0].
Definition three_roots : list Z := [3; 0; 0; 0].
Definition no_root : list Z := [2; 1].


(** ** Further definitions *)

(** The vertices whose parent reference names [u], in input order. *)
Definition children (parents : list Z) (u : Vertex) : list Vertex :=
  Z.of_nat <$> filter (λ c, parents !! c = Some (u + 1)) (seq 0 (length parents)).

(** A query names two vertices of an input with [n] vertices. *)
Definition query_ok (n : nat) (q : Z * Z) : Prop :=
  1 ≤ q.1 ≤ Z.of_nat n ∧ 1 ≤ q.2 ≤ Z.of_nat n.

#[global] Instance query_ok_dec n q : Decision (query_ok n q).
Proof. unfold query_ok. apply _. Defined.

#[global] Instance contains_dec tv a v : Decision (contains tv a v).
Proof. unfold contains. apply _. Defined.

(** The colours agree with the part [pre] of the log that has been issued:
    white vertices are not discovered yet, gray ones are discovered and not
    finished, black ones are finished. *)
Definition log_colours (pre : list Event) (cm : list Color) : Prop :=
  ∀ x c, vec_get cm x = Ok c →
    match c with
    | kWhite => (x ∉ discovered pre) ∧ (x ∉ finished pre)
    | kGray => x ∈ discovered pre ∧ (x ∉ finished pre)
    | kBlack => x ∈ discovered pre ∧ x ∈ finished pre
    end.

(** [frame_at g p t a]: after the events [p], the log [t] contains the
    complete visit of [a], and the colours at its start agree with the
    events issued before it. *)
Definition frame_at (g : Graph) (p t : list Event) (a : Vertex) : Prop :=
  ∃ pre ta post cm w cm',
    t = pre ++ ta ++ post ∧ visit_rel g cm a ta w cm' ∧
    log_colours (p ++ pre) cm.

(** A graph without a cycle. *)
Definition dag (g : Graph) : Prop := ∀ x, ¬ tc (edge g) x x.

(** * Proofs *)

(** ** Vectors *)

Lemma vec_get_Ok {A} (l : list A) i x :
  vec_get l i = Ok x ↔ 0 ≤ i ∧ l !! Z.to_nat i = Some x.
Proof.
  unfold vec_get. destruct (decide (0 ≤ i)); [|split; [done|lia]].
  destruct (l !! Z.to_nat i) eqn:E; split; intros; try done.
  - by simplify_eq.
  - destruct H. by simplify_eq.
  - by destruct H.
Qed.

Lemma vec_get_range {A} (l : list A) i x :
  vec_get l i = Ok x → 0 ≤ i < Z.of_nat (length l).
Proof.
  rewrite vec_get_Ok. intros [? H%lookup_lt_Some]. lia.
Qed.

Lemma vec_get_in_range {A} (l : list A) i :
  0 ≤ i < Z.of_nat (length l) → ∃ x, vec_get l i = Ok x.
Proof.
  intros Hi. destruct (lookup_lt_is_Some_2 l (Z.to_nat i)) as [x Hx]; [lia|].
  exists x. apply vec_get_Ok. split; [lia|done].
Qed.

Lemma vec_get_elem_of {A} (l : list A) i x : vec_get l i = Ok x → x ∈ l.
Proof. rewrite vec_get_Ok. intros [_ H]. by eapply list_elem_of_lookup_2. Qed.

Lemma vec_set_Ok {A} (l : list A) i x y :
  vec_get l i = Ok y → vec_set l i x = Ok (<[Z.to_nat i := x]> l).
Proof.
  intros H%vec_get_range. unfold vec_set. by rewrite decide_True.
Qed.

Lemma vec_get_insert_eq {A} (l : list A) i x y :
  vec_get l i = Ok y → vec_get (<[Z.to_nat i := x]> l) i = Ok x.
Proof.
  intros H. pose proof (vec_get_range _ _ _ H).
  apply vec_get_Ok. split; [lia|]. apply list_lookup_insert_eq. lia.
Qed.

Lemma vec_get_insert_ne {A} (l : list A) i j x :
  0 ≤ i → i ≠ j → vec_get (<[Z.to_nat i := x]> l) j = vec_get l j.
Proof.
  intros Hi Hne. unfold vec_get. destruct (decide (0 ≤ j)); [|done].
  rewrite list_lookup_insert_ne; [done|lia].
Qed.

Lemma vec_get_paint_eq cm v c c0 :
  vec_get cm v = Ok c0 → vec_get (paint cm v c) v = Ok c.
Proof. apply vec_get_insert_eq. Qed.

Lemma vec_get_paint_ne cm v u c :
  0 ≤ v → v ≠ u → vec_get (paint cm v c) u = vec_get cm u.
Proof. apply vec_get_insert_ne. Qed.

Lemma length_paint cm v c : length (paint cm v c) = length cm.
Proof. apply length_insert. Qed.

(** ** Counting the unvisited vertices *)

Lemma white_count_insert_le (cm : Colormap) i c :
  c ≠ kWhite → (white_count (<[i := c]> cm) ≤ white_count cm)%nat.
Proof.
  intros Hc. unfold white_count. revert i.
  induction cm as [|a cm IH]; intros [|i]; simpl; try lia.
  - rewrite !filter_cons. repeat case_decide; simpl; try done; lia.
  - specialize (IH i). rewrite !filter_cons. repeat case_decide; simpl; lia.
Qed.

Lemma white_count_insert_lt (cm : Colormap) i c :
  cm !! i = Some kWhite → c ≠ kWhite →
  S (white_count (<[i := c]> cm)) = white_count cm.
Proof.
  intros Hi Hc. unfold white_count. revert i Hi.
  induction cm as [|a cm IH]; intros [|i] Hi; simplify_eq/=.
  - rewrite !filter_cons. repeat case_decide; simpl; done.
  - specialize (IH i Hi). rewrite !filter_cons. repeat case_decide; simpl; lia.
Qed.

Lemma white_count_paint_le cm v c :
  c ≠ kWhite → (white_count (paint cm v c) ≤ white_count cm)%nat.
Proof. apply white_count_insert_le. Qed.

Lemma white_count_paint_lt cm v c :
  vec_get cm v = Ok kWhite → c ≠ kWhite →
  S (white_count (paint cm v c)) = white_count cm.
Proof. rewrite vec_get_Ok. intros [_ H]. by apply white_count_insert_lt. Qed.

(** ** First facts about the protocol *)

Lemma rel_length g :
  (∀ cm v t w cm', visit_rel g cm v t w cm' → length cm' = length cm) ∧
  (∀ cm es t w cm', edges_rel g cm es t w cm' → length cm' = length cm).
Proof.
  apply visit_edges_rel_ind; intros; rewrite ?length_paint in *; congruence.
Qed.

Lemma rel_white_count g :
  (∀ cm v t w cm', visit_rel g cm v t w cm' →
     (white_count cm' ≤ white_count cm)%nat) ∧
  (∀ cm es t w cm', edges_rel g cm es t w cm' →
     (white_count cm' ≤ white_count cm)%nat).
Proof.
  apply visit_edges_rel_ind; intros; try lia.
  pose proof (white_count_paint_le cm v kGray).
  pose proof (white_count_paint_le cm1 v kBlack). naive_solver lia.
Qed.

(** A vertex that is not white keeps its colour across a visit. *)
Lemma rel_frame g :
  (∀ cm v t w cm', visit_rel g cm v t w cm' →
     ∀ u c, vec_get cm u = Ok c → c ≠ kWhite → vec_get cm' u = Ok c) ∧
  (∀ cm es t w cm', edges_rel g cm es t w cm' →
     ∀ u c, vec_get cm u = Ok c → c ≠ kWhite → vec_get cm' u = Ok c).
Proof.
  apply visit_edges_rel_ind; intros; eauto.
  assert (u ≠ v) by congruence.
  pose proof (vec_get_range _ _ _ H).
  rewrite vec_get_paint_ne by lia.
  apply H2; [|done]. by rewrite vec_get_paint_ne by lia.
Qed.
(** ** Replaying a log *)

Lemma replay_app {VS} `{!IDFSVisitor VS} (t1 t2 : list Event) (s : VS) :
  replay (t1 ++ t2) s = s' ← replay t1 s; replay t2 s'.
Proof.
  revert s. induction t1 as [|ev t1 IH]; intros s; simpl; [done|].
  destruct (notify ev s); simpl; auto.
Qed.

Lemma replay_trace (t log : list Event) : replay t log = Ok (log ++ t).
Proof.
  revert log. induction t as [|ev t IH]; intros log; simpl.
  - by rewrite app_nil_r.
  - destruct ev; simpl; rewrite IH, <- app_assoc; done.
Qed.

(** ** The engine follows the protocol, whatever the visitor

    [repr cm w] is the colormap object that holds the colours [cm] after the
    writes [w]; the hypotheses say that the colormap implements the array
    semantics.  Both colormaps of this development satisfy them. *)

Section Adequacy.
Context {CM VS : Type} `{!IColormap CM} `{!IDFSVisitor VS}.
Variable repr : list Color → list ColorWrite → CM.
Hypothesis repr_new : ∀ n, NewColormap n = repr (replicate n kWhite) [].
Hypothesis repr_get : ∀ cm w v, GetColor (repr cm w) v = vec_get cm v.
Hypothesis repr_set : ∀ cm w v c old,
  vec_get cm v = Ok old →
  SetColor (repr cm w) v c = Ok (repr (paint cm v c) (w ++ [mkWrite v old c])).

Lemma rel_adequate g :
  (∀ cm v t w cm', visit_rel g cm v t w cm' →
     ∀ fuel w0 (s : VS), (white_count cm ≤ fuel)%nat →
       DepthFirstSearchVisit fuel g (repr cm w0) s v
       = s' ← replay t s; Ok (repr cm' (w0 ++ w), s')) ∧
  (∀ cm es t w cm', edges_rel g cm es t w cm' →
     ∀ fuel w0 (s : VS), (white_count cm ≤ fuel)%nat →
       visit_edges (DepthFirstSearchVisit fuel g) (repr cm w0) s es
       = s' ← replay t s; Ok (repr cm' (w0 ++ w), s')).
Proof.
  apply visit_edges_rel_ind.
  - intros cm v es body wb cm1 Hw Hes _ IH Hg fuel w0 s Hfuel.
    pose proof (white_count_paint_lt cm v kGray Hw ltac:(done)) as Hlt.
    destruct fuel as [|fuel]; [lia|]. simpl.
    rewrite (repr_set _ _ _ _ _ Hw). simpl.
    destruct (DiscoverVertex v s) as [s1| |]; simpl; [|done..].
    rewrite Hes. simpl. rewrite IH by lia.
    rewrite replay_app.
    destruct (replay body s1) as [s2| |]; simpl; [|done..].
    rewrite (repr_set _ _ _ _ _ Hg). simpl.
    destruct (FinishVertex v s2) as [s3| |]; simpl; [|done..].
    by rewrite <- !app_assoc.
  - intros cm fuel w0 s _. simpl. by rewrite app_nil_r.
  - intros cm e rest t1 w1 cm1 t2 w2 cm2 Hw Hv IHv He IHe fuel w0 s Hfuel.
    simpl. destruct (ExamineEdge e s) as [s1| |]; simpl; [|done..].
    rewrite repr_get, Hw. simpl.
    rewrite IHv by done. rewrite replay_app.
    destruct (replay t1 s1) as [s2| |]; simpl; [|done..].
    destruct (TreeEdge e s2) as [s3| |]; simpl; [|done..].
    destruct (FinishEdge e s3) as [s4| |]; simpl; [|done..].
    rewrite IHe.
    + by rewrite app_assoc.
    + pose proof (proj1 (rel_white_count g) _ _ _ _ _ Hv). lia.
  - intros cm e rest t2 w2 cm2 Hc He IHe fuel w0 s Hfuel.
    simpl. destruct (ExamineEdge e s) as [s1| |]; simpl; [|done..].
    rewrite repr_get, Hc. simpl.
    destruct (BackEdge e s1) as [s2| |]; simpl; [|done..].
    destruct (FinishEdge e s2) as [s3| |]; simpl; [|done..].
    by rewrite IHe.
  - intros cm e rest t2 w2 cm2 Hc He IHe fuel w0 s Hfuel.
    simpl. destruct (ExamineEdge e s) as [s1| |]; simpl; [|done..].
    rewrite repr_get, Hc. simpl.
    destruct (ForwardOrCrossEdge e s1) as [s2| |]; simpl; [|done..].
    destruct (FinishEdge e s2) as [s3| |]; simpl; [|done..].
    by rewrite IHe.
Qed.

Lemma initialize_adequate (cm : list Color) vs w0 (s : VS) :
  (∀ v, v ∈ vs → vec_get cm v = Ok kWhite) →
  initialize_vertices (repr cm w0) s vs
  = s' ← replay (EvInitializeVertex <$> vs) s;
    Ok (repr cm (w0 ++ ((λ v, mkWrite v kWhite kWhite) <$> vs)), s').
Proof.
  revert w0 s. induction vs as [|v vs IH]; intros w0 s Hvs; simpl.
  - by rewrite app_nil_r.
  - assert (vec_get cm v = Ok kWhite) as Hv by (apply Hvs; left).
    rewrite (repr_set _ _ _ _ _ Hv). simpl.
    assert (paint cm v kWhite = cm) as ->.
    { apply list_insert_id. by apply vec_get_Ok in Hv as [_ ?]. }
    destruct (InitializeVertex v s) as [s1| |]; simpl; [|done..].
    rewrite IH by (intros; apply Hvs; by right).
    by rewrite <- app_assoc.
Qed.

Lemma sweep_adequate g cm vs t w cm' :
  sweep_rel g cm vs t w cm' →
  ∀ fuel w0 (s : VS), (white_count cm ≤ fuel)%nat →
    sweep_vertices fuel g (repr cm w0) s vs
    = s' ← replay t s; Ok (repr cm' (w0 ++ w), s').
Proof.
  induction 1 as [cm|cm v rest c t w cm' Hc Hne _ IH
                 |cm v rest t1 w1 cm1 t2 w2 cm2 Hw Hv _ IH];
    intros fuel w0 s Hfuel; simpl.
  - by rewrite app_nil_r.
  - rewrite repr_get, Hc. simpl. rewrite decide_False by done. simpl.
    by apply IH.
  - rewrite repr_get, Hw. simpl.
    destruct (StartVertex v s) as [s1| |]; simpl; [|done..].
    rewrite (proj1 (rel_adequate g) _ _ _ _ _ Hv) by done.
    rewrite replay_app.
    destruct (replay t1 s1) as [s2| |]; simpl; [|done..].
    rewrite IH.
    + by rewrite app_assoc.
    + pose proof (proj1 (rel_white_count g) _ _ _ _ _ Hv). lia.
Qed.

Lemma white_count_le_length (cm : list Color) :
  (white_count cm ≤ length cm)%nat.
Proof. apply length_filter. Qed.

(** Every traversal the protocol allows is the one the engine performs,
    and the visitor ends in the state the logged callbacks lead to; one
    unit of fuel per vertex is enough. *)
Lemma dfs_fuel_adequate g start t w cm' fuel (s : VS) :
  dfs_rel g start t w cm' → (length (GetVertices g) ≤ fuel)%nat →
  DepthFirstSearch_fuel fuel g s start = s' ← replay t s; Ok (repr cm' w, s').
Proof.
  intros [t1 w1 cm1 t2 w2 cm2 n Hrange Hstart Hsweep] Hfuel.
  unfold DepthFirstSearch_fuel. fold n in Hfuel |- *.
  rewrite repr_new.
  assert (∀ v, v ∈ GetVertices g → vec_get (replicate n kWhite) v = Ok kWhite)
    as Hwhite.
  { intros v Hv. rewrite Forall_forall in Hrange. specialize (Hrange v Hv).
    apply vec_get_Ok. split; [lia|]. apply lookup_replicate_2. lia. }
  rewrite initialize_adequate by done. rewrite !replay_app. simpl.
  destruct (replay (EvInitializeVertex <$> GetVertices g) s) as [s1| |];
    simpl; [|done..].
  pose proof (white_count_le_length (replicate n kWhite)) as Hn.
  rewrite length_replicate in Hn.
  destruct Hstart as [cm|cm st t0 w0 cm0 Hne Hv]; simpl.
  - rewrite (sweep_adequate _ _ _ _ _ _ Hsweep) by lia.
    reflexivity.
  - rewrite decide_True by done.
    destruct (StartVertex st s1) as [s2| |]; simpl; [|done..].
    rewrite (proj1 (rel_adequate g) _ _ _ _ _ Hv) by lia.
    rewrite replay_app.
    destruct (replay t0 s2) as [s3| |]; simpl; [|done..].
    rewrite (sweep_adequate _ _ _ _ _ _ Hsweep).
    + destruct (replay t2 s3); simpl; [|done..]. by rewrite <- ?app_assoc.
    + pose proof (proj1 (rel_white_count g) _ _ _ _ _ Hv). lia.
Qed.

Lemma dfs_adequate g start t w cm' (s : VS) :
  dfs_rel g start t w cm' →
  DepthFirstSearch g s start = s' ← replay t s; Ok (repr cm' w, s').
Proof. intros H. by apply dfs_fuel_adequate. Qed.
End Adequacy.

Lemma visit_length g cm v t w cm' :
  visit_rel g cm v t w cm' → length cm' = length cm.
Proof. apply rel_length. Qed.

Lemma visit_white_count g cm v t w cm' :
  visit_rel g cm v t w cm' → (white_count cm' ≤ white_count cm)%nat.
Proof. apply rel_white_count. Qed.

Lemma visit_frame g cm v t w cm' u c :
  visit_rel g cm v t w cm' → vec_get cm u = Ok c → c ≠ kWhite →
  vec_get cm' u = Ok c.
Proof. intros H. by apply (proj1 (rel_frame g) _ _ _ _ _ H). Qed.

Lemma edges_frame g cm es t w cm' u c :
  edges_rel g cm es t w cm' → vec_get cm u = Ok c → c ≠ kWhite →
  vec_get cm' u = Ok c.
Proof. intros H. by apply (proj2 (rel_frame g) _ _ _ _ _ H). Qed.
(** ** Well-formed graphs *)

Lemma wf_outgoing g v :
  graph_wf g → in_graph g v → ∃ es, GetOutgoingEdges g v = Ok es.
Proof.
  intros (_ & Hlen & _) Hv. apply vec_get_in_range.
  unfold in_graph, vertex_count in Hv. lia.
Qed.

Lemma wf_edge g v es e :
  graph_wf g → GetOutgoingEdges g v = Ok es → e ∈ es →
  source e = v ∧ in_graph g (destination e).
Proof.
  intros (_ & _ & Hes) [Hv Hlook]%vec_get_Ok He.
  destruct (Hes _ _ _ Hlook He) as [Hs Hd]. split; [lia|done].
Qed.

Lemma wf_vertices g v : graph_wf g → v ∈ GetVertices g ↔ in_graph g v.
Proof.
  intros (Hvs & _). unfold GetVertices, in_graph, vertex_count.
  rewrite Hvs at 1. rewrite list_elem_of_fmap. split.
  - intros (i & -> & Hi%elem_of_seq). lia.
  - intros Hv. exists (Z.to_nat v). split; [lia|]. apply elem_of_seq. lia.
Qed.

Lemma edge_in_graph g u w : graph_wf g → edge g u w → in_graph g u ∧ in_graph g w.
Proof.
  intros Hwf (es & e & Hes & He & <-). split.
  - destruct Hwf as (_ & Hlen & _). apply vec_get_range in Hes.
    unfold in_graph, vertex_count. lia.
  - by eapply wf_edge.
Qed.

(** ** The protocol always has a run: the traversal terminates *)

Lemma edges_rel_total g fuel :
  (∀ cm v, length cm = vertex_count g → (white_count cm ≤ fuel)%nat →
     vec_get cm v = Ok kWhite → ∃ t w cm', visit_rel g cm v t w cm') →
  ∀ es, (∀ e, e ∈ es → in_graph g (destination e)) →
  ∀ cm, length cm = vertex_count g → (white_count cm ≤ fuel)%nat →
    ∃ t w cm', edges_rel g cm es t w cm'.
Proof.
  intros IHv es. induction es as [|e es IH]; intros Hes cm Hlen Hfuel.
  - eauto using edges_nil.
  - assert (in_graph g (destination e)) as Hd by (apply Hes; left).
    assert (∀ e', e' ∈ es → in_graph g (destination e')) as Hes'
      by (intros; apply Hes; by right).
    destruct (vec_get_in_range cm (destination e)) as [c Hc].
    { unfold in_graph in Hd. lia. }
    destruct c.
    + destruct (IHv cm (destination e)) as (t1 & w1 & cm1 & Hv); try done.
      destruct (IH Hes' cm1) as (t2 & w2 & cm2 & He).
      * rewrite <- Hlen. eapply visit_length, Hv.
      * pose proof (visit_white_count _ _ _ _ _ _ Hv). lia.
      * eauto using edges_tree.
    + destruct (IH Hes' cm) as (t2 & w2 & cm2 & He); eauto using edges_back.
    + destruct (IH Hes' cm) as (t2 & w2 & cm2 & He); eauto using edges_cross.
Qed.

Lemma visit_rel_total g :
  graph_wf g →
  ∀ fuel cm v, length cm = vertex_count g → (white_count cm ≤ fuel)%nat →
    vec_get cm v = Ok kWhite → ∃ t w cm', visit_rel g cm v t w cm'.
Proof.
  intros Hwf fuel. induction fuel as [|fuel IH]; intros cm v Hlen Hfuel Hw.
  - pose proof (white_count_paint_lt cm v kGray Hw ltac:(done)). lia.
  - pose proof (white_count_paint_lt cm v kGray Hw ltac:(done)) as Hlt.
    assert (in_graph g v) as Hv.
    { apply vec_get_range in Hw. unfold in_graph. lia. }
    destruct (wf_outgoing g v Hwf Hv) as [es Hes].
    destruct (edges_rel_total g fuel IH es) with (cm := paint cm v kGray)
      as (body & wb & cm1 & He).
    + intros e He. by eapply wf_edge.
    + by rewrite length_paint.
    + lia.
    + exists (EvDiscoverVertex v :: body ++ [EvFinishVertex v]),
        (mkWrite v kWhite kGray :: wb ++ [mkWrite v kGray kBlack]),
        (paint cm1 v kBlack).
      apply visit_intro with es; try done.
      eapply edges_frame; [done| |done].
      by eapply vec_get_paint_eq.
Qed.

Lemma sweep_rel_total g :
  graph_wf g →
  ∀ vs, (∀ v, v ∈ vs → in_graph g v) →
  ∀ cm, length cm = vertex_count g → ∃ t w cm', sweep_rel g cm vs t w cm'.
Proof.
  intros Hwf vs. induction vs as [|v vs IH]; intros Hvs cm Hlen.
  - eauto using sweep_nil.
  - assert (in_graph g v) as Hv by (apply Hvs; left).
    assert (∀ u, u ∈ vs → in_graph g u) as Hvs' by (intros; apply Hvs; by right).
    destruct (vec_get_in_range cm v) as [c Hc].
    { unfold in_graph in Hv. lia. }
    destruct (decide (c = kWhite)) as [->|Hne].
    + destruct (visit_rel_total g Hwf (white_count cm) cm v)
        as (t1 & w1 & cm1 & Hvis); try done.
      destruct (IH Hvs' cm1) as (t2 & w2 & cm2 & Hs).
      * rewrite <- Hlen. eapply visit_length, Hvis.
      * eauto using sweep_start.
    + destruct (IH Hvs' cm) as (t2 & w2 & cm2 & Hs); eauto using sweep_skip.
Qed.

Lemma dfs_rel_total g start :
  graph_wf g → start = -1 ∨ in_graph g start →
  ∃ t w cm', dfs_rel g start t w cm'.
Proof.
  intros Hwf Hstart.
  set (n := length (GetVertices g)).
  assert (Forall (λ v, 0 ≤ v < Z.of_nat n) (GetVertices g)) as Hrange.
  { apply Forall_forall. intros v Hv. by apply wf_vertices in Hv. }
  assert (∃ t1 w1 cm1, start_rel g (replicate n kWhite) start t1 w1 cm1 ∧
                        length cm1 = vertex_count g) as (t1 & w1 & cm1 & Hst & Hlen).
  { destruct (decide (start = -1)) as [->|Hne].
    - eexists _, _, _. split; [apply start_none|]. apply length_replicate.
    - destruct Hstart as [?|Hin]; [done|].
      destruct (visit_rel_total g Hwf n (replicate n kWhite) start)
        as (t & w & cm' & Hv).
      + apply length_replicate.
      + etrans; [apply white_count_le_length|]. by rewrite length_replicate.
      + apply vec_get_Ok. unfold in_graph in Hin. split; [lia|].
        apply lookup_replicate_2. unfold vertex_count in Hin.
        unfold n, GetVertices. lia.
      + eexists _, _, _. split; [by apply start_some|].
        erewrite visit_length by done. apply length_replicate. }
  destruct (sweep_rel_total g Hwf (GetVertices g)) with (cm := cm1)
    as (t2 & w2 & cm2 & Hsw); [by intros v ?%wf_vertices|done|].
  eexists _, _, _. by eapply dfs_intro.
Qed.
(** ** Projections of logs *)

Lemma discovered_app t1 t2 : discovered (t1 ++ t2) = discovered t1 ++ discovered t2.
Proof. apply omap_app. Qed.
Lemma finished_app t1 t2 : finished (t1 ++ t2) = finished t1 ++ finished t2.
Proof. apply omap_app. Qed.
Lemma started_app t1 t2 : started (t1 ++ t2) = started t1 ++ started t2.
Proof. apply omap_app. Qed.
Lemma examined_app t1 t2 : examined (t1 ++ t2) = examined t1 ++ examined t2.
Proof. apply omap_app. Qed.
Lemma non_tree_app t1 t2 : non_tree (t1 ++ t2) = non_tree t1 ++ non_tree t2.
Proof. apply omap_app. Qed.

Lemma ticks_app t1 t2 : ticks (t1 ++ t2) = ticks t1 + ticks t2.
Proof. unfold ticks. rewrite discovered_app, finished_app, !length_app. lia. Qed.

Lemma ticks_nonneg t : 0 ≤ ticks t.
Proof. unfold ticks. lia. Qed.

Lemma elem_of_discovered t v : v ∈ discovered t ↔ EvDiscoverVertex v ∈ t.
Proof.
  unfold discovered. rewrite list_elem_of_omap. split.
  - intros (ev & Hev & Heq). destruct ev; simplify_eq. done.
  - intros H. by exists (EvDiscoverVertex v).
Qed.

Lemma elem_of_finished t v : v ∈ finished t ↔ EvFinishVertex v ∈ t.
Proof.
  unfold finished. rewrite list_elem_of_omap. split.
  - intros (ev & Hev & Heq). destruct ev; simplify_eq. done.
  - intros H. by exists (EvFinishVertex v).
Qed.

Lemma elem_of_examined t e : e ∈ examined t ↔ EvExamineEdge e ∈ t.
Proof.
  unfold examined. rewrite list_elem_of_omap. split.
  - intros (ev & Hev & Heq). destruct ev; simplify_eq. done.
  - intros H. by exists (EvExamineEdge e).
Qed.

Lemma elem_of_started t v : v ∈ started t ↔ EvStartVertex v ∈ t.
Proof.
  unfold started. rewrite list_elem_of_omap. split.
  - intros (ev & Hev & Heq). destruct ev; simplify_eq. done.
  - intros H. by exists (EvStartVertex v).
Qed.

Lemma discovered_initialize vs : discovered (EvInitializeVertex <$> vs) = [].
Proof. induction vs; simpl; auto. Qed.
Lemma finished_initialize vs : finished (EvInitializeVertex <$> vs) = [].
Proof. induction vs; simpl; auto. Qed.
Lemma examined_initialize vs : examined (EvInitializeVertex <$> vs) = [].
Proof. induction vs; simpl; auto. Qed.
Lemma started_initialize vs : started (EvInitializeVertex <$> vs) = [].
Proof. induction vs; simpl; auto. Qed.
Lemma non_tree_initialize vs : non_tree (EvInitializeVertex <$> vs) = [].
Proof. induction vs; simpl; auto. Qed.

Ltac simpl_log :=
  repeat first
    [ progress rewrite ?discovered_app, ?finished_app, ?started_app,
        ?examined_app, ?non_tree_app, ?ticks_app,
        ?discovered_initialize, ?finished_initialize, ?examined_initialize,
        ?started_initialize, ?non_tree_initialize, ?app_nil_r
    | progress simpl ].

(** ** Colours and the vertices a visit discovers *)

Lemma colours_spec_nil cm : colours_spec cm [] cm.
Proof.
  split_and!; simpl; try done. { constructor. } intros u Hu. by apply not_elem_of_nil in Hu.
Qed.

Lemma colours_spec_app cm t1 cm1 t2 cm2 :
  colours_spec cm t1 cm1 → colours_spec cm1 t2 cm2 →
  colours_spec cm (t1 ++ t2) cm2.
Proof.
  intros (Hnd1 & Hp1 & Hin1 & Hout1) (Hnd2 & Hp2 & Hin2 & Hout2).
  assert (∀ u, u ∈ discovered t1 → u ∉ discovered t2) as Hdisj.
  { intros u H1 H2. destruct (Hin1 u H1) as [_ Hb]. destruct (Hin2 u H2) as [Hw _].
    congruence. }
  unfold colours_spec. simpl_log. split_and!.
  - apply NoDup_app. done.
  - by rewrite Hp1, Hp2.
  - intros u [H1|H2]%elem_of_app.
    + destruct (Hin1 u H1) as [Hw Hb]. split; [done|].
      rewrite Hout2; [done|]. by apply Hdisj.
    + destruct (Hin2 u H2) as [Hw Hb]. split; [|done].
      rewrite <- Hout1; [done|]. intros H1. by apply (Hdisj u).
  - intros u Hu. rewrite not_elem_of_app in Hu. destruct Hu.
    rewrite Hout2, Hout1; done.
Qed.

(** Callbacks other than [DiscoverVertex]/[FinishVertex] do not matter. *)
Lemma colours_spec_skip cm ev t cm' :
  discovered [ev] = [] → finished [ev] = [] →
  colours_spec cm t cm' → colours_spec cm (ev :: t) cm'.
Proof.
  unfold colours_spec, discovered, finished. simpl.
  destruct ev; simpl; intros; simplify_eq; done.
Qed.

Lemma rel_colours g :
  (∀ cm v t w cm', visit_rel g cm v t w cm' → colours_spec cm t cm') ∧
  (∀ cm es t w cm', edges_rel g cm es t w cm' → colours_spec cm t cm').
Proof.
  apply visit_edges_rel_ind.
  - intros cm v es body wb cm1 Hw Hes _ (Hnd & Hp & Hin & Hout) Hg.
    pose proof (vec_get_range _ _ _ Hw) as Hr.
    assert (v ∉ discovered body) as Hv.
    { intros Hv. destruct (Hin v Hv) as [Hw' _].
      rewrite (vec_get_paint_eq _ _ _ _ Hw) in Hw'. done. }
    unfold colours_spec. simpl_log. split_and!.
    + by constructor.
    + rewrite Hp. symmetry. apply Permutation_cons_append.
    + intros u [->|Hu]%elem_of_cons.
      * split; [done|]. by eapply vec_get_paint_eq.
      * assert (u ≠ v) by congruence.
        destruct (Hin u Hu) as [Hw' Hb].
        rewrite vec_get_paint_ne in Hw' by lia.
        rewrite vec_get_paint_ne by lia. done.
    + intros u Hu. rewrite not_elem_of_cons in Hu. destruct Hu as [Hne Hu].
      rewrite vec_get_paint_ne by lia. rewrite Hout by done.
      by rewrite vec_get_paint_ne by lia.
  - intros cm. apply colours_spec_nil.
  - intros cm e rest t1 w1 cm1 t2 w2 cm2 _ _ IH1 _ IH2.
    apply colours_spec_skip; [done..|].
    eapply colours_spec_app; [done|].
    do 2 (apply colours_spec_skip; [done..|]). done.
  - intros cm e rest t2 w2 cm2 _ _ IH.
    do 3 (apply colours_spec_skip; [done..|]). done.
  - intros cm e rest t2 w2 cm2 _ _ IH.
    do 3 (apply colours_spec_skip; [done..|]). done.
Qed.

Lemma visit_colours g cm v t w cm' :
  visit_rel g cm v t w cm' → colours_spec cm t cm'.
Proof. apply rel_colours. Qed.

Lemma edges_colours g cm es t w cm' :
  edges_rel g cm es t w cm' → colours_spec cm t cm'.
Proof. apply rel_colours. Qed.

Lemma sweep_colours g cm vs t w cm' :
  sweep_rel g cm vs t w cm' → colours_spec cm t cm'.
Proof.
  induction 1.
  - apply colours_spec_nil.
  - done.
  - apply colours_spec_skip; [done..|].
    eapply colours_spec_app; [by eapply visit_colours|done].
Qed.

Lemma start_colours g cm start t w cm' :
  start_rel g cm start t w cm' → colours_spec cm t cm'.
Proof.
  destruct 1.
  - apply colours_spec_nil.
  - apply colours_spec_skip; [done..|]. by eapply visit_colours.
Qed.
Lemma colours_frame cm t cm' u c :
  colours_spec cm t cm' → vec_get cm u = Ok c → c ≠ kWhite →
  vec_get cm' u = Ok c.
Proof.
  intros (_ & _ & Hin & Hout) Hu Hc. rewrite Hout; [done|].
  intros [Hw _]%Hin. congruence.
Qed.

Lemma nonwhite_frame cm t cm' u :
  colours_spec cm t cm' → nonwhite cm u → nonwhite cm' u.
Proof. intros H (c & Hc & Hne). exists c. eauto using colours_frame. Qed.

Lemma nonwhite_paint cm v c u :
  0 ≤ v → c ≠ kWhite → nonwhite cm u → nonwhite (paint cm v c) u.
Proof.
  intros Hv Hc (c' & Hc' & Hne). destruct (decide (v = u)) as [->|Hvu].
  - exists c. split; [|done]. by eapply vec_get_paint_eq.
  - exists c'. by rewrite vec_get_paint_ne.
Qed.

Lemma visit_inv g cm v t w cm' :
  visit_rel g cm v t w cm' →
  ∃ es body wb cm1,
    t = EvDiscoverVertex v :: body ++ [EvFinishVertex v] ∧
    w = mkWrite v kWhite kGray :: wb ++ [mkWrite v kGray kBlack] ∧
    cm' = paint cm1 v kBlack ∧
    vec_get cm v = Ok kWhite ∧
    GetOutgoingEdges g v = Ok es ∧
    edges_rel g (paint cm v kGray) es body wb cm1.
Proof. inversion 1; subst. eauto 10. Qed.

Lemma visit_discovers_self g cm v t w cm' :
  visit_rel g cm v t w cm' → v ∈ discovered t.
Proof. intros (?&?&?&?&->&_)%visit_inv. simpl. left. Qed.

(** ** Every edge of a discovered vertex is examined, once *)

Lemma out_edges_Ok g v es : GetOutgoingEdges g v = Ok es → out_edges g v = es.
Proof. unfold out_edges. by intros ->. Qed.

Lemma rel_examined g :
  (∀ cm v t w cm', visit_rel g cm v t w cm' →
     examined t ≡ₚ discovered t ≫= out_edges g) ∧
  (∀ cm es t w cm', edges_rel g cm es t w cm' →
     examined t ≡ₚ es ++ (discovered t ≫= out_edges g)).
Proof.
  apply visit_edges_rel_ind.
  - intros cm v es body wb cm1 Hw Hes _ IH Hg. simpl_log.
    by rewrite IH, (out_edges_Ok _ _ _ Hes).
  - intros. done.
  - intros cm e rest t1 w1 cm1 t2 w2 cm2 _ _ IH1 _ IH2. simpl_log.
    rewrite IH1, IH2, bind_app. constructor.
    rewrite !(assoc (++)). apply Permutation_app_tail, Permutation_app_comm.
  - intros cm e rest t2 w2 cm2 _ _ IH. simpl_log. by rewrite IH.
  - intros cm e rest t2 w2 cm2 _ _ IH. simpl_log. by rewrite IH.
Qed.

(** ** Each discovered vertex has its own complete visit in the log *)

Lemma visit_at_embed g t a l1 l2 : visit_at g t a → visit_at g (l1 ++ t ++ l2) a.
Proof.
  intros (pre & ta & post & cm & w & cm' & -> & H).
  exists (l1 ++ pre), ta, (post ++ l2), cm, w, cm'. split; [|done].
  by rewrite <- !(assoc (++)).
Qed.

Lemma visit_at_cons g t a ev : visit_at g t a → visit_at g (ev :: t) a.
Proof. intros H. apply (visit_at_embed g t a [ev] []) in H. by rewrite app_nil_r in H. Qed.

Lemma visit_at_app_l g t1 t2 a : visit_at g t1 a → visit_at g (t1 ++ t2) a.
Proof. apply (visit_at_embed g t1 a [] t2). Qed.

Lemma visit_at_app_r g t1 t2 a : visit_at g t2 a → visit_at g (t1 ++ t2) a.
Proof. intros H. apply (visit_at_embed g t2 a t1 []) in H. by rewrite app_nil_r in H. Qed.

Lemma rel_visit_at g :
  (∀ cm v t w cm', visit_rel g cm v t w cm' →
     ∀ a, a ∈ discovered t → visit_at g t a) ∧
  (∀ cm es t w cm', edges_rel g cm es t w cm' →
     ∀ a, a ∈ discovered t → visit_at g t a).
Proof.
  apply visit_edges_rel_ind.
  - intros cm v es body wb cm1 Hw Hes He IH Hg a. simpl_log.
    intros [->|Ha]%elem_of_cons.
    + exists [], (EvDiscoverVertex v :: body ++ [EvFinishVertex v]), [].
      eexists cm, _, _. split; [by rewrite app_nil_r|].
      by eapply visit_intro.
    + apply visit_at_cons, visit_at_app_l. by apply IH.
  - intros cm a Ha. by apply not_elem_of_nil in Ha.
  - intros cm e rest t1 w1 cm1 t2 w2 cm2 _ _ IH1 _ IH2 a. simpl_log.
    intros [Ha|Ha]%elem_of_app; apply visit_at_cons.
    + by apply visit_at_app_l, IH1.
    + by apply visit_at_app_r, visit_at_cons, visit_at_cons, IH2.
  - intros cm e rest t2 w2 cm2 _ _ IH a Ha. simpl_log.
    by do 3 apply visit_at_cons; apply IH.
  - intros cm e rest t2 w2 cm2 _ _ IH a Ha. simpl_log.
    by do 3 apply visit_at_cons; apply IH.
Qed.

Lemma sweep_visit_at g cm vs t w cm' :
  sweep_rel g cm vs t w cm' → ∀ a, a ∈ discovered t → visit_at g t a.
Proof.
  induction 1 as [| |cm v rest t1 w1 cm1 t2 w2 cm2 Hw Hv _ IH]; intros a; simpl_log.
  - by intros ?%not_elem_of_nil.
  - auto.
  - intros [Ha|Ha]%elem_of_app; apply visit_at_cons.
    + by eapply visit_at_app_l, (proj1 (rel_visit_at g)).
    + by apply visit_at_app_r, IH.
Qed.

Lemma dfs_visit_at g start t w cm' :
  dfs_rel g start t w cm' → ∀ a, a ∈ discovered t → visit_at g t a.
Proof.
  intros [t1 w1 cm1 t2 w2 cm2 n Hrange Hstart Hsweep] a. simpl_log.
  intros [Ha|Ha]%elem_of_app; apply visit_at_app_r.
  - apply visit_at_app_l. destruct Hstart; simpl in Ha.
    + by apply not_elem_of_nil in Ha.
    + by eapply visit_at_cons, (proj1 (rel_visit_at g)).
  - by eapply visit_at_app_r, sweep_visit_at.
Qed.

(** ** What a visit discovers is reachable from its root *)

Lemma edge_intro g v es e :
  GetOutgoingEdges g v = Ok es → e ∈ es → edge g v (destination e).
Proof. intros. by exists es, e. Qed.

Lemma rel_reach g :
  (∀ cm v t w cm', visit_rel g cm v t w cm' →
     ∀ u, u ∈ discovered t → rtc (edge g) v u) ∧
  (∀ cm es t w cm', edges_rel g cm es t w cm' →
     ∀ u, u ∈ discovered t → ∃ e, e ∈ es ∧ rtc (edge g) (destination e) u).
Proof.
  apply visit_edges_rel_ind.
  - intros cm v es body wb cm1 Hw Hes _ IH Hg u. simpl_log.
    intros [->|Hu]%elem_of_cons; [done|].
    destruct (IH u Hu) as (e & He & Hr).
    eapply rtc_l; [by eapply edge_intro|done].
  - intros cm u Hu. by apply not_elem_of_nil in Hu.
  - intros cm e rest t1 w1 cm1 t2 w2 cm2 _ _ IH1 _ IH2 u. simpl_log.
    intros [Hu|Hu]%elem_of_app.
    + exists e. split; [left|]. by apply IH1.
    + destruct (IH2 u Hu) as (e' & He' & Hr). exists e'. split; [by right|done].
  - intros cm e rest t2 w2 cm2 _ _ IH u Hu.
    destruct (IH u Hu) as (e' & He' & Hr). exists e'. split; [by right|done].
  - intros cm e rest t2 w2 cm2 _ _ IH u Hu.
    destruct (IH u Hu) as (e' & He' & Hr). exists e'. split; [by right|done].
Qed.

(** Each discovered vertex is the root of the visit or was entered through
    an edge from a vertex discovered in the same visit. *)
Lemma rel_entered g :
  (∀ cm v t w cm', visit_rel g cm v t w cm' →
     ∀ u, u ∈ discovered t → u = v ∨ ∃ x, x ∈ discovered t ∧ edge g x u) ∧
  (∀ cm es t w cm', edges_rel g cm es t w cm' →
     ∀ u, u ∈ discovered t →
       (∃ e, e ∈ es ∧ destination e = u) ∨ ∃ x, x ∈ discovered t ∧ edge g x u).
Proof.
  apply visit_edges_rel_ind.
  - intros cm v es body wb cm1 Hw Hes _ IH Hg u. simpl_log.
    intros [->|Hu]%elem_of_cons; [by left|]. right.
    destruct (IH u Hu) as [(e & He & <-)|(x & Hx & Hxu)].
    + exists v. split; [left|by eapply edge_intro].
    + exists x. split; [by right|done].
  - intros cm u Hu. by apply not_elem_of_nil in Hu.
  - intros cm e rest t1 w1 cm1 t2 w2 cm2 _ _ IH1 _ IH2 u. simpl_log.
    intros [Hu|Hu]%elem_of_app.
    + destruct (IH1 u Hu) as [->|(x & Hx & Hxu)].
      * left. exists e. split; [left|done].
      * right. exists x. split; [|done]. apply elem_of_app. by left.
    + destruct (IH2 u Hu) as [(e' & He' & <-)|(x & Hx & Hxu)].
      * left. exists e'. split; [by right|done].
      * right. exists x. split; [|done]. apply elem_of_app. by right.
  - intros cm e rest t2 w2 cm2 _ _ IH u Hu.
    destruct (IH u Hu) as [(e' & He' & <-)|(x & Hx & Hxu)]; [left|right]; eauto.
    exists e'. split; [by right|done].
  - intros cm e rest t2 w2 cm2 _ _ IH u Hu.
    destruct (IH u Hu) as [(e' & He' & <-)|(x & Hx & Hxu)]; [left|right]; eauto.
    exists e'. split; [by right|done].
Qed.

(** ** After a visit no edge leaves the discovered vertices for a white one *)

Lemma edge_elim g v es x :
  GetOutgoingEdges g v = Ok es → edge g v x → ∃ e, e ∈ es ∧ destination e = x.
Proof. intros Hes (es' & e & Hes' & He & Hd). exists e. split; congruence. Qed.

Lemma rel_closed g :
  (∀ cm v t w cm', visit_rel g cm v t w cm' →
     ∀ u x, u ∈ discovered t → edge g u x → nonwhite cm' x) ∧
  (∀ cm es t w cm', edges_rel g cm es t w cm' →
     (∀ e, e ∈ es → nonwhite cm' (destination e)) ∧
     (∀ u x, u ∈ discovered t → edge g u x → nonwhite cm' x)).
Proof.
  apply visit_edges_rel_ind.
  - intros cm v es body wb cm1 Hw Hes _ [IHe IHd] Hg u x Hu Hux.
    pose proof (vec_get_range _ _ _ Hw).
    apply nonwhite_paint; [lia|done|].
    revert Hu. simpl_log. intros [->|Hu]%elem_of_cons; [|by eapply IHd].
    destruct (edge_elim _ _ _ _ Hes Hux) as (e & He & <-). by apply IHe.
  - intros cm. split; [by intros e ?%not_elem_of_nil|by intros u x ?%not_elem_of_nil].
  - intros cm e rest t1 w1 cm1 t2 w2 cm2 _ Hv IH1 He [IH2 IH3].
    pose proof (edges_colours _ _ _ _ _ _ He) as Hcol. split.
    + intros e' [->|He']%elem_of_cons; [|by apply IH2].
      eapply nonwhite_frame; [done|]. exists kBlack. split; [|done].
      apply (visit_colours _ _ _ _ _ _ Hv). by eapply visit_discovers_self.
    + intros u x. simpl_log. intros [Hu|Hu]%elem_of_app Hux.
      * eapply nonwhite_frame; [done|]. by eapply IH1.
      * by eapply IH3.
  - intros cm e rest t2 w2 cm2 Hc He [IH2 IH3].
    pose proof (edges_colours _ _ _ _ _ _ He) as Hcol. split; [|done].
    intros e' [->|He']%elem_of_cons; [|by apply IH2].
    eapply nonwhite_frame; [done|]. by exists kGray.
  - intros cm e rest t2 w2 cm2 Hc He [IH2 IH3].
    pose proof (edges_colours _ _ _ _ _ _ He) as Hcol. split; [|done].
    intros e' [->|He']%elem_of_cons; [|by apply IH2].
    eapply nonwhite_frame; [done|]. by exists kBlack.
Qed.
Lemma sweep_examined g cm vs t w cm' :
  sweep_rel g cm vs t w cm' → examined t ≡ₚ discovered t ≫= out_edges g.
Proof.
  induction 1 as [| |cm v rest t1 w1 cm1 t2 w2 cm2 Hw Hv _ IH]; simpl_log; try done.
  by rewrite bind_app, IH, (proj1 (rel_examined g) _ _ _ _ _ Hv).
Qed.

Lemma sweep_closed g cm vs t w cm' :
  sweep_rel g cm vs t w cm' → ∀ v, v ∈ vs → nonwhite cm' v.
Proof.
  induction 1 as [|cm v rest c t w cm' Hc Hne Hs IH
                 |cm v rest t1 w1 cm1 t2 w2 cm2 Hw Hv Hs IH]; intros u.
  - by intros ?%not_elem_of_nil.
  - intros [->|Hu]%elem_of_cons; [|by apply IH].
    eapply nonwhite_frame; [by eapply sweep_colours|]. by exists c.
  - intros [->|Hu]%elem_of_cons; [|by apply IH].
    eapply nonwhite_frame; [by eapply sweep_colours|]. exists kBlack.
    split; [|done]. apply (visit_colours _ _ _ _ _ _ Hv).
    by eapply visit_discovers_self.
Qed.

Lemma rel_started g :
  (∀ cm v t w cm', visit_rel g cm v t w cm' → started t = []) ∧
  (∀ cm es t w cm', edges_rel g cm es t w cm' → started t = []).
Proof.
  apply visit_edges_rel_ind; intros; simpl_log;
    repeat match goal with H : started _ = [] |- _ => rewrite H end; done.
Qed.

Lemma visit_started g cm v t w cm' : visit_rel g cm v t w cm' → started t = [].
Proof. apply rel_started. Qed.

Lemma sweep_started g cm vs t w cm' :
  sweep_rel g cm vs t w cm' → started t `sublist_of` vs.
Proof.
  induction 1 as [| |cm v rest t1 w1 cm1 t2 w2 cm2 Hw Hv _ IH]; simpl_log.
  - done.
  - by apply sublist_cons.
  - rewrite (visit_started _ _ _ _ _ _ Hv). simpl. by apply sublist_skip.
Qed.

(** ** The whole traversal *)

Lemma white_replicate n v :
  0 ≤ v < Z.of_nat n → vec_get (replicate n kWhite) v = Ok kWhite.
Proof.
  intros Hv. apply vec_get_Ok. split; [lia|]. apply lookup_replicate_2. lia.
Qed.

Lemma dfs_colours g start t w cm' :
  dfs_rel g start t w cm' →
  colours_spec (replicate (vertex_count g) kWhite) t cm'.
Proof.
  intros [t1 w1 cm1 t2 w2 cm2 n Hrange Hstart Hsweep].
  assert (colours_spec (replicate n kWhite) (t1 ++ t2) cm2) as H.
  { eapply colours_spec_app; [by eapply start_colours|by eapply sweep_colours]. }
  revert H. unfold colours_spec. by simpl_log.
Qed.

Lemma vertices_NoDup g : graph_wf g → NoDup (GetVertices g).
Proof.
  intros (Hvs & _). unfold GetVertices. rewrite Hvs.
  apply NoDup_fmap_2; [apply _|apply NoDup_seq].
Qed.

(** Every vertex is discovered exactly once. *)
Lemma dfs_discovered g start t w cm' :
  graph_wf g → dfs_rel g start t w cm' →
  NoDup (discovered t) ∧ discovered t ≡ₚ GetVertices g.
Proof.
  intros Hwf Hdfs. pose proof (dfs_colours _ _ _ _ _ Hdfs) as Hcol.
  destruct Hcol as (Hnd & Hp & Hin & Hout). split; [done|].
  apply NoDup_Permutation; [done|by apply vertices_NoDup|]. intros v. split.
  - intros [Hw _]%Hin. apply vec_get_range in Hw.
    rewrite length_replicate in Hw. by apply wf_vertices.
  - intros Hv. destruct Hdfs as [t1 w1 cm1 t2 w2 cm2 n Hrange Hstart Hsweep].
    destruct (sweep_closed _ _ _ _ _ _ Hsweep v Hv) as (c & Hc & Hne).
    destruct (decide (v ∈ discovered
      ((EvInitializeVertex <$> GetVertices g) ++ t1 ++ t2))) as [|Hnot]; [done|].
    rewrite (Hout v Hnot) in Hc. apply wf_vertices in Hv; [|done].
    rewrite white_replicate in Hc by done. congruence.
Qed.

Lemma dfs_finished g start t w cm' :
  graph_wf g → dfs_rel g start t w cm' →
  NoDup (finished t) ∧ finished t ≡ₚ GetVertices g.
Proof.
  intros Hwf Hdfs. destruct (dfs_discovered _ _ _ _ _ Hwf Hdfs) as [Hnd Hp].
  destruct (dfs_colours _ _ _ _ _ Hdfs) as (_ & Hfin & _).
  split; [by rewrite Hfin|by rewrite Hfin].
Qed.

Lemma bind_out_edges_seq (pre l : list (list Edge)) :
  (Z.of_nat <$> seq (length pre) (length l))
    ≫= (λ u, match vec_get (pre ++ l) u with Ok es => es | _ => [] end)
  = concat l.
Proof.
  revert pre. induction l as [|es l IH]; intros pre; simpl; [done|].
  specialize (IH (pre ++ [es])).
  rewrite length_app in IH. rewrite Nat.add_1_r in IH. 
  replace ((pre ++ [es]) ++ l) with (pre ++ es :: l) in IH by (by rewrite <- app_assoc).
  rewrite <- IH. f_equal.
  assert (vec_get (pre ++ es :: l) (Z.of_nat (length pre)) = Ok es) as ->; [|done].
  apply vec_get_Ok. split; [lia|]. rewrite Nat2Z.id.
  by apply list_lookup_middle.
Qed.

Lemma vertices_out_edges g :
  graph_wf g → GetVertices g ≫= out_edges g = all_edges g.
Proof.
  intros (Hvs & Hlen & _). unfold GetVertices, all_edges. rewrite Hvs, <- Hlen.
  apply (bind_out_edges_seq [] (outgoing_edges_ g)).
Qed.

(** Every edge is examined exactly once. *)
Lemma dfs_examined g start t w cm' :
  graph_wf g → dfs_rel g start t w cm' → examined t ≡ₚ all_edges g.
Proof.
  intros Hwf Hdfs. destruct (dfs_discovered _ _ _ _ _ Hwf Hdfs) as [_ Hp].
  rewrite <- vertices_out_edges, <- Hp by done.
  destruct Hdfs as [t1 w1 cm1 t2 w2 cm2 n Hrange Hstart Hsweep]. simpl_log.
  rewrite bind_app, (sweep_examined _ _ _ _ _ _ Hsweep).
  apply Permutation_app_tail. destruct Hstart; simpl; [done|].
  by eapply (proj1 (rel_examined g)).
Qed.

(** The designated start vertex is the first one discovered. *)
Lemma dfs_start_first g start t w cm' :
  dfs_rel g start t w cm' → start ≠ -1 → head (discovered t) = Some start.
Proof.
  intros [t1 w1 cm1 t2 w2 cm2 n Hrange Hstart Hsweep] Hne. simpl_log.
  destruct Hstart as [|cm st t0 w0 cm0 _ Hv]; [done|].
  apply visit_inv in Hv as (?&?&?&?&->&_). done.
Qed.

(** The roots of the traversal: the start vertex, then vertices in sweep order. *)
Lemma dfs_started g start t w cm' :
  dfs_rel g start t w cm' →
  ∃ roots, roots `sublist_of` GetVertices g ∧
    started t = (if decide (start = -1) then [] else [start]) ++ roots.
Proof.
  intros [t1 w1 cm1 t2 w2 cm2 n Hrange Hstart Hsweep].
  exists (started t2). split; [by eapply sweep_started|]. simpl_log.
  destruct Hstart as [|cm st t0 w0 cm0 Hne Hv]; simpl; [done|].
  rewrite decide_False by done. by rewrite (visit_started _ _ _ _ _ _ Hv).
Qed.

(** ** The two colormaps implement the array semantics *)

Lemma dfs_run {VS} `{!IDFSVisitor VS} g start t w cm' (s : VS) :
  dfs_rel g start t w cm' →
  DepthFirstSearch (CM := Colormap) g s start = s' ← replay t s; Ok (cm', s').
Proof.
  apply (dfs_adequate (CM := Colormap) (λ cm _, cm)); try done.
  intros cm _ v c old H. simpl. by erewrite vec_set_Ok.
Qed.

Lemma dfs_fuel_run {VS} `{!IDFSVisitor VS} g start t w cm' fuel (s : VS) :
  dfs_rel g start t w cm' → (length (GetVertices g) ≤ fuel)%nat →
  DepthFirstSearch_fuel (CM := Colormap) fuel g s start
  = s' ← replay t s; Ok (cm', s').
Proof.
  apply (dfs_fuel_adequate (CM := Colormap) (λ cm _, cm)); try done.
  intros cm _ v c old H. simpl. by erewrite vec_set_Ok.
Qed.

Lemma dfs_run_recording {VS} `{!IDFSVisitor VS} g start t w cm' (s : VS) :
  dfs_rel g start t w cm' →
  DepthFirstSearch (CM := RecordingColormap) g s start
  = s' ← replay t s; Ok (mkRecording cm' w, s').
Proof.
  apply (dfs_adequate (CM := RecordingColormap) mkRecording); try done.
  intros cm w0 v c old H. simpl. rewrite H. simpl. by erewrite vec_set_Ok.
Qed.

Lemma visit_run {VS} `{!IDFSVisitor VS} g cm v t w cm' fuel (s : VS) :
  visit_rel g cm v t w cm' → (white_count cm ≤ fuel)%nat →
  DepthFirstSearchVisit (CM := Colormap) fuel g cm s v
  = s' ← replay t s; Ok (cm', s').
Proof.
  intros H. apply (proj1 (rel_adequate (CM := Colormap) (λ cm _, cm)
    ltac:(done) ltac:(intros; simpl; by erewrite vec_set_Ok) g)
    _ _ _ _ _ H fuel []).
Qed.
(** ** The timestamp visitor *)

Lemma int_wrap_id z : - 2 ^ 31 ≤ z ≤ INT_MAX → int_wrap z = z.
Proof.
  unfold int_wrap, INT_MAX. intros H.
  rewrite Z.mod_small; lia.
Qed.

Lemma vec_get_default (l : list Z) u :
  0 ≤ u < Z.of_nat (length l) → vec_get l u = Ok (default 0 (l !! Z.to_nat u)).
Proof.
  intros Hu. destruct (vec_get_in_range l u Hu) as [x Hx]. rewrite Hx.
  apply vec_get_Ok in Hx as [_ ->]. done.
Qed.

Lemma default_insert_eq (l : list Z) v x :
  0 ≤ v < Z.of_nat (length l) → default 0 (<[Z.to_nat v := x]> l !! Z.to_nat v) = x.
Proof. intros. rewrite list_lookup_insert_eq by lia. done. Qed.

Lemma default_insert_ne (l : list Z) v u x :
  0 ≤ v → 0 ≤ u → u ≠ v →
  default 0 (<[Z.to_nat v := x]> l !! Z.to_nat u) = default 0 (l !! Z.to_nat u).
Proof. intros. rewrite list_lookup_insert_ne by lia. done. Qed.

(** One callback of the timestamp visitor. *)
Lemma notify_time n ev (s : TimeDFSVisitor) :
  time_sized n s →
  (∀ v, v ∈ discovered [ev] ∨ v ∈ finished [ev] → 0 ≤ v < Z.of_nat n) →
  0 ≤ timer s → timer s + ticks [ev] ≤ INT_MAX →
  ∃ s', notify ev s = Ok s' ∧ time_sized n s' ∧
    timer s' = timer s + ticks [ev] ∧
    (∀ u, 0 ≤ u → tin s' u = if decide (u ∈ discovered [ev]) then timer s else tin s u) ∧
    (∀ u, 0 ≤ u → tout s' u = if decide (u ∈ finished [ev]) then timer s else tout s u).
Proof.
  intros [Hin Hout] Hrange Hlo Hhi.
  destruct ev; simpl in *;
    try (exists s; unfold ticks; simpl; split_and!; [done|done|lia|done|done]).
  - assert (0 ≤ v < Z.of_nat n) as Hv by (apply Hrange; left; left).
    unfold Time_DiscoverVertex, vec_set. rewrite decide_True by lia. simpl.
    eexists. split; [done|]. unfold time_sized, tin, tout, ticks in *. simpl in *.
    rewrite length_insert. split_and!; try done.
    + apply int_wrap_id. unfold INT_MAX in *. lia.
    + intros u Hu. case_decide as Hd.
      * apply list_elem_of_singleton in Hd as ->. apply default_insert_eq. lia.
      * rewrite list_elem_of_singleton in Hd. by apply default_insert_ne; try lia.
  - assert (0 ≤ v < Z.of_nat n) as Hv by (apply Hrange; right; left).
    unfold Time_FinishVertex, vec_set. rewrite decide_True by lia. simpl.
    eexists. split; [done|]. unfold time_sized, tin, tout, ticks in *. simpl in *.
    rewrite length_insert. split_and!; try done.
    + apply int_wrap_id. unfold INT_MAX in *. lia.
    + intros u Hu. case_decide as Hd.
      * apply list_elem_of_singleton in Hd as ->. apply default_insert_eq. lia.
      * rewrite list_elem_of_singleton in Hd. by apply default_insert_ne; try lia.
Qed.

(** A whole log: the timer advances by [ticks], vertices the log does not
    discover (finish) keep their [time_in] ([time_out]). *)
Lemma replay_time n t (s : TimeDFSVisitor) :
  time_sized n s →
  (∀ v, v ∈ discovered t ∨ v ∈ finished t → 0 ≤ v < Z.of_nat n) →
  0 ≤ timer s → timer s + ticks t ≤ INT_MAX →
  ∃ s', replay t s = Ok s' ∧ time_sized n s' ∧
    timer s' = timer s + ticks t ∧
    (∀ u, 0 ≤ u → u ∉ discovered t → tin s' u = tin s u) ∧
    (∀ u, 0 ≤ u → u ∉ finished t → tout s' u = tout s u).
Proof.
  revert s. induction t as [|ev t IH]; intros s Hs Hrange Hlo Hhi.
  - exists s. unfold ticks. simpl. split_and!; try done. lia.
  - change (ev :: t) with ([ev] ++ t) in *. revert Hrange Hhi. simpl_log.
    intros Hrange Hhi. pose proof (ticks_nonneg t). pose proof (ticks_nonneg [ev]).
    destruct (notify_time n ev s) as (s1 & Hrun1 & Hs1 & Ht1 & Hin1 & Hout1);
      try done; try lia.
    { intros v Hv. apply Hrange. rewrite !elem_of_app. tauto. }
    destruct (IH s1) as (s' & Hrun & Hs' & Ht & Hin & Hout); try done; try lia.
    { intros v Hv. apply Hrange. rewrite !elem_of_app. tauto. }
    exists s'. rewrite Hrun1. simpl. split_and!; try done; try lia.
    + intros u Hu [H1 H2]%not_elem_of_app.
      rewrite Hin, Hin1 by done. by rewrite decide_False.
    + intros u Hu [H1 H2]%not_elem_of_app.
      rewrite Hout, Hout1 by done. by rewrite decide_False.
Qed.
(** Where a callback sits in the log decides the timestamp it writes. *)
Lemma replay_time_in n t (s s' : TimeDFSVisitor) pre u post :
  time_sized n s →
  (∀ v, v ∈ discovered t ∨ v ∈ finished t → 0 ≤ v < Z.of_nat n) →
  0 ≤ timer s → timer s + ticks t ≤ INT_MAX →
  replay t s = Ok s' →
  t = pre ++ EvDiscoverVertex u :: post → u ∉ discovered post →
  tin s' u = timer s + ticks pre.
Proof.
  intros Hs Hrange Hlo Hhi Hrun -> Hu.
  change (EvDiscoverVertex u :: post) with ([EvDiscoverVertex u] ++ post) in *.
  revert Hhi Hrun. rewrite !ticks_app, !replay_app. intros Hhi Hrun.
  pose proof (ticks_nonneg pre). pose proof (ticks_nonneg post).
  assert (ticks [EvDiscoverVertex u] = 1) as Hone by done.
  assert (∀ v, v ∈ discovered pre ∨ v ∈ finished pre → 0 ≤ v < Z.of_nat n) as Hr1.
  { intros v Hv. apply Hrange. rewrite discovered_app, finished_app, !elem_of_app. tauto. }
  assert (∀ v, v ∈ discovered [EvDiscoverVertex u] ∨ v ∈ finished [EvDiscoverVertex u] →
               0 ≤ v < Z.of_nat n) as Hr2.
  { intros v Hv. apply Hrange.
    rewrite !discovered_app, !finished_app, !elem_of_app. tauto. }
  assert (∀ v, v ∈ discovered post ∨ v ∈ finished post → 0 ≤ v < Z.of_nat n) as Hr3.
  { intros v Hv. apply Hrange.
    rewrite !discovered_app, !finished_app, !elem_of_app. tauto. }
  assert (0 ≤ u) by (apply Hr2; left; simpl; left).
  destruct (replay_time n pre s Hs Hr1) as (s1 & Hrun1 & Hs1 & Ht1 & _); [lia..|].
  rewrite Hrun1 in Hrun. simpl in Hrun.
  destruct (notify_time n (EvDiscoverVertex u) s1 Hs1 Hr2) as (s2 & Hrun2 & Hs2 & Ht2 & Hst & _); [lia..|].
  simpl in Hrun2. rewrite Hrun2 in Hrun. simpl in Hrun.
  destruct (replay_time n post s2 Hs2 Hr3) as (s3 & Hrun3 & _ & _ & Hkeep & _); [lia..|].
  rewrite Hrun3 in Hrun. simplify_eq.
  rewrite Hkeep, Hst by done. rewrite decide_True; [lia|]. simpl. left.
Qed.

Lemma replay_time_out n t (s s' : TimeDFSVisitor) pre u post :
  time_sized n s →
  (∀ v, v ∈ discovered t ∨ v ∈ finished t → 0 ≤ v < Z.of_nat n) →
  0 ≤ timer s → timer s + ticks t ≤ INT_MAX →
  replay t s = Ok s' →
  t = pre ++ EvFinishVertex u :: post → u ∉ finished post →
  tout s' u = timer s + ticks pre.
Proof.
  intros Hs Hrange Hlo Hhi Hrun -> Hu.
  change (EvFinishVertex u :: post) with ([EvFinishVertex u] ++ post) in *.
  revert Hhi Hrun. rewrite !ticks_app, !replay_app. intros Hhi Hrun.
  pose proof (ticks_nonneg pre). pose proof (ticks_nonneg post).
  assert (ticks [EvFinishVertex u] = 1) as Hone by done.
  assert (∀ v, v ∈ discovered pre ∨ v ∈ finished pre → 0 ≤ v < Z.of_nat n) as Hr1.
  { intros v Hv. apply Hrange. rewrite discovered_app, finished_app, !elem_of_app. tauto. }
  assert (∀ v, v ∈ discovered [EvFinishVertex u] ∨ v ∈ finished [EvFinishVertex u] →
               0 ≤ v < Z.of_nat n) as Hr2.
  { intros v Hv. apply Hrange.
    rewrite !discovered_app, !finished_app, !elem_of_app. tauto. }
  assert (∀ v, v ∈ discovered post ∨ v ∈ finished post → 0 ≤ v < Z.of_nat n) as Hr3.
  { intros v Hv. apply Hrange.
    rewrite !discovered_app, !finished_app, !elem_of_app. tauto. }
  assert (0 ≤ u) by (apply Hr2; right; simpl; left).
  destruct (replay_time n pre s Hs Hr1) as (s1 & Hrun1 & Hs1 & Ht1 & _); [lia..|].
  rewrite Hrun1 in Hrun. simpl in Hrun.
  destruct (notify_time n (EvFinishVertex u) s1 Hs1 Hr2) as (s2 & Hrun2 & Hs2 & Ht2 & _ & Hst); [lia..|].
  simpl in Hrun2. rewrite Hrun2 in Hrun. simpl in Hrun.
  destruct (replay_time n post s2 Hs2 Hr3) as (s3 & Hrun3 & _ & _ & _ & Hkeep); [lia..|].
  rewrite Hrun3 in Hrun. simplify_eq.
  rewrite Hkeep, Hst by done. rewrite decide_True; [lia|]. simpl. left.
Qed.

(** A vertex discovered (finished) in a segment of the log is stamped with a
    tick of that segment. *)
Section Segments.
Context (n : nat) (t : list Event) (s s' : TimeDFSVisitor).
Hypothesis Hs : time_sized n s.
Hypothesis Hrange : ∀ v, v ∈ discovered t ∨ v ∈ finished t → 0 ≤ v < Z.of_nat n.
Hypothesis Hlo : 0 ≤ timer s.
Hypothesis Hhi : timer s + ticks t ≤ INT_MAX.
Hypothesis Hrun : replay t s = Ok s'.
Hypothesis Hnd_in : NoDup (discovered t).
Hypothesis Hnd_out : NoDup (finished t).

Lemma segment_in l1 l2 l3 u :
  t = l1 ++ l2 ++ l3 → u ∈ discovered l2 →
  timer s + ticks l1 ≤ tin s' u < timer s + ticks l1 + ticks l2.
Proof using All.
  intros Ht [m1 [m2 Hm]]%elem_of_discovered%list_elem_of_split. subst l2.
  assert (t = (l1 ++ m1) ++ EvDiscoverVertex u :: (m2 ++ l3)) as Ht'.
  { rewrite Ht. by rewrite <- !(assoc (++)). }
  rewrite (replay_time_in n t s s' _ u _ Hs Hrange Hlo Hhi Hrun Ht').
  - change (EvDiscoverVertex u :: m2) with ([EvDiscoverVertex u] ++ m2).
    simpl_log. pose proof (ticks_nonneg m1). pose proof (ticks_nonneg m2).
    assert (ticks [EvDiscoverVertex u] = 1) as -> by done. lia.
  - revert Hnd_in. rewrite Ht'. simpl_log.
    rewrite NoDup_app. intros (_ & _ & Hnd). by apply NoDup_cons in Hnd as [? _].
Qed.

Lemma segment_out l1 l2 l3 u :
  t = l1 ++ l2 ++ l3 → u ∈ finished l2 →
  timer s + ticks l1 ≤ tout s' u < timer s + ticks l1 + ticks l2.
Proof using All.
  intros Ht [m1 [m2 Hm]]%elem_of_finished%list_elem_of_split. subst l2.
  assert (t = (l1 ++ m1) ++ EvFinishVertex u :: (m2 ++ l3)) as Ht'.
  { rewrite Ht. by rewrite <- !(assoc (++)). }
  rewrite (replay_time_out n t s s' _ u _ Hs Hrange Hlo Hhi Hrun Ht').
  - change (EvFinishVertex u :: m2) with ([EvFinishVertex u] ++ m2).
    simpl_log. pose proof (ticks_nonneg m1). pose proof (ticks_nonneg m2).
    assert (ticks [EvFinishVertex u] = 1) as -> by done. lia.
  - revert Hnd_out. rewrite Ht'. simpl_log.
    rewrite NoDup_app. intros (_ & _ & Hnd). by apply NoDup_cons in Hnd as [? _].
Qed.
End Segments.
Lemma edges_outcome g cm es t w cm' :
  edges_rel g cm es t w cm' →
  ∀ e, e ∈ es → destination e ∈ discovered t ∨ e ∈ non_tree t.
Proof.
  induction 1 as [|cm e rest t1 w1 cm1 t2 w2 cm2 Hw Hv He IH
                 |cm e rest t2 w2 cm2 Hc He IH|cm e rest t2 w2 cm2 Hc He IH];
    intros e'; simpl_log.
  - by intros ?%not_elem_of_nil.
  - intros [->|H]%elem_of_cons.
    + left. apply elem_of_app. left. by eapply visit_discovers_self.
    + destruct (IH e' H); [left|right]; apply elem_of_app; by right.
  - intros [->|H]%elem_of_cons; [right; left|].
    destruct (IH e' H); [by left|right; by right].
  - intros [->|H]%elem_of_cons; [right; left|].
    destruct (IH e' H); [by left|right; by right].
Qed.

Lemma visit_ticks g cm v t w cm' : visit_rel g cm v t w cm' → 2 ≤ ticks t.
Proof.
  intros (es & body & ? & ? & -> & _)%visit_inv.
  change (EvDiscoverVertex v :: body ++ [EvFinishVertex v])
    with ([EvDiscoverVertex v] ++ body ++ [EvFinishVertex v]).
  rewrite !ticks_app. pose proof (ticks_nonneg body).
  assert (ticks [EvDiscoverVertex v] = 1) as -> by done.
  assert (ticks [EvFinishVertex v] = 1) as -> by done. lia.
Qed.

(** ** The timestamps of a whole traversal *)

Section Timestamps.
Context (g : Graph) (start : Vertex) (t : list Event) (w : list ColorWrite)
        (cm' : list Color) (s0 tv : TimeDFSVisitor).
Hypothesis Hwf : graph_wf g.
Hypothesis Hdfs : dfs_rel g start t w cm'.
Hypothesis Hint : 2 * Z.of_nat (vertex_count g) ≤ INT_MAX.
Hypothesis Hs0 : time_sized (vertex_count g) s0.
Hypothesis Ht0 : timer s0 = 0.
Hypothesis Hrun : replay t s0 = Ok tv.

Local Abbreviation n := (vertex_count g).

Lemma stamps_range v : v ∈ discovered t ∨ v ∈ finished t → 0 ≤ v < Z.of_nat n.
Proof using Hwf Hdfs.
  destruct (dfs_discovered _ _ _ _ _ Hwf Hdfs) as [_ Hd].
  destruct (dfs_finished _ _ _ _ _ Hwf Hdfs) as [_ Hf].
  rewrite Hd, Hf. intros [H|H]; by apply wf_vertices in H.
Qed.

Lemma stamps_ticks : ticks t = 2 * Z.of_nat n.
Proof using Hwf Hdfs.
  destruct (dfs_discovered _ _ _ _ _ Hwf Hdfs) as [_ Hd].
  destruct (dfs_finished _ _ _ _ _ Hwf Hdfs) as [_ Hf].
  unfold ticks. rewrite Hd, Hf. unfold vertex_count, GetVertices. lia.
Qed.

(** The visit of [a] occupies the ticks [tin a .. tout a]; a vertex is
    stamped inside that interval iff it is discovered by that visit. *)
Lemma stamps_interval a :
  in_graph g a →
  ∃ pre ta post,
    t = pre ++ ta ++ post ∧
    (∃ cm wa cma, visit_rel g cm a ta wa cma) ∧
    tin tv a = ticks pre ∧ tout tv a = ticks pre + ticks ta - 1 ∧
    0 ≤ ticks pre ∧ 2 ≤ ticks ta ∧ ticks pre + ticks ta ≤ 2 * Z.of_nat n ∧
    (∀ u, u ∈ discovered ta → u ≠ a →
       tin tv a < tin tv u ∧ tin tv u < tout tv u ∧ tout tv u < tout tv a) ∧
    (∀ u, in_graph g u → u ∉ discovered ta →
       tin tv u < tin tv a ∨ tout tv a < tin tv u).
Proof using All.
  intros Ha.
  destruct (dfs_discovered _ _ _ _ _ Hwf Hdfs) as [Hnd_in Hd].
  destruct (dfs_finished _ _ _ _ _ Hwf Hdfs) as [Hnd_out Hf].
  assert (a ∈ discovered t) as Hat by (rewrite Hd; by apply wf_vertices).
  destruct (dfs_visit_at _ _ _ _ _ Hdfs a Hat)
    as (pre & ta & post & cm & wa & cma & Ht & Hv).
  pose proof stamps_ticks as Hticks. pose proof Hs0 as Hsz.
  assert (0 ≤ timer s0) as Hlo by lia.
  assert (timer s0 + ticks t ≤ INT_MAX) as Hhi by lia.
  pose proof (segment_in n t _ tv Hsz stamps_range Hlo Hhi Hrun Hnd_in Hnd_out) as Sin.
  pose proof (segment_out n t _ tv Hsz stamps_range Hlo Hhi Hrun Hnd_in Hnd_out) as Sout.
  rewrite Ht0 in Sin, Sout.
  pose proof (visit_ticks _ _ _ _ _ _ Hv) as Hta.
  pose proof (ticks_nonneg pre). pose proof (ticks_nonneg post).
  assert (ticks t = ticks pre + ticks ta + ticks post) as Hsum
    by (rewrite Ht, !ticks_app; lia).
  destruct (visit_inv _ _ _ _ _ _ Hv)
    as (es & body & wb & cm1 & Hta_eq & _ & _ & Hw & Hes & Hbody).
  pose proof (edges_colours _ _ _ _ _ _ Hbody) as (_ & Hperm & _).
  assert (ticks ta = ticks body + 2) as Htb.
  { rewrite Hta_eq.
    change (EvDiscoverVertex a :: body ++ [EvFinishVertex a])
      with ([EvDiscoverVertex a] ++ body ++ [EvFinishVertex a]).
    rewrite !ticks_app.
    assert (ticks [EvDiscoverVertex a] = 1) as -> by done.
    assert (ticks [EvFinishVertex a] = 1) as -> by done. lia. }
  assert (tin tv a = ticks pre) as Hin_a.
  { specialize (Sin pre [EvDiscoverVertex a] (body ++ [EvFinishVertex a] ++ post) a).
    assert (ticks [EvDiscoverVertex a] = 1) as Hone by done.
    rewrite Hone in Sin. enough (ticks pre ≤ tin tv a < ticks pre + 1) by lia.
    apply Sin; [|simpl; left].
    rewrite Ht, Hta_eq. simpl. by rewrite <- !(assoc (++)). }
  assert (tout tv a = ticks pre + ticks ta - 1) as Hout_a.
  { specialize (Sout (pre ++ EvDiscoverVertex a :: body) [EvFinishVertex a] post a).
    assert (ticks [EvFinishVertex a] = 1) as Hone by done.
    rewrite Hone in Sout.
    assert (ticks (pre ++ EvDiscoverVertex a :: body) = ticks pre + 1 + ticks body)
      as Hpb.
    { change (EvDiscoverVertex a :: body) with ([EvDiscoverVertex a] ++ body).
      rewrite !ticks_app.
      assert (ticks [EvDiscoverVertex a] = 1) as -> by done. lia. }
    rewrite Hpb in Sout.
    enough (ticks pre + 1 + ticks body ≤ tout tv a < ticks pre + 1 + ticks body + 1)
      by lia.
    apply Sout; [|simpl; left].
    rewrite Ht, Hta_eq. simpl. by rewrite <- !(assoc (++)). }
  exists pre, ta, post. split_and!; try done; try lia; [by eauto|..].
  - intros u Hu Hne.
    assert (u ∈ discovered body) as Hub.
    { revert Hu. rewrite Hta_eq. simpl_log.
      rewrite elem_of_cons. intros [?|?]; done. }
    assert (u ∈ finished body) as Hfb by by rewrite Hperm.
    assert (t = (pre ++ [EvDiscoverVertex a]) ++ body ++ ([EvFinishVertex a] ++ post))
      as Ht'.
    { rewrite Ht, Hta_eq. simpl. by rewrite <- !(assoc (++)). }
    pose proof (Sin _ _ _ u Ht' Hub) as Hi.
    pose proof (Sout _ _ _ u Ht' Hfb) as Ho.
    rewrite ticks_app in Hi, Ho.
    assert (ticks [EvDiscoverVertex a] = 1) as Hone by done.
    rewrite Hone in Hi, Ho.
    assert (in_graph g u) as Hgu.
    { apply stamps_range. left. rewrite Ht, Hta_eq. simpl_log.
      repeat (rewrite elem_of_app || rewrite elem_of_cons). tauto. }
    split; [lia|]. split; [|lia].
    (* [u] has its own visit, which starts before it ends *)
    assert (u ∈ discovered t) as Hut by (rewrite Hd; by apply wf_vertices).
    destruct (dfs_visit_at _ _ _ _ _ Hdfs u Hut)
      as (pre' & tu & post' & cm0 & wu & cmu & Htu & Hvu).
    destruct (visit_inv _ _ _ _ _ _ Hvu)
      as (es' & body' & ? & ? & Htu_eq & _).
    assert (ticks pre' ≤ tin tv u < ticks pre' + 1) as Hiu.
    { apply (Sin pre' [EvDiscoverVertex u] (body' ++ [EvFinishVertex u] ++ post') u);
        [|simpl; left].
      rewrite Htu, Htu_eq. simpl. by rewrite <- !(assoc (++)). }
    assert (ticks (pre' ++ EvDiscoverVertex u :: body') ≤ tout tv u) as Hou.
    { apply (Sout (pre' ++ EvDiscoverVertex u :: body') [EvFinishVertex u] post' u);
        [|simpl; left].
      rewrite Htu, Htu_eq. simpl. by rewrite <- !(assoc (++)). }
    revert Hou. change (EvDiscoverVertex u :: body') with ([EvDiscoverVertex u] ++ body').
    rewrite !ticks_app. pose proof (ticks_nonneg body').
    assert (ticks [EvDiscoverVertex u] = 1) as -> by done. lia.
  - intros u Hgu Hu.
    assert (u ∈ discovered t) as Hut by (rewrite Hd; by apply wf_vertices).
    revert Hut. rewrite Ht. simpl_log. rewrite !elem_of_app.
    intros [Hp|[?|Hp]]; [|done|].
    + left. pose proof (Sin [] pre (ta ++ post) u Ht Hp) as Hi.
      assert (ticks [] = 0) as Hnil by done. rewrite Hnil in Hi. lia.
    + right. assert (t = (pre ++ ta) ++ post ++ []) as Ht'.
      { rewrite Ht. by rewrite app_nil_r, <- !(assoc (++)). }
      pose proof (Sin _ _ _ u Ht' Hp) as Hi. rewrite ticks_app in Hi. lia.
Qed.

Lemma stamps_bounds a :
  in_graph g a → 0 ≤ tin tv a < tout tv a ∧ tout tv a ≤ 2 * Z.of_nat n - 1.
Proof using All.
  intros Ha. destruct (stamps_interval a Ha)
    as (pre & ta & post & _ & _ & Hi & Ho & ? & ? & ? & _). lia.
Qed.

(** Two intervals are disjoint or strictly nested. *)
Lemma stamps_nesting u v :
  in_graph g u → in_graph g v → u ≠ v →
  (tout tv u < tin tv v ∨ tout tv v < tin tv u) ∨
  (tin tv v < tin tv u ∧ tout tv u < tout tv v) ∨
  (tin tv u < tin tv v ∧ tout tv v < tout tv u).
Proof using All.
  intros Hu Hv Hne.
  pose proof (stamps_bounds u Hu). pose proof (stamps_bounds v Hv).
  destruct (stamps_interval v Hv)
    as (pre & ta & post & _ & _ & _ & _ & _ & _ & _ & Hin & Hout).
  destruct (decide (u ∈ discovered ta)) as [Hd|Hd].
  { specialize (Hin u Hd Hne). lia. }
  destruct (Hout u Hu Hd) as [Hlt|Hlt]; [|lia].
  destruct (stamps_interval u Hu)
    as (pre' & tu & post' & _ & _ & _ & _ & _ & _ & _ & Hin' & Hout').
  destruct (decide (v ∈ discovered tu)) as [Hd'|Hd'].
  { specialize (Hin' v Hd' ltac:(done)). lia. }
  destruct (Hout' v Hv Hd'); lia.
Qed.

(** Containment of intervals implies reachability in the graph. *)
Lemma stamps_contains_reach a u :
  in_graph g a → in_graph g u → contains tv a u → rtc (edge g) a u.
Proof using All.
  intros Ha Hu [Hc1 Hc2].
  pose proof (stamps_bounds u Hu). pose proof (stamps_bounds a Ha).
  destruct (stamps_interval a Ha)
    as (pre & ta & post & _ & (cm & wa & cma & Hv) & _ & _ & _ & _ & _ & _ & Hout).
  destruct (decide (u ∈ discovered ta)) as [Hd|Hd].
  - by eapply (proj1 (rel_reach g)).
  - destruct (Hout u Hu Hd); lia.
Qed.

(** When every edge is a tree edge, an edge implies containment. *)
Lemma stamps_edge_contains a u :
  non_tree t = [] → edge g a u → contains tv a u.
Proof using All.
  intros Hnt Hau. destruct (edge_in_graph _ _ _ Hwf Hau) as [Ha Hu].
  destruct (stamps_interval a Ha)
    as (pre & ta & post & Ht & (cm & wa & cma & Hv) & _ & _ & _ & _ & _ & Hin & _).
  destruct (visit_inv _ _ _ _ _ _ Hv)
    as (es & body & wb & cm1 & Hta_eq & _ & _ & Hw & Hes & Hbody).
  destruct (edge_elim _ _ _ _ Hes Hau) as (e & He & <-).
  destruct (decide (destination e = a)) as [->|Hne]; [split; lia|].
  assert (destination e ∈ discovered ta) as Hd.
  { destruct (edges_outcome _ _ _ _ _ _ Hbody e He) as [Hd|Hd].
    - rewrite Hta_eq. simpl_log. rewrite elem_of_cons. by right.
    - exfalso. revert Hnt. rewrite Ht, Hta_eq. simpl_log.
      intros (_ & (Hb & _)%app_eq_nil)%app_eq_nil.
      rewrite Hb in Hd. by apply not_elem_of_nil in Hd. }
  specialize (Hin _ Hd Hne). split; lia.
Qed.

Lemma stamps_sized : time_sized n tv.
Proof using All.
  destruct (replay_time n t s0 Hs0 stamps_range) as (s' & Hrun' & Hs' & _);
    [lia|rewrite stamps_ticks; lia|]. congruence.
Qed.

Lemma stamps_vec_get a :
  in_graph g a →
  vec_get (time_in tv) a = Ok (tin tv a) ∧ vec_get (time_out tv) a = Ok (tout tv a).
Proof using All.
  intros Ha. destruct stamps_sized as [H1 H2]. unfold in_graph in Ha.
  split; apply vec_get_default; lia.
Qed.
End Timestamps.

Lemma timestamps_run g start (s0 : TimeDFSVisitor) :
  graph_wf g → start = -1 ∨ in_graph g start →
  2 * Z.of_nat (vertex_count g) ≤ INT_MAX →
  time_sized (vertex_count g) s0 → timer s0 = 0 →
  ∃ t w cm' tv,
    dfs_rel g start t w cm' ∧ replay t s0 = Ok tv ∧
    DepthFirstSearch (CM := Colormap) g s0 start = Ok (cm', tv).
Proof.
  intros Hwf Hstart Hint Hs0 Ht0.
  destruct (dfs_rel_total g start Hwf Hstart) as (t & w & cm' & Hdfs).
  destruct (replay_time (vertex_count g) t s0 Hs0) as (tv & Hrun & _).
  - by eapply stamps_range.
  - lia.
  - rewrite (stamps_ticks g start t w cm'); try done. lia.
  - exists t, w, cm', tv. split_and!; try done.
    rewrite (dfs_run g start t w cm' s0 Hdfs), Hrun. done.
Qed.
(** ** The graph [main] builds *)

Lemma built_new n : built n [] (Graph_new n) (-1).
Proof.
  unfold built, Graph_new. simpl. split_and!; [done|apply length_replicate| |].
  - intros u es [-> _]%lookup_replicate. split; [constructor|].
    intros e. split; [by intros ?%not_elem_of_nil|].
    by intros (_ & c & _ & ?).
  - left. split; [done|]. apply not_elem_of_nil.
Qed.

Lemma built_step n done p g start :
  built n done g start → 0 ≤ p ≤ Z.of_nat n → (length done < n)%nat →
  ∃ g' start',
    (if decide (p = 0) then Ok (g, Z.of_nat (length done))
     else g' ← AddEdge g (mkEdge (p - 1) (Z.of_nat (length done))); Ok (g', start))
    = Ok (g', start') ∧
    built n (done ++ [p]) g' start'.
Proof.
  intros (Hvs & Hlen & Hes & Hst) Hp Hdone.
  assert (∀ c q, q ≠ 0 → (done ++ [p]) !! c = Some q ↔
                 done !! c = Some q ∨ (c = length done ∧ p = q)) as Hlook.
  { intros c q Hq. destruct (decide (c < length done)%nat).
    - rewrite lookup_app_l by done. split; [by left|].
      intros [?|[? _]]; [done|lia].
    - rewrite lookup_app_r by lia. rewrite (lookup_ge_None_2 done) by lia.
      destruct (decide (c = length done)) as [->|].
      + rewrite Nat.sub_diag. simpl. split; [intros [= ->]; by right|].
        by intros [?|[_ ->]].
      + destruct (c - length done)%nat eqn:E; [lia|]. simpl.
        split; [done|]. intros [?|[? _]]; done. }
  destruct (decide (p = 0)) as [->|Hne].
  - exists g, (Z.of_nat (length done)). split; [done|].
    split_and!; try done.
    + intros u es Hu. destruct (Hes u es Hu) as [Hnd Hmem]. split; [done|].
      intros e. rewrite Hmem. split; intros (Hs & c & Hd & Hc); split; try done;
        exists c; split; try done.
      * apply Hlook; [lia|]. by left.
      * apply Hlook in Hc as [?|[_ ?]]; [done|lia|lia].
    + right. exists (length done). split_and!; [done| |].
      * by apply list_lookup_middle.
      * intros j Hj. by rewrite lookup_ge_None_2 by (rewrite length_app; simpl; lia).
  - unfold AddEdge. simpl.
    destruct (vec_get_in_range (outgoing_edges_ g) (p - 1)) as [es Hget]; [lia|].
    rewrite Hget. simpl. erewrite vec_set_Ok by done. simpl.
    eexists _, start. split; [done|].
    apply vec_get_Ok in Hget as [_ Hget].
    split_and!; simpl; try done.
    + by rewrite length_insert.
    + intros u es' Hu.
      destruct (decide (u = Z.to_nat (p - 1))) as [->|Hup].
      * rewrite list_lookup_insert_eq in Hu by lia. simplify_eq.
        destruct (Hes _ _ Hget) as [Hnd Hmem]. split.
        -- rewrite fmap_app. simpl. apply NoDup_app. split_and!; [done| |].
           ++ intros x Hx Hx'. apply list_elem_of_singleton in Hx' as ->.
              apply list_elem_of_fmap in Hx as (e & He & Hin).
              apply Hmem in Hin as (_ & c & Hc & Hlk).
              apply lookup_lt_Some in Hlk. rewrite Hc in He. lia.
           ++ apply NoDup_singleton.
        -- intros e. rewrite elem_of_app, Hmem, list_elem_of_singleton. split.
           ++ intros [(Hs & c & Hd & Hc)| ->].
              ** split; [done|]. exists c. split; [done|].
                 apply Hlook; [lia|]. by left.
              ** simpl. split; [lia|]. exists (length done). split; [done|].
                 apply Hlook; [lia|]. right. split; [done|lia].
           ++ intros (Hs & c & Hd & Hc). apply Hlook in Hc; [|lia].
              destruct Hc as [Hc|[-> Hc]].
              ** left. split; [done|]. by exists c.
              ** right. destruct e as [se de]. simpl in *. f_equal; lia.
      * rewrite list_lookup_insert_ne in Hu by done.
        destruct (Hes _ _ Hu) as [Hnd Hmem]. split; [done|].
        intros e. rewrite Hmem.
        split; intros (Hs & c & Hd & Hc); split; try done; exists c; split; try done.
        -- apply Hlook; [lia|]. by left.
        -- apply Hlook in Hc as [?|[_ ?]]; [done|lia|lia].
    + destruct Hst as [[-> Hno]|(i & -> & Hi & Hlater)].
      * left. split; [done|]. rewrite not_elem_of_app, list_elem_of_singleton. split; [done|lia]. 
      * right. exists i. split_and!; [done| |].
        -- rewrite lookup_app_l; [done|]. by eapply lookup_lt_Some.
        -- intros j Hj Hlk. destruct (decide (j < length done)%nat).
           ++ rewrite lookup_app_l in Hlk by done. by eapply Hlater.
           ++ rewrite lookup_app_r in Hlk by lia.
              destruct (j - length done)%nat; simpl in Hlk; [congruence|done].
Qed.

Lemma read_parents_built n todo : 
  ∀ done g start,
    built n done g start → (length done + length todo)%nat = n →
    (∀ p, p ∈ todo → 0 ≤ p ≤ Z.of_nat n) →
    ∃ g' start',
      read_parents todo (Z.of_nat (length done)) g start = Ok (g', start') ∧
      built n (done ++ todo) g' start'.
Proof.
  induction todo as [|p todo IH]; intros done g start Hb Hlen Hok.
  - exists g, start. by rewrite app_nil_r.
  - simpl in Hlen.
    destruct (built_step n done p g start Hb) as (g1 & start1 & Hstep & Hb1).
    { apply Hok. left. } { lia. }
    destruct (IH (done ++ [p]) g1 start1 Hb1) as (g' & start' & Hrun & Hb').
    { rewrite length_app. simpl. lia. }
    { intros q Hq. apply Hok. by right. }
    exists g', start'. rewrite <- (assoc (++)) in Hb'. split; [|done].
    rewrite length_app in Hrun. simpl in Hrun. simpl.
    replace (Z.of_nat (length done) + 1) with (Z.of_nat (length done + 1)) by lia.
    destruct (decide (p = 0)); simpl in Hstep.
    + by simplify_eq.
    + destruct (AddEdge g _); simplify_eq/=. done.
Qed.
Lemma read_parents_spec parents :
  parents_ok parents →
  ∃ g start,
    read_parents parents 0 (Graph_new (length parents)) (-1) = Ok (g, start) ∧
    built (length parents) parents g start.
Proof.
  intros Hok.
  destruct (read_parents_built (length parents) parents [] _ _
              (built_new (length parents))) as (g & start & Hrun & Hb); try done.
  by exists g, start.
Qed.

Section Built.
Context (parents : list Z) (g : Graph) (start : Vertex).
Hypothesis Hok : parents_ok parents.
Hypothesis Hb : built (length parents) parents g start.

Lemma built_vertex_count : vertex_count g = length parents.
Proof using Hb.
  destruct Hb as (Hvs & _). unfold vertex_count.
  by rewrite Hvs, length_fmap, length_seq.
Qed.

Lemma built_wf : graph_wf g.
Proof using Hb.
  pose proof built_vertex_count as Hn. unfold vertex_count in Hn.
  destruct Hb as (Hvs & Hlen & Hes & _). unfold graph_wf. rewrite Hn.
  split_and!; try done. intros v es e Hv He.
  destruct (Hes v es Hv) as [_ Hmem]. apply Hmem in He as (Hs & c & Hd & Hc).
  split; [done|]. apply lookup_lt_Some in Hc. lia.
Qed.

Lemma built_in_graph v : in_graph g v ↔ 0 ≤ v < Z.of_nat (length parents).
Proof using Hb. unfold in_graph. by rewrite built_vertex_count. Qed.

(** The edges are the parent references, turned around. *)
Lemma built_edge u c : edge g u c ↔ parent_of parents c = Some u.
Proof using All.
  destruct Hb as (Hvs & Hlen & Hes & _). unfold parent_of. split.
  - intros (es & e & [Hu Hget]%vec_get_Ok & He & <-).
    destruct (Hes _ _ Hget) as [_ Hmem].
    apply Hmem in He as (Hs & c & -> & Hc).
    assert (vec_get parents (Z.of_nat c) = Ok (Z.of_nat (Z.to_nat u) + 1)) as ->.
    { apply vec_get_Ok. split; [lia|]. by rewrite Nat2Z.id. }
    rewrite decide_False by lia. f_equal. lia.
  - destruct (vec_get parents c) as [p| |] eqn:Hp; [|done..].
    destruct (decide (p = 0)); [done|]. intros [= <-].
    pose proof (Hok p (vec_get_elem_of _ _ _ Hp)) as Hrange.
    apply vec_get_Ok in Hp as [Hc Hp].
    destruct (vec_get_in_range (outgoing_edges_ g) (p - 1)) as [es Hget]; [lia|].
    exists es, (mkEdge (p - 1) c). split_and!; [done| |done].
    apply vec_get_Ok in Hget as [_ Hget]. destruct (Hes _ _ Hget) as [_ Hmem].
    apply Hmem. simpl. split; [lia|]. exists (Z.to_nat c). split; [lia|].
    rewrite Hp. f_equal. lia.
Qed.

Lemma built_one_parent u u' c : edge g u c → edge g u' c → u = u'.
Proof using All. rewrite !built_edge. congruence. Qed.

Lemma built_out_NoDup v es :
  GetOutgoingEdges g v = Ok es → NoDup (destination <$> es).
Proof using Hb.
  destruct Hb as (_ & _ & Hes & _). intros [_ Hget]%vec_get_Ok.
  by destruct (Hes _ _ Hget).
Qed.

Lemma built_no_root : (∀ r, ¬ is_root parents r) → start = -1.
Proof using Hb.
  intros Hno. destruct Hb as (_ & _ & _ & [[-> _]|(i & -> & Hi & _)]); [done|].
  destruct (Hno (Z.of_nat i)). apply vec_get_Ok. split; [lia|].
  by rewrite Nat2Z.id.
Qed.

Lemma built_start : start = -1 ∨ in_graph g start.
Proof using Hb.
  pose proof built_vertex_count as Hn.
  destruct Hb as (_ & _ & _ & [[-> _]|(i & -> & Hi & _)]); [by left|right].
  apply lookup_lt_Some in Hi. unfold in_graph. lia.
Qed.

Lemma built_unique_root r : 
  is_root parents r → (∀ r', is_root parents r' → r' = r) → start = r.
Proof using Hb.
  intros Hr Huniq.
  destruct Hb as (_ & _ & _ & [[-> Hno]|(i & -> & Hi & _)]).
  - destruct Hno. by eapply vec_get_elem_of.
  - apply Huniq. apply vec_get_Ok. split; [lia|]. by rewrite Nat2Z.id.
Qed.

Lemma built_reach_ancestor a v : rtc (edge g) a v ↔ ancestor_or_self parents a v.
Proof using All.
  split.
  - intros H. apply rtc_nsteps in H as [k Hk]. revert a v Hk.
    induction k as [|k IH]; intros a v Hk.
    + inversion Hk; subst. constructor.
    + apply nsteps_inv_r in Hk as (p & Hk & He). apply built_edge in He.
      eapply anc_parent; eauto.
  - induction 1 as [|a v p Hp _ IH]; [done|].
    eapply rtc_r; [done|]. by apply built_edge.
Qed.
End Built.
(** ** Traversing a graph in which every vertex has at most one parent *)

Section OneParent.
Context (g : Graph).
Hypothesis Hparent : ∀ u u' c, edge g u c → edge g u' c → u = u'.
Hypothesis Hnodup : ∀ v es,
  GetOutgoingEdges g v = Ok es → NoDup (destination <$> es).

(** As long as a vertex is entered only after its parent, every edge
    examined leads to a white vertex. *)
Lemma rel_tree :
  (∀ cm v t w cm', visit_rel g cm v t w cm' →
     white_closed g cm → (∀ u, edge g u v → nonwhite cm u) →
     non_tree t = [] ∧ white_closed g cm') ∧
  (∀ cm es t w cm', edges_rel g cm es t w cm' →
     ∀ v, (∀ e, e ∈ es → edge g v (destination e)) →
       vec_get cm v = Ok kGray → white_closed g cm →
       NoDup (destination <$> es) →
       (∀ e, e ∈ es → vec_get cm (destination e) = Ok kWhite) →
       non_tree t = [] ∧ white_closed g cm').
Proof using All.
  apply visit_edges_rel_ind.
  - intros cm v es body wb cm1 Hw Hes Hbody IH Hg Hwc Hpar.
    pose proof (vec_get_range _ _ _ Hw) as Hr.
    assert (∀ u, edge g u v → u ≠ v) as Hnoself.
    { intros u Hu ->. destruct (Hpar v Hu) as (c & Hc & Hne). congruence. }
    destruct (IH v) as [Hnt Hwc1].
    + intros e He. by eapply edge_intro.
    + by eapply vec_get_paint_eq.
    + intros u x Hux. destruct (decide (v = u)) as [->|Hvu].
      { erewrite vec_get_paint_eq by done. done. }
      rewrite vec_get_paint_ne by (done || lia). intros Hu.
      destruct (decide (v = x)) as [->|Hvx].
      { destruct (Hpar u Hux) as (c & Hc & Hne). congruence. }
      rewrite vec_get_paint_ne by (done || lia). by eapply Hwc.
    + by apply (Hnodup v).
    + intros e He. pose proof (edge_intro _ _ _ _ Hes He) as Hedge.
      rewrite vec_get_paint_ne; [by eapply Hwc|lia|].
      intros Heq. by apply (Hnoself v); [rewrite Heq at 2|].
    + split; [by simpl_log|].
      intros u x Hux. destruct (decide (v = u)) as [->|Hvu].
      { erewrite vec_get_paint_eq by done. done. }
      rewrite vec_get_paint_ne by (done || lia). intros Hu.
      pose proof (Hwc1 u x Hux Hu) as Hx.
      rewrite vec_get_paint_ne; [done|lia|]. intros ->. congruence.
  - intros cm v _ _ Hwc _ _. done.
  - intros cm e rest t1 w1 cm1 t2 w2 cm2 Hw Hv IHv He IHe v Hsrc Hg Hwc Hnd Hwhite.
    apply NoDup_cons in Hnd as [Hfresh Hnd].
    assert (edge g v (destination e)) as Hedge by (apply Hsrc; left).
    destruct IHv as [Hnt1 Hwc1]; [done| |].
    { intros u Hu. rewrite (Hparent _ _ _ Hu Hedge). by exists kGray. }
    pose proof (visit_colours _ _ _ _ _ _ Hv) as (_ & _ & Hin & Hout).
    destruct (IHe v) as [Hnt2 Hwc2]; try done.
    + intros e' He'. apply Hsrc. by right.
    + eapply visit_frame; done.
    + intros e' He'. rewrite Hout; [apply Hwhite; by right|].
      intros Hd. destruct (proj1 (rel_entered g) _ _ _ _ _ Hv _ Hd)
        as [Heq|(x & Hx & Hxe)].
      * apply Hfresh. rewrite <- Heq. apply list_elem_of_fmap. by exists e'.
      * assert (x = v) as -> by (eapply Hparent; [done|apply Hsrc; by right]).
        destruct (Hin v Hx). congruence.
    + split; [|done]. simpl_log. by rewrite Hnt1, Hnt2.
  - intros cm e rest t2 w2 cm2 Hc _ _ v _ _ _ _ Hwhite.
    specialize (Hwhite e ltac:(left)). congruence.
  - intros cm e rest t2 w2 cm2 Hc _ _ v _ _ _ _ Hwhite.
    specialize (Hwhite e ltac:(left)). congruence.
Qed.
End OneParent.

(** A sweep over vertices that are all discovered does nothing. *)
Lemma sweep_nothing g cm vs t w cm' :
  sweep_rel g cm vs t w cm' → (∀ v, v ∈ vs → nonwhite cm v) →
  t = [] ∧ w = [] ∧ cm' = cm.
Proof.
  induction 1 as [|cm v rest c t w cm' Hc Hne Hs IH
                 |cm v rest t1 w1 cm1 t2 w2 cm2 Hw Hv Hs IH]; intros Hall.
  - done.
  - apply IH. intros u Hu. apply Hall. by right.
  - destruct (Hall v) as (c & Hc & Hne); [left|]. congruence.
Qed.

(** A visit discovers everything that is reachable and still white. *)
Lemma visit_covers g cm v t w cm' :
  visit_rel g cm v t w cm' →
  (∀ u, rtc (edge g) v u → vec_get cm u = Ok kWhite) →
  ∀ u, rtc (edge g) v u → u ∈ discovered t.
Proof.
  intros Hv Hwhite u Hr. pose proof Hr as Hr'.
  apply rtc_nsteps in Hr as [k Hk]. revert u Hk Hr'.
  pose proof (visit_colours _ _ _ _ _ _ Hv) as (_ & _ & Hin & Hout).
  induction k as [|k IH]; intros u Hk Hr.
  - inversion Hk; subst. by eapply visit_discovers_self.
  - apply nsteps_inv_r in Hk as (p & Hk & He).
    assert (rtc (edge g) v p) as Hp by (apply rtc_nsteps; eauto).
    destruct (proj1 (rel_closed g) _ _ _ _ _ Hv p u (IH p Hk Hp) He)
      as (c & Hc & Hne).
    destruct (decide (u ∈ discovered t)) as [|Hnot]; [done|].
    rewrite (Hout u Hnot), (Hwhite u Hr) in Hc. congruence.
Qed.
(** ** Parent references *)

Lemma climb_app parents i j v :
  climb parents (i + j) v = climb parents i v ≫= climb parents j.
Proof.
  revert v. induction i as [|i IH]; intros v; simpl; [done|].
  destruct (parent_of parents v); simpl; auto.
Qed.

Lemma climb_ancestor parents k v a :
  climb parents k v = Some a → ancestor_or_self parents a v.
Proof.
  revert v. induction k as [|k IH]; intros v; simpl.
  - intros [= ->]. constructor.
  - destruct (parent_of parents v) as [p|] eqn:Hp; simpl; [|done].
    intros H. eapply anc_parent; eauto.
Qed.

Lemma parent_of_Some parents v p :
  parent_of parents v = Some p ↔ vec_get parents v = Ok (p + 1) ∧ p + 1 ≠ 0.
Proof.
  unfold parent_of.
  destruct (vec_get parents v) as [q| |]; [|by split; [|intros [? _]]..].
  destruct (decide (q = 0)); split.
  - done.
  - intros [[= ->] ?]. done.
  - intros [= <-]. split; [f_equal; lia|lia].
  - intros [[= ->] _]. f_equal. lia.
Qed.

Lemma parent_of_None parents v :
  0 ≤ v < Z.of_nat (length parents) →
  parent_of parents v = None ↔ is_root parents v.
Proof.
  intros Hv. unfold parent_of, is_root.
  destruct (vec_get_in_range parents v Hv) as [q ->].
  destruct (decide (q = 0)) as [->|]; split; try done. by intros [= ->].
Qed.

Lemma parent_of_range parents v p :
  parents_ok parents → parent_of parents v = Some p →
  0 ≤ v < Z.of_nat (length parents) ∧ 0 ≤ p < Z.of_nat (length parents).
Proof.
  intros Hok [Hv Hne]%parent_of_Some.
  pose proof (Hok _ (vec_get_elem_of _ _ _ Hv)).
  apply vec_get_range in Hv. lia.
Qed.

Lemma climb_None parents k v : 
  ¬ (0 ≤ v < Z.of_nat (length parents)) → climb parents (S k) v = None.
Proof.
  intros Hv. simpl. unfold parent_of.
  destruct (vec_get parents v) eqn:E; try done.
  by apply vec_get_range in E.
Qed.

(** Chains that end within [length parents] steps cannot contain a cycle. *)
Lemma acyclicb_acyclic parents : acyclicb parents = true → acyclic parents.
Proof.
  unfold acyclicb. rewrite forallb_forall. intros Hall v k Hk Hcyc.
  set (n := length parents) in *.
  destruct (decide (0 ≤ v < Z.of_nat n)) as [Hv|Hv].
  2:{ destruct k; [lia|]. by rewrite climb_None in Hcyc. }
  assert (climb parents n v = None) as Hend.
  { specialize (Hall (Z.to_nat v)). rewrite Z2Nat.id in Hall by lia.
    rewrite bool_decide_eq_true in Hall. apply Hall, in_seq. lia. }
  assert (∀ m, climb parents (m * k) v = Some v) as Hrep.
  { induction m as [|m IH]; [done|]. simpl. by rewrite climb_app, Hcyc. }
  specialize (Hrep n).
  replace (n * k)%nat with (n + (n * k - n))%nat in Hrep by nia.
  by rewrite climb_app, Hend in Hrep.
Qed.

Lemma parents_ok_Forall parents :
  Forall (λ p, 0 ≤ p ≤ Z.of_nat (length parents)) parents → parents_ok parents.
Proof. rewrite Forall_forall. intros H p Hp. by apply H. Qed.

Lemma roots_spec parents r : r ∈ roots parents ↔ is_root parents r.
Proof.
  unfold roots, is_root. rewrite list_elem_of_fmap, vec_get_Ok. split.
  - intros (i & -> & [Hi _]%list_elem_of_filter). split; [lia|].
    by rewrite Nat2Z.id.
  - intros [Hr Hlk]. exists (Z.to_nat r). split; [lia|].
    apply list_elem_of_filter. split; [done|].
    apply elem_of_seq. apply lookup_lt_Some in Hlk. lia.
Qed.

(** A checkable criterion for [rooted_tree]. *)
Lemma rooted_tree_check parents r :
  Forall (λ p, 0 ≤ p ≤ Z.of_nat (length parents)) parents →
  acyclicb parents = true → roots parents = [r] →
  rooted_tree parents r.
Proof.
  intros Hok Hac Hr. split_and!.
  - split; [by apply parents_ok_Forall|by apply acyclicb_acyclic].
  - apply roots_spec. rewrite Hr. left.
  - intros r' Hr'%roots_spec. rewrite Hr in Hr'.
    by apply list_elem_of_singleton in Hr'.
Qed.

(** In a forest every chain of parent references ends in a root. *)
Lemma forest_chain_ends parents v :
  forest parents → 0 ≤ v < Z.of_nat (length parents) →
  ∃ k u, climb parents k v = Some u ∧ is_root parents u.
Proof.
  intros [Hok Hac] Hv. set (n := length parents) in *.
  assert (∀ m, (∃ k u, climb parents k v = Some u ∧ is_root parents u) ∨
               (∀ j, (j ≤ m)%nat →
                  ∃ u, climb parents j v = Some u ∧ 0 ≤ u < Z.of_nat n)) as Hchain.
  { induction m as [|m [IH|IH]]; [right|by left|].
    - intros j Hj. assert (j = 0)%nat as -> by lia. by exists v.
    - destruct (IH m ltac:(lia)) as (u & Hu & Hur).
      destruct (parent_of parents u) as [p|] eqn:Hp.
      + right. intros j Hj. destruct (decide (j = S m)) as [->|]; [|apply IH; lia].
        exists p. split.
        * replace (S m) with (m + 1)%nat by lia. rewrite climb_app, Hu. simpl.
          by rewrite Hp.
        * by eapply parent_of_range.
      + left. exists m, u. split; [done|]. by apply parent_of_None. }
  destruct (Hchain n) as [?|Hall]; [done|]. exfalso.
  set (f := λ j : nat, default 0 (climb parents j v)).
  assert (NoDup (f <$> seq 0 (S n))) as Hnd.
  { apply NoDup_fmap_2_strong; [|apply NoDup_seq].
    assert (∀ i j, (i < j ≤ n)%nat → f i ≠ f j) as Hlt.
    { intros i j Hij Heq.
      destruct (Hall i ltac:(lia)) as (ui & Hi & _).
      destruct (Hall j ltac:(lia)) as (uj & Hj & _).
      unfold f in Heq. rewrite Hi, Hj in Heq. simpl in Heq. subst uj.
      apply (Hac ui (j - i)%nat); [lia|].
      replace j with (i + (j - i))%nat in Hj by lia.
      by rewrite climb_app, Hi in Hj. }
    intros i j Hi%elem_of_seq Hj%elem_of_seq Heq.
    destruct (decide (i = j)) as [|Hne]; [done|]. exfalso.
    destruct (decide (i < j)%nat).
    - apply (Hlt i j); [lia|done].
    - apply (Hlt j i); [lia|done]. }
  assert (f <$> seq 0 (S n) ⊆+ Z.of_nat <$> seq 0 n) as Hsub.
  { apply NoDup_submseteq; [done|]. intros x (j & -> & Hj%elem_of_seq)%list_elem_of_fmap.
    destruct (Hall j ltac:(lia)) as (u & Hu & Hur). unfold f. rewrite Hu. simpl.
    apply list_elem_of_fmap. exists (Z.to_nat u). split; [lia|].
    apply elem_of_seq. lia. }
  apply submseteq_length in Hsub. rewrite !length_fmap, !length_seq in Hsub. lia.
Qed.

(** In a tree the root is an ancestor of every vertex. *)
Lemma tree_root_ancestor parents r v :
  rooted_tree parents r → 0 ≤ v < Z.of_nat (length parents) →
  ancestor_or_self parents r v.
Proof.
  intros (Hf & Hr & Huniq) Hv.
  destruct (forest_chain_ends parents v Hf Hv) as (k & u & Hk & Hu).
  rewrite (Huniq u Hu) in Hk. by eapply climb_ancestor.
Qed.
(** ** The driver *)

Lemma new_time_sized n : time_sized n (TimeDFSVisitor_new n).
Proof. split; apply length_replicate. Qed.

(** For well-formed input the driver computes timestamps: the graph is
    built, the traversal follows the protocol and the visitor replays it. *)
Lemma timestamps_defined parents :
  parents_ok parents → 2 * Z.of_nat (length parents) ≤ INT_MAX →
  ∃ g start t w cm' tv,
    built (length parents) parents g start ∧
    dfs_rel g start t w cm' ∧
    replay t (TimeDFSVisitor_new (vertex_count g)) = Ok tv ∧
    timestamps parents = Ok tv ∧
    time_sized (length parents) tv.
Proof.
  intros Hok Hint.
  destruct (read_parents_spec parents Hok) as (g & start & Hread & Hb).
  pose proof (built_vertex_count _ _ _ Hb) as Hn.
  pose proof (built_wf _ _ _ Hb) as Hwf.
  assert (2 * Z.of_nat (vertex_count g) ≤ INT_MAX) as Hint' by by rewrite Hn.
  destruct (timestamps_run g start (TimeDFSVisitor_new (vertex_count g)) Hwf
              (built_start _ _ _ Hb) Hint' (new_time_sized _) eq_refl)
    as (t & w & cm' & tv & Hdfs & Hrun & Hsearch).
  exists g, start, t, w, cm', tv. split_and!; try done.
  - unfold timestamps. rewrite Hread. simpl. rewrite <- Hn, Hsearch. done.
  - rewrite <- Hn.
    apply (stamps_sized g start t w cm' _ tv Hwf Hdfs Hint'
             (new_time_sized _) eq_refl Hrun).
Qed.

Lemma answer_query_spec n tv qa qv :
  time_sized n tv →
  0 ≤ qa - 1 < Z.of_nat n → 0 ≤ qv - 1 < Z.of_nat n →
  answer_query tv (qa, qv)
  = Ok (if decide (contains tv (qa - 1) (qv - 1)) then 1 else 0).
Proof.
  intros [Hin Hout] Ha Hv. unfold answer_query, contains. simpl.
  rewrite !vec_get_default by lia. simpl. fold (tin tv (qa - 1)) (tin tv (qv - 1)).
  fold (tout tv (qa - 1)) (tout tv (qv - 1)).
  repeat case_decide; simpl; try done; lia.
Qed.

(** ** Trees *)

Lemma tree_ok parents r : rooted_tree parents r → parents_ok parents.
Proof. by intros [[? _] _]. Qed.

Lemma tree_start parents r g start :
  rooted_tree parents r → built (length parents) parents g start →
  start = r ∧ in_graph g r.
Proof.
  intros (_ & Hr & Huniq) Hb. split; [by eapply built_unique_root|].
  apply (built_in_graph _ _ _ Hb). by apply vec_get_range in Hr.
Qed.

Lemma tree_reach parents r g start v :
  rooted_tree parents r → built (length parents) parents g start →
  in_graph g v → rtc (edge g) r v.
Proof.
  intros Htree Hb Hv.
  apply (built_reach_ancestor _ _ _ (tree_ok _ _ Htree) Hb).
  apply tree_root_ancestor; [done|]. by apply (built_in_graph _ _ _ Hb).
Qed.

(** The traversal of a tree: one root, tree edges only. *)
Lemma tree_dfs parents r g start t w cm' :
  rooted_tree parents r → built (length parents) parents g start →
  dfs_rel g start t w cm' →
  non_tree t = [] ∧ started t = [r].
Proof.
  intros Htree Hb Hdfs. pose proof (tree_ok _ _ Htree) as Hok.
  destruct (tree_start _ _ _ _ Htree Hb) as [-> Hr].
  pose proof (built_wf _ _ _ Hb) as Hwf.
  destruct Hdfs as [t1 w1 cm1 t2 w2 cm2 n Hrange Hstart Hsweep].
  inversion Hstart as [|cm st t0 w0 cm0 Hne Hv]; subst.
  { unfold in_graph in Hr. lia. }
  assert (∀ v, in_graph g v → vec_get (replicate n kWhite) v = Ok kWhite)
    as Hwhite by (intros v Hv'; by apply white_replicate).
  destruct (proj1 (rel_tree g (built_one_parent _ _ _ Hok Hb)
                     (built_out_NoDup _ _ _ Hb)) _ _ _ _ _ Hv) as [Hnt _].
  { intros u x Hux _. apply Hwhite. by eapply edge_in_graph. }
  { intros u Hu. apply (built_edge _ _ _ Hok Hb) in Hu.
    destruct Htree as (_ & Hroot & _). unfold is_root in Hroot.
    unfold parent_of in Hu. rewrite Hroot in Hu. done. }
  destruct (sweep_nothing _ _ _ _ _ _ Hsweep) as (-> & -> & ->).
  { intros v Hv'%wf_vertices; [|done]. exists kBlack. split; [|done].
    apply (visit_colours _ _ _ _ _ _ Hv).
    eapply visit_covers; [done| |by eapply tree_reach].
    intros u Hu. apply Hwhite.
    apply rtc_inv_r in Hu as [<-|(p & _ & He)]; [done|].
    by eapply edge_in_graph. }
  simpl_log. by rewrite Hnt, (visit_started _ _ _ _ _ _ Hv).
Qed.

(** In any input, containment of intervals implies ancestry. *)
Lemma contains_ancestor parents tv a v :
  parents_ok parents → 2 * Z.of_nat (length parents) ≤ INT_MAX →
  timestamps parents = Ok tv →
  0 ≤ a < Z.of_nat (length parents) → 0 ≤ v < Z.of_nat (length parents) →
  contains tv a v → ancestor_or_self parents a v.
Proof.
  intros Hok Hint Hts Ha Hv Hc.
  destruct (timestamps_defined parents Hok Hint)
    as (g & start & t & w & cm' & tv' & Hb & Hdfs & Hrun & Hts' & _).
  assert (tv' = tv) as -> by congruence.
  pose proof (built_wf _ _ _ Hb) as Hwf.
  pose proof (built_vertex_count _ _ _ Hb) as Hn.
  apply (built_reach_ancestor _ _ _ Hok Hb).
  assert (2 * Z.of_nat (vertex_count g) ≤ INT_MAX) as Hint' by by rewrite Hn.
  apply (stamps_contains_reach g start t w cm' _ tv Hwf Hdfs Hint'
           (new_time_sized _) eq_refl Hrun); [..|done];
    by apply (built_in_graph _ _ _ Hb).
Qed.

(** In a tree, ancestry implies containment of intervals. *)
Lemma ancestor_contains parents r tv a v :
  rooted_tree parents r → 2 * Z.of_nat (length parents) ≤ INT_MAX →
  timestamps parents = Ok tv →
  ancestor_or_self parents a v → contains tv a v.
Proof.
  intros Htree Hint Hts Hanc. pose proof (tree_ok _ _ Htree) as Hok.
  destruct (timestamps_defined parents Hok Hint)
    as (g & start & t & w & cm' & tv' & Hb & Hdfs & Hrun & Hts' & _).
  assert (tv' = tv) as -> by congruence.
  pose proof (built_wf _ _ _ Hb) as Hwf.
  pose proof (built_vertex_count _ _ _ Hb) as Hn.
  destruct (tree_dfs _ _ _ _ _ _ _ Htree Hb Hdfs) as [Hnt _].
  induction Hanc as [v|a v p Hp _ IH].
  - split; lia.
  - apply (built_edge _ _ _ Hok Hb) in Hp.
    assert (2 * Z.of_nat (vertex_count g) ≤ INT_MAX) as Hint' by by rewrite Hn.
    destruct (stamps_edge_contains g start t w cm' _ tv Hwf Hdfs Hint'
                (new_time_sized _) eq_refl Hrun p v Hnt Hp) as [H1 H2].
    destruct IH. split; lia.
Qed.
(** ** Every examined edge is classified once *)

Lemma tree_edges_app t1 t2 : tree_edges (t1 ++ t2) = tree_edges t1 ++ tree_edges t2.
Proof. apply omap_app. Qed.

Lemma rel_classified g :
  (∀ cm v t w cm', visit_rel g cm v t w cm' →
     examined t ≡ₚ tree_edges t ++ non_tree t) ∧
  (∀ cm es t w cm', edges_rel g cm es t w cm' →
     examined t ≡ₚ tree_edges t ++ non_tree t).
Proof.
  apply visit_edges_rel_ind.
  - intros cm v es body wb cm1 _ _ _ IH _. simpl_log.
    rewrite tree_edges_app. simpl. by rewrite app_nil_r.
  - done.
  - intros cm e rest t1 w1 cm1 t2 w2 cm2 _ _ IH1 _ IH2. simpl_log.
    rewrite tree_edges_app. simpl. rewrite IH1, IH2. solve_Permutation.
  - intros cm e rest t2 w2 cm2 _ _ IH. simpl_log. rewrite IH.
    solve_Permutation.
  - intros cm e rest t2 w2 cm2 _ _ IH. simpl_log. rewrite IH.
    solve_Permutation.
Qed.

Lemma sweep_classified g cm vs t w cm' :
  sweep_rel g cm vs t w cm' → examined t ≡ₚ tree_edges t ++ non_tree t.
Proof.
  induction 1 as [| |cm v rest t1 w1 cm1 t2 w2 cm2 Hw Hv _ IH]; simpl_log; try done.
  rewrite tree_edges_app, IH, (proj1 (rel_classified g) _ _ _ _ _ Hv).
  solve_Permutation.
Qed.

Lemma tree_edges_initialize vs : tree_edges (EvInitializeVertex <$> vs) = [].
Proof. induction vs; simpl; auto. Qed.

Lemma dfs_classified g start t w cm' :
  dfs_rel g start t w cm' → examined t ≡ₚ tree_edges t ++ non_tree t.
Proof.
  intros [t1 w1 cm1 t2 w2 cm2 n Hrange Hstart Hsweep]. simpl_log.
  rewrite !tree_edges_app, tree_edges_initialize. simpl.
  rewrite (sweep_classified _ _ _ _ _ _ Hsweep).
  assert (examined t1 ≡ₚ tree_edges t1 ++ non_tree t1) as ->.
  { destruct Hstart; simpl; [done|]. by eapply (proj1 (rel_classified g)). }
  solve_Permutation.
Qed.

(** ** Callbacks are only given vertices of the graph *)

Lemma log_in_graph_nil g : log_in_graph g [].
Proof. by intros ev v ?%not_elem_of_nil. Qed.

Lemma log_in_graph_app g t1 t2 :
  log_in_graph g t1 → log_in_graph g t2 → log_in_graph g (t1 ++ t2).
Proof. intros H1 H2 ev v [?|?]%elem_of_app; eauto. Qed.

Lemma log_in_graph_cons g ev t :
  (∀ v, v ∈ event_vertices ev → in_graph g v) → log_in_graph g t →
  log_in_graph g (ev :: t).
Proof. intros H1 H2 ev' v [->|?]%elem_of_cons; eauto. Qed.

Lemma rel_in_graph g :
  graph_wf g →
  (∀ cm v t w cm', visit_rel g cm v t w cm' →
     length cm = vertex_count g → log_in_graph g t) ∧
  (∀ cm es t w cm', edges_rel g cm es t w cm' →
     length cm = vertex_count g →
     (∀ e, e ∈ es → in_graph g (source e) ∧ in_graph g (destination e)) →
     log_in_graph g t).
Proof.
  intros Hwf. apply visit_edges_rel_ind.
  - intros cm v es body wb cm1 Hw Hes Hbody IH Hg Hlen.
    assert (in_graph g v) as Hv.
    { apply vec_get_range in Hw. unfold in_graph. lia. }
    assert (∀ u, u ∈ event_vertices (EvDiscoverVertex v) → in_graph g u) as Hd.
    { by intros u ->%list_elem_of_singleton. }
    apply log_in_graph_cons; [done|]. apply log_in_graph_app.
    + apply IH; [by rewrite length_paint|]. intros e He.
      destruct (wf_edge g v es e Hwf Hes He) as [-> ?]. done.
    + apply log_in_graph_cons; [done|apply log_in_graph_nil].
  - intros. apply log_in_graph_nil.
  - intros cm e rest t1 w1 cm1 t2 w2 cm2 Hw Hv IHv He IHe Hlen Hes.
    destruct (Hes e ltac:(left)) as [Hs Hd].
    assert (∀ u, u ∈ [source e; destination e] → in_graph g u) as Hends.
    { intros u. rewrite !elem_of_cons. intros [->|[->|?%not_elem_of_nil]]; done. }
    apply log_in_graph_cons; [done|]. apply log_in_graph_app; [by apply IHv|].
    do 2 (apply log_in_graph_cons; [done|]).
    apply IHe; [by rewrite (visit_length _ _ _ _ _ _ Hv)|].
    intros e' He'. apply Hes. by right.
  - intros cm e rest t2 w2 cm2 Hc He IHe Hlen Hes.
    destruct (Hes e ltac:(left)) as [Hs Hd].
    assert (∀ u, u ∈ [source e; destination e] → in_graph g u) as Hends.
    { intros u. rewrite !elem_of_cons. intros [->|[->|?%not_elem_of_nil]]; done. }
    do 3 (apply log_in_graph_cons; [done|]).
    apply IHe; [done|]. intros e' He'. apply Hes. by right.
  - intros cm e rest t2 w2 cm2 Hc He IHe Hlen Hes.
    destruct (Hes e ltac:(left)) as [Hs Hd].
    assert (∀ u, u ∈ [source e; destination e] → in_graph g u) as Hends.
    { intros u. rewrite !elem_of_cons. intros [->|[->|?%not_elem_of_nil]]; done. }
    do 3 (apply log_in_graph_cons; [done|]).
    apply IHe; [done|]. intros e' He'. apply Hes. by right.
Qed.

Lemma sweep_in_graph g cm vs t w cm' :
  graph_wf g → sweep_rel g cm vs t w cm' → length cm = vertex_count g →
  log_in_graph g t.
Proof.
  intros Hwf. induction 1 as [| |cm v rest t1 w1 cm1 t2 w2 cm2 Hw Hv _ IH];
    intros Hlen.
  - apply log_in_graph_nil.
  - auto.
  - apply log_in_graph_cons.
    { intros u ->%list_elem_of_singleton. apply vec_get_range in Hw.
      unfold in_graph. lia. }
    apply log_in_graph_app; [by eapply (proj1 (rel_in_graph g Hwf))|].
    apply IH. by rewrite (visit_length _ _ _ _ _ _ Hv).
Qed.

Lemma dfs_in_graph g start t w cm' :
  graph_wf g → dfs_rel g start t w cm' → log_in_graph g t.
Proof.
  intros Hwf [t1 w1 cm1 t2 w2 cm2 n Hrange Hstart Hsweep].
  assert (length (replicate n kWhite) = vertex_count g) as Hlen
    by apply length_replicate.
  assert (log_in_graph g t1 ∧ length cm1 = vertex_count g) as [H1 Hlen1].
  { inversion Hstart as [|cm st t0 w0 cm0 Hne Hv]; subst.
    - split; [apply log_in_graph_nil|done].
    - split; [|by rewrite (visit_length _ _ _ _ _ _ Hv)].
      apply log_in_graph_cons; [|by eapply (proj1 (rel_in_graph g Hwf))].
      intros u ->%list_elem_of_singleton.
      apply visit_inv in Hv as (?&?&?&?&_&_&_&Hw&_).
      apply vec_get_range in Hw. unfold in_graph. lia. }
  apply log_in_graph_app; [|apply log_in_graph_app; [done|by eapply sweep_in_graph]].
  intros ev v (u & -> & Hu)%list_elem_of_fmap ->%list_elem_of_singleton.
  by apply wf_vertices.
Qed.
(** ** The colour changes of a vertex *)

Lemma writes_of_app v w1 w2 : writes_of v (w1 ++ w2) = writes_of v w1 ++ writes_of v w2.
Proof. unfold writes_of. by rewrite filter_app. Qed.

Lemma writes_of_cons v cw ws :
  writes_of v (cw :: ws)
  = if decide (cw_vertex cw = v) then cw :: writes_of v ws else writes_of v ws.
Proof. unfold writes_of. by rewrite filter_cons. Qed.

Lemma writes_spec_nil : writes_spec [] [].
Proof. intros u. by rewrite decide_False by apply not_elem_of_nil. Qed.

Lemma writes_spec_app cm t1 cm1 t2 cm2 w1 w2 :
  colours_spec cm t1 cm1 → colours_spec cm1 t2 cm2 →
  writes_spec t1 w1 → writes_spec t2 w2 → writes_spec (t1 ++ t2) (w1 ++ w2).
Proof.
  intros (_ & _ & Hin1 & _) (_ & _ & Hin2 & _) H1 H2 u.
  rewrite writes_of_app, H1, H2, discovered_app.
  destruct (decide (u ∈ discovered t1)) as [Hu1|Hu1];
    destruct (decide (u ∈ discovered t2)) as [Hu2|Hu2].
  - destruct (Hin1 u Hu1) as [_ ?]. destruct (Hin2 u Hu2) as [? _]. congruence.
  - rewrite decide_True by (apply elem_of_app; by left). by rewrite app_nil_r.
  - rewrite decide_True by (apply elem_of_app; by right). done.
  - rewrite decide_False; [done|]. rewrite elem_of_app. tauto.
Qed.

Lemma writes_spec_skip ev t w :
  discovered [ev] = [] → writes_spec t w → writes_spec (ev :: t) w.
Proof.
  intros Hev H u. rewrite H. change (ev :: t) with ([ev] ++ t).
  by rewrite discovered_app, Hev.
Qed.

Lemma rel_writes g :
  (∀ cm v t w cm', visit_rel g cm v t w cm' → writes_spec t w) ∧
  (∀ cm es t w cm', edges_rel g cm es t w cm' → writes_spec t w).
Proof.
  apply visit_edges_rel_ind.
  - intros cm v es body wb cm1 Hw Hes Hbody IH Hg u.
    pose proof (edges_colours _ _ _ _ _ _ Hbody) as (_ & _ & Hin & _).
    assert (v ∉ discovered body) as Hv.
    { intros Hv. destruct (Hin v Hv) as [Hw' _].
      rewrite (vec_get_paint_eq _ _ _ _ Hw) in Hw'. done. }
    rewrite writes_of_cons, writes_of_app, writes_of_cons, IH. simpl_log.
    destruct (decide (v = u)) as [->|Hne].
    + rewrite decide_False by done. rewrite decide_True by left. done.
    + destruct (decide (u ∈ discovered body)) as [Hu|Hu].
      * rewrite decide_True by (by right). by rewrite app_nil_r.
      * rewrite decide_False; [done|]. rewrite elem_of_cons.
        intros [Heq|?]; [by subst|done].
  - intros. apply writes_spec_nil.
  - intros cm e rest t1 w1 cm1 t2 w2 cm2 _ Hv IH1 He IH2.
    apply writes_spec_skip; [done|].
    eapply writes_spec_app; [by eapply visit_colours| |done|].
    + do 2 (apply colours_spec_skip; [done..|]). by eapply edges_colours.
    + do 2 (apply writes_spec_skip; [done|]). done.
  - intros cm e rest t2 w2 cm2 _ _ IH.
    do 3 (apply writes_spec_skip; [done|]). done.
  - intros cm e rest t2 w2 cm2 _ _ IH.
    do 3 (apply writes_spec_skip; [done|]). done.
Qed.

Lemma sweep_writes g cm vs t w cm' :
  sweep_rel g cm vs t w cm' → writes_spec t w.
Proof.
  induction 1 as [| |cm v rest t1 w1 cm1 t2 w2 cm2 Hw Hv Hs IH].
  - apply writes_spec_nil.
  - done.
  - apply writes_spec_skip; [done|].
    eapply writes_spec_app;
      [by eapply visit_colours|by eapply sweep_colours
      |by eapply (proj1 (rel_writes g))|done].
Qed.

Lemma writes_of_initialize u vs :
  NoDup vs →
  writes_of u ((λ v, mkWrite v kWhite kWhite) <$> vs)
  = if decide (u ∈ vs) then [mkWrite u kWhite kWhite] else [].
Proof.
  induction 1 as [|v vs Hv Hnd IH]; [done|].
  rewrite fmap_cons, writes_of_cons, IH. simpl.
  destruct (decide (v = u)) as [->|Hne].
  - rewrite (decide_False (P := u ∈ vs)) by done.
    by rewrite decide_True by left.
  - destruct (decide (u ∈ vs)) as [Hu|Hu].
    + by rewrite decide_True by (by right).
    + rewrite decide_False; [done|]. rewrite elem_of_cons.
      intros [Heq|?]; [by subst|done].
Qed.

(** Over the whole traversal every vertex is initialised white, turns gray
    once and then black once. *)
Lemma dfs_writes g start t w cm' v :
  graph_wf g → dfs_rel g start t w cm' → in_graph g v →
  writes_of v w = [mkWrite v kWhite kWhite; mkWrite v kWhite kGray;
                   mkWrite v kGray kBlack].
Proof.
  intros Hwf Hdfs Hv.
  destruct (dfs_discovered _ _ _ _ _ Hwf Hdfs) as [_ Hd].
  assert (v ∈ discovered t) as Hvt by (rewrite Hd; by apply wf_vertices).
  destruct Hdfs as [t1 w1 cm1 t2 w2 cm2 n Hrange Hstart Hsweep].
  rewrite writes_of_app, writes_of_initialize by by apply vertices_NoDup.
  rewrite decide_True by by apply wf_vertices.
  assert (writes_spec (t1 ++ t2) (w1 ++ w2)) as Hw.
  { eapply writes_spec_app;
      [by eapply start_colours|by eapply sweep_colours| |by eapply sweep_writes].
    destruct Hstart; [apply writes_spec_nil|].
    apply writes_spec_skip; [done|]. by eapply (proj1 (rel_writes g)). }
  rewrite Hw. revert Hvt. simpl_log. intros Hvt. by rewrite decide_True.
Qed.
(** ** Checking concrete inputs *)

Lemma edges_okb_spec n v0 out :
  edges_okb n v0 out = true →
  ∀ i es e, out !! i = Some es → e ∈ es → edge_ok n (v0 + i) e.
Proof.
  revert v0. induction out as [|es0 out IH]; intros v0 Hok i es e Hi He; [done|].
  simpl in Hok. apply andb_true_iff in Hok as [Hes Hrest].
  destruct i as [|i]; simpl in Hi.
  - simplify_eq. rewrite forallb_forall in Hes.
    specialize (Hes e). rewrite <- list_elem_of_In in Hes. specialize (Hes He).
    apply andb_true_iff in Hes as [H1%bool_decide_eq_true H2%bool_decide_eq_true].
    split; [|done]. rewrite H1. f_equal. lia.
  - replace (v0 + S i)%nat with (S v0 + i)%nat by lia. by eapply IH.
Qed.

Lemma graph_wfb_wf g : graph_wfb g = true → graph_wf g.
Proof.
  unfold graph_wfb, graph_wf.
  intros [[H1%bool_decide_eq_true H2%bool_decide_eq_true]%andb_true_iff H3]%andb_true_iff.
  split_and!; [done..|]. intros v es e Hv He.
  by apply (edges_okb_spec _ 0 _ H3 v es e).
Qed.

Lemma answer_queries_spec n tv queries :
  time_sized n tv →
  Forall (λ q, 1 ≤ q.1 ≤ Z.of_nat n ∧ 1 ≤ q.2 ≤ Z.of_nat n) queries →
  answer_queries tv queries
  = Ok ((λ q, if decide (contains tv (q.1 - 1) (q.2 - 1)) then 1 else 0)
          <$> queries).
Proof.
  intros Hs. induction 1 as [|[qa qv] qs [Ha Hv] _ IH]; [done|].
  simpl in *. rewrite (answer_query_spec n) by (done || lia). simpl.
  by rewrite IH.
Qed.

Lemma dfs_writes_outside g start t w cm' v :
  graph_wf g → dfs_rel g start t w cm' → ¬ in_graph g v → writes_of v w = [].
Proof.
  intros Hwf Hdfs Hv.
  destruct (dfs_discovered _ _ _ _ _ Hwf Hdfs) as [_ Hd].
  assert (v ∉ discovered t) as Hvt by (rewrite Hd; by rewrite wf_vertices).
  destruct Hdfs as [t1 w1 cm1 t2 w2 cm2 n Hrange Hstart Hsweep].
  rewrite writes_of_app, writes_of_initialize by by apply vertices_NoDup.
  rewrite decide_False by by rewrite wf_vertices.
  assert (writes_spec (t1 ++ t2) (w1 ++ w2)) as Hw.
  { eapply writes_spec_app;
      [by eapply start_colours|by eapply sweep_colours| |by eapply sweep_writes].
    destruct Hstart; [apply writes_spec_nil|].
    apply writes_spec_skip; [done|]. by eapply (proj1 (rel_writes g)). }
  rewrite Hw. revert Hvt. simpl_log. intros Hvt. by rewrite decide_False.
Qed.

(** The timestamps fill both vectors with pairwise distinct values. *)
Lemma stamps_NoDup g start t w cm' s0 tv :
  graph_wf g → dfs_rel g start t w cm' →
  2 * Z.of_nat (vertex_count g) ≤ INT_MAX →
  time_sized (vertex_count g) s0 → timer s0 = 0 → replay t s0 = Ok tv →
  NoDup (time_in tv ++ time_out tv).
Proof.
  intros Hwf Hdfs Hint Hs0 Ht0 Hrun.
  pose proof (stamps_sized g start t w cm' s0 tv Hwf Hdfs Hint Hs0 Ht0 Hrun)
    as [Hlin Hlout].
  pose proof (stamps_bounds g start t w cm' s0 tv Hwf Hdfs Hint Hs0 Ht0 Hrun) as Hb.
  pose proof (stamps_nesting g start t w cm' s0 tv Hwf Hdfs Hint Hs0 Ht0 Hrun) as Hn.
  assert (∀ i x, time_in tv !! i = Some x →
            in_graph g (Z.of_nat i) ∧ x = tin tv (Z.of_nat i)) as Hin.
  { intros i x Hi. split.
    - apply lookup_lt_Some in Hi. unfold in_graph. lia.
    - unfold tin. by rewrite Nat2Z.id, Hi. }
  assert (∀ i x, time_out tv !! i = Some x →
            in_graph g (Z.of_nat i) ∧ x = tout tv (Z.of_nat i)) as Hout.
  { intros i x Hi. split.
    - apply lookup_lt_Some in Hi. unfold in_graph. lia.
    - unfold tout. by rewrite Nat2Z.id, Hi. }
  assert (∀ i j, in_graph g (Z.of_nat i) → in_graph g (Z.of_nat j) → i ≠ j →
            tin tv (Z.of_nat i) ≠ tin tv (Z.of_nat j) ∧
            tout tv (Z.of_nat i) ≠ tout tv (Z.of_nat j) ∧
            tin tv (Z.of_nat i) ≠ tout tv (Z.of_nat j)) as Hne.
  { intros i j Hi Hj Hij. pose proof (Hb _ Hi). pose proof (Hb _ Hj).
    destruct (Hn (Z.of_nat i) (Z.of_nat j) Hi Hj ltac:(lia)); lia. }
  apply NoDup_app. split_and!.
  - apply NoDup_alt. intros i j x Hi Hj.
    destruct (Hin _ _ Hi) as [Gi ->]. destruct (Hin _ _ Hj) as [Gj Heq].
    destruct (decide (i = j)) as [|Hij]; [done|].
    destruct (Hne i j Gi Gj Hij) as (? & _). done.
  - intros x [i Hi]%list_elem_of_lookup [j Hj]%list_elem_of_lookup.
    destruct (Hin _ _ Hi) as [Gi ->]. destruct (Hout _ _ Hj) as [Gj Heq].
    destruct (decide (i = j)) as [->|Hij].
    + pose proof (Hb _ Gj). lia.
    + destruct (Hne i j Gi Gj Hij) as (_ & _ & ?). done.
  - apply NoDup_alt. intros i j x Hi Hj.
    destruct (Hout _ _ Hi) as [Gi ->]. destruct (Hout _ _ Hj) as [Gj Heq].
    destruct (decide (i = j)) as [|Hij]; [done|].
    destruct (Hne i j Gi Gj Hij) as (_ & ? & _). done.
Qed.

(** Two fresh visitors end with the same vectors, whatever they held. *)
Lemma stamps_determined g start t w cm' s1 s2 tv1 tv2 :
  graph_wf g → dfs_rel g start t w cm' →
  2 * Z.of_nat (vertex_count g) ≤ INT_MAX →
  fresh_visitor (vertex_count g) s1 → fresh_visitor (vertex_count g) s2 →
  replay t s1 = Ok tv1 → replay t s2 = Ok tv2 →
  time_in tv1 = time_in tv2 ∧ time_out tv1 = time_out tv2.
Proof.
  intros Hwf Hdfs Hint [Ht1 Hs1] [Ht2 Hs2] Hrun1 Hrun2.
  pose proof (stamps_sized g start t w cm' s1 tv1 Hwf Hdfs Hint Hs1 Ht1 Hrun1)
    as [Hin1 Hout1].
  pose proof (stamps_sized g start t w cm' s2 tv2 Hwf Hdfs Hint Hs2 Ht2 Hrun2)
    as [Hin2 Hout2].
  destruct (dfs_discovered _ _ _ _ _ Hwf Hdfs) as [Hnd_in Hd].
  destruct (dfs_finished _ _ _ _ _ Hwf Hdfs) as [Hnd_out Hf].
  pose proof (stamps_range g start t w cm' Hwf Hdfs) as Hrange.
  pose proof (stamps_ticks g start t w cm' Hwf Hdfs) as Hticks.
  assert (∀ a, in_graph g a → tin tv1 a = tin tv2 a ∧ tout tv1 a = tout tv2 a)
    as Hsame.
  { intros a Ha. split.
    - assert (a ∈ discovered t) as Hat by (rewrite Hd; by apply wf_vertices).
      apply elem_of_discovered, list_elem_of_split in Hat as (pre & post & Ht).
      assert (a ∉ discovered post) as Hpost.
      { revert Hnd_in. rewrite Ht. simpl_log. rewrite NoDup_app.
        intros (_ & _ & Hnd). by apply NoDup_cons in Hnd as [? _]. }
      rewrite (replay_time_in _ t s1 tv1 pre a post Hs1 Hrange); try done; try lia.
      rewrite (replay_time_in _ t s2 tv2 pre a post Hs2 Hrange); try done; lia.
    - assert (a ∈ finished t) as Hat by (rewrite Hf; by apply wf_vertices).
      apply elem_of_finished, list_elem_of_split in Hat as (pre & post & Ht).
      assert (a ∉ finished post) as Hpost.
      { revert Hnd_out. rewrite Ht. simpl_log. rewrite NoDup_app.
        intros (_ & _ & Hnd). by apply NoDup_cons in Hnd as [? _]. }
      rewrite (replay_time_out _ t s1 tv1 pre a post Hs1 Hrange); try done; try lia.
      rewrite (replay_time_out _ t s2 tv2 pre a post Hs2 Hrange); try done; lia. }
  split; apply list_eq; intros i.
  - destruct (decide (i < vertex_count g)%nat) as [Hi|Hi].
    + destruct (lookup_lt_is_Some_2 (time_in tv1) i) as [x1 Hx1]; [lia|].
      destruct (lookup_lt_is_Some_2 (time_in tv2) i) as [x2 Hx2]; [lia|].
      destruct (Hsame (Z.of_nat i)) as [Heq _]; [unfold in_graph; lia|].
      unfold tin in Heq. rewrite Nat2Z.id, Hx1, Hx2 in Heq. simpl in Heq.
      by rewrite Hx1, Hx2, Heq.
    + by rewrite !lookup_ge_None_2 by lia.
  - destruct (decide (i < vertex_count g)%nat) as [Hi|Hi].
    + destruct (lookup_lt_is_Some_2 (time_out tv1) i) as [x1 Hx1]; [lia|].
      destruct (lookup_lt_is_Some_2 (time_out tv2) i) as [x2 Hx2]; [lia|].
      destruct (Hsame (Z.of_nat i)) as [_ Heq]; [unfold in_graph; lia|].
      unfold tout in Heq. rewrite Nat2Z.id, Hx1, Hx2 in Heq. simpl in Heq.
      by rewrite Hx1, Hx2, Heq.
    + by rewrite !lookup_ge_None_2 by lia.
Qed.
(** * Main results *)

(** ** Traversal engine *)

(** C3. On a well-formed graph [DepthFirstSearch] returns; every vertex is
    discovered exactly once (the discovered vertices are a rearrangement of
    the duplicate-free vertex list) and finished exactly once; every edge is
    examined exactly once (the examined edges are a rearrangement of all
    edge lists); a given start vertex is the first vertex discovered; the
    other roots are taken by the sweep, in vertex order; no vertex is left
    unvisited. *)
Theorem C3_every_vertex_and_edge_once (g : Graph) (start : Vertex) :
  graph_wf g → start = -1 ∨ in_graph g start →
  ∃ cm' log,
    DepthFirstSearch (CM := Colormap) g ([] : list Event) start = Ok (cm', log) ∧
    NoDup (GetVertices g) ∧
    discovered log ≡ₚ GetVertices g ∧
    finished log ≡ₚ GetVertices g ∧
    examined log ≡ₚ all_edges g ∧
    (start ≠ -1 → head (discovered log) = Some start) ∧
    (∃ roots, roots `sublist_of` GetVertices g ∧
       started log = (if decide (start = -1) then [] else [start]) ++ roots) ∧
    (∀ v, in_graph g v → vec_get cm' v = Ok kBlack).
Proof.
  intros Hwf Hstart.
  destruct (dfs_rel_total g start Hwf Hstart) as (t & w & cm' & Hdfs).
  exists cm', t. split_and!.
  - by rewrite (dfs_run g start t w cm' [] Hdfs), replay_trace.
  - by apply vertices_NoDup.
  - by eapply dfs_discovered.
  - by eapply dfs_finished.
  - by eapply dfs_examined.
  - by eapply dfs_start_first.
  - by eapply dfs_started.
  - intros v Hv. apply (dfs_colours _ _ _ _ _ Hdfs).
    destruct (dfs_discovered _ _ _ _ _ Hwf Hdfs) as [_ ->]. by apply wf_vertices.
Qed.

Lemma C3_witness :
  graph_wf example_graph ∧
  ∃ cm' log,
    DepthFirstSearch (CM := Colormap) example_graph ([] : list Event) 0
      = Ok (cm', log) ∧
    NoDup (GetVertices example_graph) ∧
    discovered log ≡ₚ GetVertices example_graph ∧
    finished log ≡ₚ GetVertices example_graph ∧
    examined log ≡ₚ all_edges example_graph ∧
    ((0 : Z) ≠ -1 → head (discovered log) = Some 0) ∧
    (∃ roots, roots `sublist_of` GetVertices example_graph ∧
       started log = (if decide ((0 : Z) = -1) then [] else [0]) ++ roots) ∧
    (∀ v, in_graph example_graph v → vec_get cm' v = Ok kBlack).
Proof.
  assert (graph_wf example_graph) as Hwf by (apply graph_wfb_wf; reflexivity).
  split; [exact Hwf|].
  apply (C3_every_vertex_and_edge_once example_graph 0 Hwf).
  right. unfold in_graph, vertex_count. simpl. lia.
Defined.

(** C7. Visiting an unvisited vertex [v] issues exactly the callbacks of the
    protocol [visit_rel]: [DiscoverVertex v]; then for each outgoing edge in
    order [ExamineEdge], one of [TreeEdge] (destination white: the complete
    visit of the destination comes first), [BackEdge] (gray) or
    [ForwardOrCrossEdge] (black), and [FinishEdge]; and last
    [FinishVertex v].  The visit returns whenever the fuel covers the
    unvisited vertices. *)
Theorem C7_callback_order (g : Graph) (cm : list Color) (v : Vertex)
    (fuel : nat) (log0 : list Event) :
  graph_wf g → length cm = vertex_count g → vec_get cm v = Ok kWhite →
  (white_count cm ≤ fuel)%nat →
  ∃ log w cm' es body wb cm1,
    DepthFirstSearchVisit (CM := Colormap) fuel g cm log0 v
      = Ok (cm', log0 ++ log) ∧
    visit_rel g cm v log w cm' ∧
    GetOutgoingEdges g v = Ok es ∧
    log = EvDiscoverVertex v :: body ++ [EvFinishVertex v] ∧
    edges_rel g (paint cm v kGray) es body wb cm1.
Proof.
  intros Hwf Hlen Hw Hfuel.
  destruct (visit_rel_total g Hwf fuel cm v Hlen Hfuel Hw) as (t & w & cm' & Hv).
  destruct (visit_inv _ _ _ _ _ _ Hv) as (es & body & wb & cm1 & Ht & _ & _ & _ & Hes & Hb).
  exists t, w, cm', es, body, wb, cm1. split_and!; try done.
  by rewrite (visit_run g cm v t w cm' fuel log0 Hv Hfuel), replay_trace.
Qed.

Lemma C7_witness :
  graph_wf example_graph ∧
  ∃ log w cm' es body wb cm1,
    DepthFirstSearchVisit (CM := Colormap) 4 example_graph
      (replicate 4 kWhite) [] 0 = Ok (cm', [] ++ log) ∧
    visit_rel example_graph (replicate 4 kWhite) 0 log w cm' ∧
    GetOutgoingEdges example_graph 0 = Ok es ∧
    log = EvDiscoverVertex 0 :: body ++ [EvFinishVertex 0] ∧
    edges_rel example_graph (paint (replicate 4 kWhite) 0 kGray) es body wb cm1.
Proof.
  assert (graph_wf example_graph) as Hwf by (apply graph_wfb_wf; reflexivity).
  split; [exact Hwf|].
  apply (C7_callback_order example_graph (replicate 4 kWhite) 0 4 [] Hwf);
    [reflexivity|reflexivity|vm_compute; lia].
Defined.

(** C6. With the colormap that records its writes, the colour changes of
    every vertex over a whole traversal are exactly: the initialisation to
    white, then white to gray, then gray to black.  Nothing is skipped or
    undone, and no vertex is discovered a second time. *)
Theorem C6_colours_monotone (g : Graph) (start : Vertex) :
  graph_wf g → start = -1 ∨ in_graph g start →
  ∃ rc log,
    DepthFirstSearch (CM := RecordingColormap) g ([] : list Event) start
      = Ok (rc, log) ∧
    (∀ v, in_graph g v →
       writes_of v (rc_writes rc)
       = [mkWrite v kWhite kWhite; mkWrite v kWhite kGray; mkWrite v kGray kBlack]) ∧
    (∀ v, ¬ in_graph g v → writes_of v (rc_writes rc) = []) ∧
    NoDup (discovered log) ∧ NoDup (finished log) ∧
    (∀ v, in_graph g v → vec_get (rc_colors rc) v = Ok kBlack).
Proof.
  intros Hwf Hstart.
  destruct (dfs_rel_total g start Hwf Hstart) as (t & w & cm' & Hdfs).
  exists (mkRecording cm' w), t. split_and!.
  - by rewrite (dfs_run_recording g start t w cm' [] Hdfs), replay_trace.
  - intros v Hv. by eapply dfs_writes.
  - intros v Hv. by eapply dfs_writes_outside.
  - by eapply dfs_discovered.
  - by eapply dfs_finished.
  - intros v Hv. apply (dfs_colours _ _ _ _ _ Hdfs).
    destruct (dfs_discovered _ _ _ _ _ Hwf Hdfs) as [_ ->]. by apply wf_vertices.
Qed.

Lemma C6_witness :
  graph_wf example_graph ∧
  ∃ rc log,
    DepthFirstSearch (CM := RecordingColormap) example_graph ([] : list Event) 0
      = Ok (rc, log) ∧
    (∀ v, in_graph example_graph v →
       writes_of v (rc_writes rc)
       = [mkWrite v kWhite kWhite; mkWrite v kWhite kGray; mkWrite v kGray kBlack]) ∧
    (∀ v, ¬ in_graph example_graph v → writes_of v (rc_writes rc) = []) ∧
    NoDup (discovered log) ∧ NoDup (finished log) ∧
    (∀ v, in_graph example_graph v → vec_get (rc_colors rc) v = Ok kBlack).
Proof.
  assert (graph_wf example_graph) as Hwf by (apply graph_wfb_wf; reflexivity).
  split; [exact Hwf|].
  apply (C6_colours_monotone example_graph 0 Hwf).
  right. unfold in_graph, vertex_count. simpl. lia.
Defined.
(** ** Timestamps *)

(** C4. After a full traversal with the timestamp visitor (timer at 0,
    [time_in[v] = timer++] on discovery, [time_out[v] = timer++] on finish)
    every vertex has [0 <= time_in[v] < time_out[v] <= 2V-1], and the [2V]
    values of the two vectors are pairwise distinct.  [2V <= INT_MAX] keeps
    [timer++] from overflowing. *)
Theorem C4_timestamp_bounds (g : Graph) (start : Vertex) :
  graph_wf g → start = -1 ∨ in_graph g start →
  2 * Z.of_nat (vertex_count g) ≤ INT_MAX →
  ∃ cm' tv,
    DepthFirstSearch (CM := Colormap) g (TimeDFSVisitor_new (vertex_count g)) start
      = Ok (cm', tv) ∧
    length (time_in tv) = vertex_count g ∧
    length (time_out tv) = vertex_count g ∧
    (∀ v, in_graph g v →
       vec_get (time_in tv) v = Ok (tin tv v) ∧
       vec_get (time_out tv) v = Ok (tout tv v) ∧
       0 ≤ tin tv v < tout tv v ∧
       tout tv v ≤ 2 * Z.of_nat (vertex_count g) - 1) ∧
    NoDup (time_in tv ++ time_out tv) ∧
    timer (TimeDFSVisitor_new (vertex_count g)) = 0 ∧
    (∀ s v, 0 ≤ v < Z.of_nat (length (time_in s)) → 0 ≤ timer s < INT_MAX →
       DiscoverVertex v s
       = Ok (mkTime (timer s + 1) (<[Z.to_nat v := timer s]> (time_in s))
               (time_out s))) ∧
    (∀ s v, 0 ≤ v < Z.of_nat (length (time_out s)) → 0 ≤ timer s < INT_MAX →
       FinishVertex v s
       = Ok (mkTime (timer s + 1) (time_in s)
               (<[Z.to_nat v := timer s]> (time_out s)))).
Proof.
  intros Hwf Hstart Hint.
  destruct (timestamps_run g start _ Hwf Hstart Hint (new_time_sized _) eq_refl)
    as (t & w & cm' & tv & Hdfs & Hrun & Hsearch).
  exists cm', tv.
  pose proof (stamps_sized g start t w cm' _ tv Hwf Hdfs Hint
                (new_time_sized _) eq_refl Hrun) as [Hlin Hlout].
  split_and!; try done.
  - intros v Hv.
    destruct (stamps_vec_get g start t w cm' _ tv Hwf Hdfs Hint
                (new_time_sized _) eq_refl Hrun v Hv) as [? ?].
    destruct (stamps_bounds g start t w cm' _ tv Hwf Hdfs Hint
                (new_time_sized _) eq_refl Hrun v Hv) as [? ?].
    done.
  - by eapply (stamps_NoDup g start t w cm' _ tv Hwf Hdfs Hint
                 (new_time_sized _) eq_refl).
  - intros s v Hv Ht. simpl. unfold Time_DiscoverVertex, vec_set.
    rewrite decide_True by done. simpl. rewrite int_wrap_id; [done|].
    unfold INT_MAX in *. lia.
  - intros s v Hv Ht. simpl. unfold Time_FinishVertex, vec_set.
    rewrite decide_True by done. simpl. rewrite int_wrap_id; [done|].
    unfold INT_MAX in *. lia.
Qed.

Lemma C4_witness :
  graph_wf example_graph ∧
  ∃ cm' tv,
    DepthFirstSearch (CM := Colormap) example_graph
      (TimeDFSVisitor_new (vertex_count example_graph)) 0 = Ok (cm', tv) ∧
    length (time_in tv) = vertex_count example_graph ∧
    length (time_out tv) = vertex_count example_graph ∧
    (∀ v, in_graph example_graph v →
       vec_get (time_in tv) v = Ok (tin tv v) ∧
       vec_get (time_out tv) v = Ok (tout tv v) ∧
       0 ≤ tin tv v < tout tv v ∧
       tout tv v ≤ 2 * Z.of_nat (vertex_count example_graph) - 1) ∧
    NoDup (time_in tv ++ time_out tv) ∧
    timer (TimeDFSVisitor_new (vertex_count example_graph)) = 0 ∧
    (∀ s v, 0 ≤ v < Z.of_nat (length (time_in s)) → 0 ≤ timer s < INT_MAX →
       DiscoverVertex v s
       = Ok (mkTime (timer s + 1) (<[Z.to_nat v := timer s]> (time_in s))
               (time_out s))) ∧
    (∀ s v, 0 ≤ v < Z.of_nat (length (time_out s)) → 0 ≤ timer s < INT_MAX →
       FinishVertex v s
       = Ok (mkTime (timer s + 1) (time_in s)
               (<[Z.to_nat v := timer s]> (time_out s)))).
Proof.
  assert (graph_wf example_graph) as Hwf by (apply graph_wfb_wf; reflexivity).
  split; [exact Hwf|].
  apply (C4_timestamp_bounds example_graph 0 Hwf).
  - right. unfold in_graph, vertex_count. simpl. lia.
  - vm_compute. discriminate.
Defined.

(** C5. After a full traversal the intervals [time_in, time_out] of two
    distinct vertices are disjoint, or one lies strictly inside the other;
    they never overlap partially.  This holds on every well-formed graph,
    hence on every forest, whatever its shape. *)
Theorem C5_interval_nesting (g : Graph) (start : Vertex) :
  graph_wf g → start = -1 ∨ in_graph g start →
  2 * Z.of_nat (vertex_count g) ≤ INT_MAX →
  ∃ cm' tv,
    DepthFirstSearch (CM := Colormap) g (TimeDFSVisitor_new (vertex_count g)) start
      = Ok (cm', tv) ∧
    ∀ u v, in_graph g u → in_graph g v → u ≠ v →
      (tout tv u < tin tv v ∨ tout tv v < tin tv u) ∨
      (tin tv v < tin tv u ∧ tout tv u < tout tv v) ∨
      (tin tv u < tin tv v ∧ tout tv v < tout tv u).
Proof.
  intros Hwf Hstart Hint.
  destruct (timestamps_run g start _ Hwf Hstart Hint (new_time_sized _) eq_refl)
    as (t & w & cm' & tv & Hdfs & Hrun & Hsearch).
  exists cm', tv. split; [done|].
  by apply (stamps_nesting g start t w cm' _ tv Hwf Hdfs Hint
              (new_time_sized _) eq_refl).
Qed.

Lemma C5_witness :
  graph_wf example_graph ∧
  ∃ cm' tv,
    DepthFirstSearch (CM := Colormap) example_graph
      (TimeDFSVisitor_new (vertex_count example_graph)) 0 = Ok (cm', tv) ∧
    ∀ u v, in_graph example_graph u → in_graph example_graph v → u ≠ v →
      (tout tv u < tin tv v ∨ tout tv v < tin tv u) ∨
      (tin tv v < tin tv u ∧ tout tv u < tout tv v) ∨
      (tin tv u < tin tv v ∧ tout tv v < tout tv u).
Proof.
  assert (graph_wf example_graph) as Hwf by (apply graph_wfb_wf; reflexivity).
  split; [exact Hwf|].
  apply (C5_interval_nesting example_graph 0 Hwf).
  - right. unfold in_graph, vertex_count. simpl. lia.
  - vm_compute. discriminate.
Defined.

(** The same on the timestamps the driver computes, for every well-formed
    input: forests of any shape, and inputs with cycles as well. *)
Corollary timestamps_nesting (parents : list Z) :
  parents_ok parents → 2 * Z.of_nat (length parents) ≤ INT_MAX →
  ∃ tv, timestamps parents = Ok tv ∧
    ∀ u v, 0 ≤ u < Z.of_nat (length parents) →
           0 ≤ v < Z.of_nat (length parents) → u ≠ v →
      (tout tv u < tin tv v ∨ tout tv v < tin tv u) ∨
      (tin tv v < tin tv u ∧ tout tv u < tout tv v) ∨
      (tin tv u < tin tv v ∧ tout tv v < tout tv u).
Proof.
  intros Hok Hint.
  destruct (timestamps_defined parents Hok Hint)
    as (g & start & t & w & cm' & tv & Hb & Hdfs & Hrun & Hts & _).
  pose proof (built_wf _ _ _ Hb) as Hwf.
  pose proof (built_vertex_count _ _ _ Hb) as Hn.
  assert (2 * Z.of_nat (vertex_count g) ≤ INT_MAX) as Hint' by by rewrite Hn.
  exists tv. split; [done|]. intros u v Hu Hv.
  apply (stamps_nesting g start t w cm' _ tv Hwf Hdfs Hint'
           (new_time_sized _) eq_refl Hrun); by apply (built_in_graph _ _ _ Hb).
Qed.

(** C8. Two traversals of the same graph from the same start vertex, each
    with a fresh timestamp visitor and a fresh colormap, end with identical
    [time_in] and [time_out] vectors and identical colours.  The result
    depends neither on what the fresh vectors held nor on the recursion
    budget, as long as that covers the vertices. *)
Theorem C8_traversal_deterministic (g : Graph) (start : Vertex)
    (s1 s2 : TimeDFSVisitor) (fuel1 fuel2 : nat) :
  graph_wf g → start = -1 ∨ in_graph g start →
  2 * Z.of_nat (vertex_count g) ≤ INT_MAX →
  fresh_visitor (vertex_count g) s1 → fresh_visitor (vertex_count g) s2 →
  (vertex_count g ≤ fuel1)%nat → (vertex_count g ≤ fuel2)%nat →
  ∃ cm' tv1 tv2,
    DepthFirstSearch_fuel (CM := Colormap) fuel1 g s1 start = Ok (cm', tv1) ∧
    DepthFirstSearch_fuel (CM := Colormap) fuel2 g s2 start = Ok (cm', tv2) ∧
    time_in tv1 = time_in tv2 ∧ time_out tv1 = time_out tv2.
Proof.
  intros Hwf Hstart Hint Hf1 Hf2 Hfuel1 Hfuel2.
  destruct (dfs_rel_total g start Hwf Hstart) as (t & w & cm' & Hdfs).
  pose proof (stamps_range g start t w cm' Hwf Hdfs) as Hrange.
  pose proof (stamps_ticks g start t w cm' Hwf Hdfs) as Hticks.
  destruct Hf1 as [Ht1 Hs1]. destruct Hf2 as [Ht2 Hs2].
  destruct (replay_time _ t s1 Hs1 Hrange) as (tv1 & Hrun1 & _); [lia..|].
  destruct (replay_time _ t s2 Hs2 Hrange) as (tv2 & Hrun2 & _); [lia..|].
  exists cm', tv1, tv2. split_and!.
  - by rewrite (dfs_fuel_run g start t w cm' fuel1 s1 Hdfs Hfuel1), Hrun1.
  - by rewrite (dfs_fuel_run g start t w cm' fuel2 s2 Hdfs Hfuel2), Hrun2.
  - by eapply (stamps_determined g start t w cm' s1 s2).
  - by eapply (stamps_determined g start t w cm' s1 s2).
Qed.

Lemma C8_witness :
  graph_wf example_graph ∧
  ∃ cm' tv1 tv2,
    DepthFirstSearch_fuel (CM := Colormap) 4 example_graph
      (TimeDFSVisitor_new 4) 0 = Ok (cm', tv1) ∧
    DepthFirstSearch_fuel (CM := Colormap) 7 example_graph
      (mkTime 0 [5; 5; 5; 5] [9; 8; 7; 6]) 0 = Ok (cm', tv2) ∧
    time_in tv1 = time_in tv2 ∧ time_out tv1 = time_out tv2.
Proof.
  assert (graph_wf example_graph) as Hwf by (apply graph_wfb_wf; reflexivity).
  split; [exact Hwf|].
  apply (C8_traversal_deterministic example_graph 0
           (TimeDFSVisitor_new 4) (mkTime 0 [5; 5; 5; 5] [9; 8; 7; 6]) 4 7 Hwf).
  - right. unfold in_graph, vertex_count. simpl. lia.
  - vm_compute. discriminate.
  - repeat split.
  - repeat split.
  - unfold vertex_count. simpl. lia.
  - unfold vertex_count. simpl. lia.
Defined.
(** ** Ancestor queries *)

(** The driver answers each in-range query with the containment test. *)
Lemma main_answers (parents : list Z) :
  parents_ok parents → 2 * Z.of_nat (length parents) ≤ INT_MAX →
  ∃ tv,
    timestamps parents = Ok tv ∧
    ∀ queries,
      Forall (λ q, 1 ≤ q.1 ≤ Z.of_nat (length parents) ∧
                   1 ≤ q.2 ≤ Z.of_nat (length parents)) queries →
      main parents queries
      = Ok ((λ q, if decide (contains tv (q.1 - 1) (q.2 - 1)) then 1 else 0)
              <$> queries).
Proof.
  intros Hok Hint.
  destruct (timestamps_defined parents Hok Hint)
    as (g & start & t & w & cm' & tv & Hb & Hdfs & Hrun & Hts & Hsz).
  exists tv. split; [done|].
  intros queries Hq. unfold main. rewrite Hts. simpl.
  by apply (answer_queries_spec (length parents)).
Qed.

(** C1, as amended.  For every in-range query the program writes [1]
    exactly when [time_in[a] <= time_in[v]] and [time_out[v] <= time_out[a]]
    (0-based); this condition implies that [a] is an ancestor-or-self of
    [v] on every input, and is equivalent to it when the input is a tree
    with a unique root; the query [(v, v)] always resolves to [1]. *)
Theorem C1_query_resolution (parents : list Z) :
  parents_ok parents → 2 * Z.of_nat (length parents) ≤ INT_MAX →
  ∃ tv,
    timestamps parents = Ok tv ∧
    time_sized (length parents) tv ∧
    (∀ queries,
       Forall (λ q, 1 ≤ q.1 ≤ Z.of_nat (length parents) ∧
                    1 ≤ q.2 ≤ Z.of_nat (length parents)) queries →
       main parents queries
       = Ok ((λ q, if decide (contains tv (q.1 - 1) (q.2 - 1)) then 1 else 0)
               <$> queries)) ∧
    (∀ a v, 0 ≤ a < Z.of_nat (length parents) →
            0 ≤ v < Z.of_nat (length parents) →
       (contains tv a v → ancestor_or_self parents a v) ∧
       (∀ r, rooted_tree parents r →
             (contains tv a v ↔ ancestor_or_self parents a v))) ∧
    (∀ v, 0 ≤ v < Z.of_nat (length parents) →
       main parents [(v + 1, v + 1)] = Ok [1]).
Proof.
  intros Hok Hint.
  destruct (timestamps_defined parents Hok Hint)
    as (g & start & t & w & cm' & tv & Hb & Hdfs & Hrun & Hts & Hsz).
  assert (∀ queries,
       Forall (λ q, 1 ≤ q.1 ≤ Z.of_nat (length parents) ∧
                    1 ≤ q.2 ≤ Z.of_nat (length parents)) queries →
       main parents queries
       = Ok ((λ q, if decide (contains tv (q.1 - 1) (q.2 - 1)) then 1 else 0)
               <$> queries)) as Hmain.
  { intros queries Hq. unfold main. rewrite Hts. simpl.
    by apply (answer_queries_spec (length parents)). }
  exists tv. split_and!; try done.
  - intros a v Ha Hv. split.
    + by apply contains_ancestor.
    + intros r Htree. split; [by apply contains_ancestor|].
      by eapply ancestor_contains.
  - intros v Hv. rewrite Hmain by (repeat constructor; simpl; lia). simpl.
    rewrite decide_True; [done|]. split; lia.
Qed.

Lemma C1_witness :
  parents_ok example_parents ∧
  ∃ tv,
    timestamps example_parents = Ok tv ∧
    time_sized (length example_parents) tv ∧
    (∀ queries,
       Forall (λ q, 1 ≤ q.1 ≤ Z.of_nat (length example_parents) ∧
                    1 ≤ q.2 ≤ Z.of_nat (length example_parents)) queries →
       main example_parents queries
       = Ok ((λ q, if decide (contains tv (q.1 - 1) (q.2 - 1)) then 1 else 0)
               <$> queries)) ∧
    (∀ a v, 0 ≤ a < Z.of_nat (length example_parents) →
            0 ≤ v < Z.of_nat (length example_parents) →
       (contains tv a v → ancestor_or_self example_parents a v) ∧
       (∀ r, rooted_tree example_parents r →
             (contains tv a v ↔ ancestor_or_self example_parents a v))) ∧
    (∀ v, 0 ≤ v < Z.of_nat (length example_parents) →
       main example_parents [(v + 1, v + 1)] = Ok [1]).
Proof.
  assert (parents_ok example_parents) as Hok.
  { apply parents_ok_Forall. repeat constructor; simpl; lia. }
  split; [exact Hok|].
  apply (C1_query_resolution example_parents Hok).
  vm_compute. discriminate.
Defined.

(** C1 as stated fails on a forest with three roots: vertex 2 is the parent
    of vertex 0, yet the intervals are not nested and the query (3, 1)
    is answered [0]. *)
Lemma C1_counterexample :
  forest three_roots ∧
  ancestor_or_self three_roots 2 0 ∧
  (∃ tv, timestamps three_roots = Ok tv ∧ ¬ contains tv 2 0) ∧
  main three_roots [(3, 1)] = Ok [0].
Proof.
  split_and!.
  - split.
    + apply parents_ok_Forall. repeat constructor; simpl; lia.
    + apply acyclicb_acyclic. reflexivity.
  - apply anc_parent with 2; [reflexivity|constructor].
  - eexists. split; [reflexivity|]. intros [H _]. vm_compute in H. by apply H.
  - reflexivity.
Qed.

(** C2, as amended.  When the input is a tree with a unique root, the query
    (p, v) resolves to [1] for every vertex [v] with direct parent [p]; on
    every input, the query (a, v) resolves to [0] for every vertex [a] that
    is not an ancestor-or-self of [v]. *)
Theorem C2_parent_and_non_ancestor (parents : list Z) :
  parents_ok parents → 2 * Z.of_nat (length parents) ≤ INT_MAX →
  (∀ r v p, rooted_tree parents r → parent_of parents v = Some p →
     main parents [(p + 1, v + 1)] = Ok [1]) ∧
  (∀ a v, 0 ≤ a < Z.of_nat (length parents) →
          0 ≤ v < Z.of_nat (length parents) →
     ¬ ancestor_or_self parents a v →
     main parents [(a + 1, v + 1)] = Ok [0]).
Proof.
  intros Hok Hint.
  destruct (main_answers parents Hok Hint) as (tv & Hts & Hmain).
  split.
  - intros r v p Htree Hp.
    destruct (parent_of_range _ _ _ Hok Hp) as [Hv Hpr].
    rewrite Hmain by (repeat constructor; simpl; lia). simpl.
    rewrite decide_True; [done|].
    replace (p + 1 - 1) with p by lia. replace (v + 1 - 1) with v by lia.
    eapply ancestor_contains; try done.
    eapply anc_parent; [done|constructor].
  - intros a v Ha Hv Hna.
    rewrite Hmain by (repeat constructor; simpl; lia). simpl.
    rewrite decide_False; [done|].
    replace (a + 1 - 1) with a by lia. replace (v + 1 - 1) with v by lia.
    intros Hc. apply Hna. by apply (contains_ancestor parents tv).
Qed.
Lemma C2_witness :
  parents_ok example_parents ∧
  (∀ r v p, rooted_tree example_parents r →
     parent_of example_parents v = Some p →
     main example_parents [(p + 1, v + 1)] = Ok [1]) ∧
  (∀ a v, 0 ≤ a < Z.of_nat (length example_parents) →
          0 ≤ v < Z.of_nat (length example_parents) →
     ¬ ancestor_or_self example_parents a v →
     main example_parents [(a + 1, v + 1)] = Ok [0]).
Proof.
  assert (parents_ok example_parents) as Hok.
  { apply parents_ok_Forall. repeat constructor; simpl; lia. }
  split; [exact Hok|].
  apply (C2_parent_and_non_ancestor example_parents Hok).
  vm_compute. discriminate.
Defined.

(** C2 as stated fails on a forest with two roots: vertex 1 is the direct
    parent of vertex 0, and the query (2, 1) is answered [0]. *)
Lemma C2_counterexample :
  forest two_roots ∧
  parent_of two_roots 0 = Some 1 ∧
  main two_roots [(2, 1)] = Ok [0].
Proof.
  split_and!.
  - split.
    + apply parents_ok_Forall. repeat constructor; simpl; lia.
    + apply acyclicb_acyclic. reflexivity.
  - reflexivity.
  - reflexivity.
Qed.

(** ** The start vertex *)

(** C9. When no parent reference is [0] the driver passes the sentinel
    [-1]; [DepthFirstSearch] then consists of the initialisation and the
    sweep alone.  The run succeeds, so no vector is ever indexed with the
    sentinel (that would be [OutOfRange]); no callback is given the
    sentinel and no colour is written at it; every root is taken by the
    sweep; and every vertex is discovered and finished and receives both
    timestamps. *)
Theorem C9_no_root_sentinel (parents : list Z) :
  parents_ok parents → 0 ∉ parents →
  2 * Z.of_nat (length parents) ≤ INT_MAX →
  ∃ g cm' log rc tv,
    read_parents parents 0 (Graph_new (length parents)) (-1) = Ok (g, -1) ∧
    (DepthFirstSearch (CM := Colormap) g ([] : list Event) (-1)
     = '(colormap, visitor) ←
         initialize_vertices (NewColormap (length (GetVertices g))) []
           (GetVertices g);
       sweep_vertices (length (GetVertices g)) g colormap visitor
         (GetVertices g)) ∧
    DepthFirstSearch (CM := Colormap) g ([] : list Event) (-1) = Ok (cm', log) ∧
    (∀ A (l : list A), vec_get l (-1) = OutOfRange) ∧
    (∀ ev, ev ∈ log → -1 ∉ event_vertices ev) ∧
    started log `sublist_of` GetVertices g ∧
    DepthFirstSearch (CM := RecordingColormap) g ([] : list Event) (-1)
      = Ok (rc, log) ∧
    (∀ cw, cw ∈ rc_writes rc → cw_vertex cw ≠ -1) ∧
    timestamps parents = Ok tv ∧
    (∀ v, 0 ≤ v < Z.of_nat (length parents) →
       v ∈ discovered log ∧ v ∈ finished log ∧
       vec_get (time_in tv) v = Ok (tin tv v) ∧
       vec_get (time_out tv) v = Ok (tout tv v) ∧
       0 ≤ tin tv v < tout tv v).
Proof.
  intros Hok Hno Hint.
  destruct (read_parents_spec parents Hok) as (g & start & Hread & Hb).
  assert (start = -1) as ->.
  { destruct Hb as (_ & _ & _ & [[-> _]|(i & _ & Hi & _)]); [done|].
    destruct Hno. by eapply list_elem_of_lookup_2. }
  pose proof (built_vertex_count _ _ _ Hb) as Hn.
  pose proof (built_wf _ _ _ Hb) as Hwf.
  assert (2 * Z.of_nat (vertex_count g) ≤ INT_MAX) as Hint' by by rewrite Hn.
  destruct (timestamps_run g (-1) (TimeDFSVisitor_new (vertex_count g)) Hwf
              ltac:(by left) Hint' (new_time_sized _) eq_refl)
    as (t & w & cm' & tv & Hdfs & Hrun & Hsearch).
  exists g, cm', t, (mkRecording cm' w), tv.
  destruct (dfs_discovered _ _ _ _ _ Hwf Hdfs) as [_ Hd].
  destruct (dfs_finished _ _ _ _ _ Hwf Hdfs) as [_ Hf].
  split_and!.
  - done.
  - reflexivity.
  - by rewrite (dfs_run g (-1) t w cm' [] Hdfs), replay_trace.
  - intros A l. reflexivity.
  - intros ev Hev Hin. pose proof (dfs_in_graph _ _ _ _ _ Hwf Hdfs ev (-1) Hev Hin)
      as Hg. unfold in_graph in Hg. lia.
  - destruct (dfs_started _ _ _ _ _ Hdfs) as (roots & Hsub & ->). done.
  - by rewrite (dfs_run_recording g (-1) t w cm' [] Hdfs), replay_trace.
  - intros cw Hcw Heq. simpl in Hcw.
    assert (cw ∈ writes_of (-1) w) as Hin by by apply list_elem_of_filter.
    rewrite (dfs_writes_outside g (-1) t w cm' (-1) Hwf Hdfs) in Hin.
    + by apply not_elem_of_nil in Hin.
    + unfold in_graph. lia.
  - unfold timestamps. rewrite Hread. simpl. rewrite <- Hn, Hsearch. done.
  - intros v Hv. assert (in_graph g v) as Hg by by apply (built_in_graph _ _ _ Hb).
    destruct (stamps_vec_get g (-1) t w cm' _ tv Hwf Hdfs Hint'
                (new_time_sized _) eq_refl Hrun v Hg) as [? ?].
    destruct (stamps_bounds g (-1) t w cm' _ tv Hwf Hdfs Hint'
                (new_time_sized _) eq_refl Hrun v Hg) as [? ?].
    split_and!; try done; try lia.
    + rewrite Hd. by apply wf_vertices.
    + rewrite Hf. by apply wf_vertices.
Qed.

Lemma C9_witness :
  parents_ok no_root ∧
  ∃ g cm' log rc tv,
    read_parents no_root 0 (Graph_new (length no_root)) (-1) = Ok (g, -1) ∧
    (DepthFirstSearch (CM := Colormap) g ([] : list Event) (-1)
     = '(colormap, visitor) ←
         initialize_vertices (NewColormap (length (GetVertices g))) []
           (GetVertices g);
       sweep_vertices (length (GetVertices g)) g colormap visitor
         (GetVertices g)) ∧
    DepthFirstSearch (CM := Colormap) g ([] : list Event) (-1) = Ok (cm', log) ∧
    (∀ A (l : list A), vec_get l (-1) = OutOfRange) ∧
    (∀ ev, ev ∈ log → -1 ∉ event_vertices ev) ∧
    started log `sublist_of` GetVertices g ∧
    DepthFirstSearch (CM := RecordingColormap) g ([] : list Event) (-1)
      = Ok (rc, log) ∧
    (∀ cw, cw ∈ rc_writes rc → cw_vertex cw ≠ -1) ∧
    timestamps no_root = Ok tv ∧
    (∀ v, 0 ≤ v < Z.of_nat (length no_root) →
       v ∈ discovered log ∧ v ∈ finished log ∧
       vec_get (time_in tv) v = Ok (tin tv v) ∧
       vec_get (time_out tv) v = Ok (tout tv v) ∧
       0 ≤ tin tv v < tout tv v).
Proof.
  assert (parents_ok no_root) as Hok.
  { apply parents_ok_Forall. repeat constructor; simpl; lia. }
  split; [exact Hok|].
  apply (C9_no_root_sentinel no_root Hok).
  - unfold no_root. rewrite !elem_of_cons, elem_of_nil. lia.
  - vm_compute. discriminate.
Defined.

(** C10. When the input is a tree with a unique root, the traversal starts
    at the root and nowhere else, and every edge it examines is classified
    as a tree edge: [BackEdge] and [ForwardOrCrossEdge] are never called. *)
Theorem C10_tree_edges_only (parents : list Z) (r : Vertex) :
  rooted_tree parents r →
  ∃ g cm' log,
    read_parents parents 0 (Graph_new (length parents)) (-1) = Ok (g, r) ∧
    DepthFirstSearch (CM := Colormap) g ([] : list Event) r = Ok (cm', log) ∧
    non_tree log = [] ∧
    (∀ e, (EvBackEdge e ∉ log) ∧ (EvForwardOrCrossEdge e ∉ log)) ∧
    tree_edges log ≡ₚ examined log ∧
    examined log ≡ₚ all_edges g ∧
    started log = [r].
Proof.
  intros Htree. pose proof (tree_ok _ _ Htree) as Hok.
  destruct (read_parents_spec parents Hok) as (g & start & Hread & Hb).
  destruct (tree_start _ _ _ _ Htree Hb) as [-> Hr].
  pose proof (built_wf _ _ _ Hb) as Hwf.
  destruct (dfs_rel_total g r Hwf ltac:(by right)) as (t & w & cm' & Hdfs).
  destruct (tree_dfs _ _ _ _ _ _ _ Htree Hb Hdfs) as [Hnt Hst].
  exists g, cm', t. split_and!; try done.
  - by rewrite (dfs_run g r t w cm' [] Hdfs), replay_trace.
  - intros e. split; intros He.
    + assert (e ∈ non_tree t) as Hin
        by (apply list_elem_of_omap; by exists (EvBackEdge e)).
      rewrite Hnt in Hin. by apply not_elem_of_nil in Hin.
    + assert (e ∈ non_tree t) as Hin
        by (apply list_elem_of_omap; by exists (EvForwardOrCrossEdge e)).
      rewrite Hnt in Hin. by apply not_elem_of_nil in Hin.
  - rewrite (dfs_classified _ _ _ _ _ Hdfs), Hnt. by rewrite app_nil_r.
  - by eapply dfs_examined.
Qed.

Lemma C10_witness :
  rooted_tree example_parents 0 ∧
  ∃ g cm' log,
    read_parents example_parents 0 (Graph_new (length example_parents)) (-1)
      = Ok (g, 0) ∧
    DepthFirstSearch (CM := Colormap) g ([] : list Event) 0 = Ok (cm', log) ∧
    non_tree log = [] ∧
    (∀ e, (EvBackEdge e ∉ log) ∧ (EvForwardOrCrossEdge e ∉ log)) ∧
    tree_edges log ≡ₚ examined log ∧
    examined log ≡ₚ all_edges g ∧
    started log = [0].
Proof.
  assert (rooted_tree example_parents 0) as Htree.
  { apply rooted_tree_check; [repeat constructor; simpl; lia|reflexivity..]. }
  split; [exact Htree|].
  apply (C10_tree_edges_only example_parents 0 Htree).
Defined.

(** * Further properties of the code *)

(** ** The adjacency-list graph *)

Lemma concat_insert_snoc (l : list (list Edge)) i es e :
  l !! i = Some es → concat (<[i := es ++ [e]]> l) ≡ₚ e :: concat l.
Proof.
  revert i. induction l as [|x l IH]; intros [|i] Hi; simplify_eq/=.
  - rewrite <- (assoc (++)). simpl. by rewrite <- Permutation_middle.
  - rewrite (IH i Hi). by rewrite <- Permutation_middle.
Qed.

(** X1. [AddEdge] appends the edge to the list of its source and changes
    nothing else: the vertices, and the edges of every other vertex, stay as
    they are; the order in which edges were added is kept.  The destination
    is not looked at. *)
Theorem X1_AddEdge_GetOutgoingEdges (g : Graph) (e : Edge) :
  0 ≤ source e < Z.of_nat (length (outgoing_edges_ g)) →
  ∃ g' es,
    AddEdge g e = Ok g' ∧
    GetOutgoingEdges g (source e) = Ok es ∧
    GetOutgoingEdges g' (source e) = Ok (es ++ [e]) ∧
    (∀ u, u ≠ source e → GetOutgoingEdges g' u = GetOutgoingEdges g u) ∧
    GetVertices g' = GetVertices g ∧
    all_edges g' ≡ₚ e :: all_edges g.
Proof.
  intros Hs. destruct (vec_get_in_range _ _ Hs) as [es Hes].
  unfold AddEdge. rewrite Hes. simpl. rewrite (vec_set_Ok _ _ _ _ Hes). simpl.
  eexists _, es. split; [done|]. unfold GetOutgoingEdges, all_edges. simpl.
  split_and!; try done.
  - by eapply vec_get_insert_eq.
  - intros u Hu. apply vec_get_insert_ne; [lia|done].
  - apply concat_insert_snoc. by apply vec_get_Ok in Hes as [_ ?].
Qed.

Lemma X1_witness :
  0 ≤ source (mkEdge 2 7) < Z.of_nat (length (outgoing_edges_ example_graph)) ∧
  ∃ g' es,
    AddEdge example_graph (mkEdge 2 7) = Ok g' ∧
    GetOutgoingEdges example_graph (source (mkEdge 2 7)) = Ok es ∧
    GetOutgoingEdges g' (source (mkEdge 2 7)) = Ok (es ++ [mkEdge 2 7]) ∧
    (∀ u, u ≠ source (mkEdge 2 7) →
       GetOutgoingEdges g' u = GetOutgoingEdges example_graph u) ∧
    GetVertices g' = GetVertices example_graph ∧
    all_edges g' ≡ₚ mkEdge 2 7 :: all_edges example_graph.
Proof.
  assert (0 ≤ source (mkEdge 2 7)
          < Z.of_nat (length (outgoing_edges_ example_graph))) as H
    by (simpl; lia).
  split; [exact H|]. exact (X1_AddEdge_GetOutgoingEdges example_graph _ H).
Defined.

(** X2. [AddEdge] and [GetOutgoingEdges] index the edge lists without a
    check: with a source (a vertex) outside [0, size) the model reports
    [OutOfRange], whatever the destination is. *)
Theorem X2_AddEdge_out_of_range (g : Graph) (e : Edge) :
  ¬ (0 ≤ source e < Z.of_nat (length (outgoing_edges_ g))) →
  AddEdge g e = OutOfRange ∧ GetOutgoingEdges g (source e) = OutOfRange.
Proof.
  intros Hs.
  assert (vec_get (outgoing_edges_ g) (source e) = OutOfRange) as Hget.
  { destruct (vec_get (outgoing_edges_ g) (source e)) eqn:E; try done.
    - by apply vec_get_range in E.
    - unfold vec_get in E. repeat case_match; done. }
  unfold AddEdge, GetOutgoingEdges. by rewrite Hget.
Qed.

Lemma X2_witness :
  ¬ (0 ≤ source (mkEdge 4 0) < Z.of_nat (length (outgoing_edges_ example_graph))) ∧
  AddEdge example_graph (mkEdge 4 0) = OutOfRange ∧
  GetOutgoingEdges example_graph (source (mkEdge 4 0)) = OutOfRange.
Proof.
  assert (¬ (0 ≤ source (mkEdge 4 0)
             < Z.of_nat (length (outgoing_edges_ example_graph)))) as H
    by (simpl; lia).
  split; [exact H|]. exact (X2_AddEdge_out_of_range example_graph _ H).
Defined.

(** X3. The constructor [Graph(n)] yields the well-formed graph with the
    vertices [0 .. n-1] in order and no edge: every vertex of the graph has
    an empty edge list, and asking for the edges of any other vertex is out
    of range. *)
Theorem X3_Graph_new (n : nat) :
  graph_wf (Graph_new n) ∧
  vertex_count (Graph_new n) = n ∧
  GetVertices (Graph_new n) = Z.of_nat <$> seq 0 n ∧
  all_edges (Graph_new n) = [] ∧
  ∀ v, GetOutgoingEdges (Graph_new n) v
       = if decide (0 ≤ v < Z.of_nat n) then Ok [] else OutOfRange.
Proof.
  assert (vertex_count (Graph_new n) = n) as Hn.
  { unfold vertex_count. simpl. by rewrite length_fmap, length_seq. }
  split_and!; try done.
  - unfold graph_wf. fold (vertex_count (Graph_new n)). rewrite Hn. simpl.
    split_and!; [done|apply length_replicate|].
    intros v es e [-> _]%lookup_replicate He. by apply not_elem_of_nil in He.
  - unfold all_edges. simpl. clear Hn. induction n as [|n IH]; [done|exact IH].
  - intros v. unfold GetOutgoingEdges. simpl. case_decide as Hv.
    + apply vec_get_Ok. split; [lia|]. apply lookup_replicate_2. lia.
    + destruct (vec_get (replicate n []) v) eqn:E; try done.
      * apply vec_get_range in E. rewrite length_replicate in E. done.
      * unfold vec_get in E. repeat case_match; done.
Qed.

(** X4. Adding an edge between two vertices of a well-formed graph keeps it
    well-formed, with the same vertices. *)
Theorem X4_AddEdge_well_formed (g : Graph) (e : Edge) :
  graph_wf g → in_graph g (source e) → in_graph g (destination e) →
  ∃ g', AddEdge g e = Ok g' ∧ graph_wf g' ∧ vertex_count g' = vertex_count g.
Proof.
  intros (Hvs & Hlen & Hes) Hs Hd. unfold in_graph, vertex_count in *.
  destruct (vec_get_in_range (outgoing_edges_ g) (source e)) as [es Hget]; [lia|].
  unfold AddEdge. rewrite Hget. simpl. rewrite (vec_set_Ok _ _ _ _ Hget). simpl.
  eexists. split; [done|]. split; [|done]. unfold graph_wf. simpl.
  rewrite length_insert. split_and!; try done.
  apply vec_get_Ok in Hget as [_ Hget].
  intros v es' e' Hv He'. destruct (decide (v = Z.to_nat (source e))) as [->|Hne].
  - rewrite list_lookup_insert_eq in Hv by lia. simplify_eq.
    apply elem_of_app in He' as [He'|He'].
    + by eapply Hes.
    + apply list_elem_of_singleton in He' as ->. split; [lia|done].
  - rewrite list_lookup_insert_ne in Hv by done. by eapply Hes.
Qed.

Lemma X4_witness :
  graph_wf example_graph ∧
  ∃ g', AddEdge example_graph (mkEdge 3 1) = Ok g' ∧ graph_wf g' ∧
        vertex_count g' = vertex_count example_graph.
Proof.
  assert (graph_wf example_graph) as Hwf by (apply graph_wfb_wf; reflexivity).
  split; [exact Hwf|].
  apply (X4_AddEdge_well_formed example_graph (mkEdge 3 1) Hwf);
    unfold in_graph, vertex_count; simpl; lia.
Defined.

(** ** The array-backed colormap *)

(** X5. [Colormap(n)] is all white; [SetColor] followed by [GetColor] at the
    same vertex returns the colour set, leaves every other vertex and the
    size alone; both operations are out of range exactly outside [0, size). *)
Theorem X5_Colormap_set_get (cm : list Color) (v : Vertex) (c : Color) :
  (∀ n u, GetColor (NewColormap n : list Color) u
          = if decide (0 ≤ u < Z.of_nat n) then Ok kWhite else OutOfRange) ∧
  (0 ≤ v < Z.of_nat (length cm) →
   ∃ cm' : list Color,
     SetColor cm v c = Ok cm' ∧ GetColor cm' v = Ok c ∧
     length cm' = length cm ∧
     ∀ u, u ≠ v → GetColor cm' u = GetColor cm u) ∧
  (¬ (0 ≤ v < Z.of_nat (length cm)) →
   SetColor cm v c = OutOfRange ∧ GetColor cm v = OutOfRange).
Proof.
  assert (∀ (l : list Color) u, ¬ (0 ≤ u < Z.of_nat (length l)) →
            vec_get l u = OutOfRange) as Hout.
  { intros l u Hu. destruct (vec_get l u) eqn:E; try done.
    - by apply vec_get_range in E.
    - unfold vec_get in E. repeat case_match; done. }
  split_and!.
  - intros n u. simpl. case_decide as Hu.
    + by apply white_replicate.
    + apply Hout. by rewrite length_replicate.
  - intros Hv. simpl. unfold vec_set. rewrite decide_True by done.
    eexists. split; [done|]. split_and!.
    + destruct (vec_get_in_range cm v Hv) as [c0 Hc0]. by eapply vec_get_insert_eq.
    + apply length_insert.
    + intros u Hu. apply vec_get_insert_ne; [lia|done].
  - intros Hv. simpl. unfold vec_set. rewrite decide_False by done.
    split; [done|by apply Hout].
Qed.
(** ** The driver: reading the input *)

Lemma filter_ext_elem {A} (P Q : A → Prop) `{∀ x, Decision (P x)}
    `{∀ x, Decision (Q x)} (l : list A) :
  (∀ x, x ∈ l → P x ↔ Q x) → filter P l = filter Q l.
Proof.
  induction l as [|a l IH]; intros Hl; [done|].
  rewrite !filter_cons. rewrite IH by (intros; apply Hl; by right).
  destruct (decide (P a)) as [Hp|Hp], (decide (Q a)) as [Hq|Hq]; try done.
  - by apply (Hl a ltac:(left)) in Hp.
  - by apply (Hl a ltac:(left)) in Hq.
Qed.

Lemma children_snoc done p u :
  children (done ++ [p]) u
  = children done u ++ (if decide (p = u + 1) then [Z.of_nat (length done)] else []).
Proof.
  unfold children. rewrite length_app. simpl.
  rewrite Nat.add_1_r, seq_S, filter_app, fmap_app. simpl. f_equal.
  - f_equal. apply filter_ext_elem. intros c Hc%elem_of_seq.
    by rewrite lookup_app_l by lia.
  - rewrite filter_cons, filter_nil, list_lookup_middle by done.
    destruct (decide (p = u + 1)) as [->|Hne].
    + by rewrite decide_True.
    + rewrite decide_False; [done|]. by intros [= ?].
Qed.

(** The edge lists the loop of [main] has built after the references [done]. *)
Lemma read_parents_children n todo :
  ∀ done g start g' start',
    length (outgoing_edges_ g) = n →
    (∀ u, (u < n)%nat →
       outgoing_edges_ g !! u
       = Some (mkEdge (Z.of_nat u) <$> children done (Z.of_nat u))) →
    read_parents todo (Z.of_nat (length done)) g start = Ok (g', start') →
    ∀ u, (u < n)%nat →
      outgoing_edges_ g' !! u
      = Some (mkEdge (Z.of_nat u) <$> children (done ++ todo) (Z.of_nat u)).
Proof.
  induction todo as [|p todo IH]; intros done g start g' start' Hlen Hout Hrun.
  - simpl in Hrun. simplify_eq. by rewrite app_nil_r.
  - simpl in Hrun.
    replace (Z.of_nat (length done) + 1) with (Z.of_nat (length (done ++ [p])))
      in Hrun by (rewrite length_app; simpl; lia).
    rewrite (assoc_L (++) done [p] todo : done ++ p :: todo = (done ++ [p]) ++ todo).
    destruct (decide (p = 0)) as [->|Hp].
    + eapply IH; [done| |done]. intros u Hu. rewrite children_snoc.
      rewrite decide_False by lia. rewrite app_nil_r. by apply Hout.
    + destruct (AddEdge g _) as [g1| |] eqn:Hadd; simpl in Hrun; [|done..].
      unfold AddEdge in Hadd. simpl in Hadd.
      destruct (vec_get (outgoing_edges_ g) (p - 1)) as [es| |] eqn:Hes;
        simpl in Hadd; [|done..].
      rewrite (vec_set_Ok _ _ _ _ Hes) in Hadd. simpl in Hadd. simplify_eq.
      pose proof (vec_get_range _ _ _ Hes) as Hr.
      apply vec_get_Ok in Hes as [_ Hes].
      eapply IH; [|  |done]; simpl; [by rewrite length_insert|].
      intros u Hu. rewrite children_snoc.
      destruct (decide (u = Z.to_nat (p - 1))) as [->|Hne].
      * rewrite list_lookup_insert_eq by exact Hu. rewrite Hout in Hes by exact Hu.
        simplify_eq. rewrite decide_True by lia. rewrite fmap_app. simpl.
        by rewrite !Z2Nat.id by lia.
      * rewrite list_lookup_insert_ne by done. rewrite decide_False by lia.
        rewrite app_nil_r. by apply Hout.
Qed.

(** X6. For well-formed references the loop of [main] succeeds and builds a
    well-formed graph with one vertex per reference, in which the edges of
    [u] lead to the vertices whose reference names [u], in input order (so
    [u → c] is an edge exactly when [u] is the parent of [c]).  The start
    vertex it leaves is the last root of the input, or [-1] without any. *)
Theorem X6_read_parents_graph (parents : list Z) :
  parents_ok parents →
  ∃ g start,
    read_parents parents 0 (Graph_new (length parents)) (-1) = Ok (g, start) ∧
    graph_wf g ∧ vertex_count g = length parents ∧
    (∀ u, in_graph g u →
       GetOutgoingEdges g u = Ok (mkEdge u <$> children parents u)) ∧
    (∀ u c, edge g u c ↔ parent_of parents c = Some u) ∧
    ((start = -1 ∧ 0 ∉ parents) ∨
     (is_root parents start ∧ ∀ r, is_root parents r → r ≤ start)).
Proof.
  intros Hok.
  destruct (read_parents_spec parents Hok) as (g & start & Hrun & Hb).
  pose proof (built_vertex_count _ _ _ Hb) as Hn.
  exists g, start. split_and!; try done.
  - by eapply built_wf.
  - intros u Hu. unfold in_graph in Hu. rewrite Hn in Hu.
    apply vec_get_Ok. split; [lia|].
    pose proof (read_parents_children (length parents) parents []
                  (Graph_new (length parents)) (-1) g start) as Hc.
    simpl in Hc. rewrite Hc; try done.
    + by rewrite Z2Nat.id by lia.
    + apply length_replicate.
    + intros v Hv. by rewrite lookup_replicate_2 by done.
    + lia.
  - intros u c. apply (built_edge _ _ _ Hok Hb).
  - destruct Hb as (_ & _ & _ & [[-> Hno]|(i & -> & Hi & Hlast)]); [by left|right].
    split.
    + apply vec_get_Ok. split; [lia|]. by rewrite Nat2Z.id.
    + intros r [Hr Hlk]%vec_get_Ok.
      destruct (decide (r ≤ Z.of_nat i)) as [|Hgt]; [done|].
      destruct (Hlast (Z.to_nat r)); [lia|done].
Qed.

Lemma X6_witness :
  parents_ok example_parents ∧
  ∃ g start,
    read_parents example_parents 0 (Graph_new (length example_parents)) (-1)
      = Ok (g, start) ∧
    graph_wf g ∧ vertex_count g = length example_parents ∧
    (∀ u, in_graph g u →
       GetOutgoingEdges g u = Ok (mkEdge u <$> children example_parents u)) ∧
    (∀ u c, edge g u c ↔ parent_of example_parents c = Some u) ∧
    ((start = -1 ∧ 0 ∉ example_parents) ∨
     (is_root example_parents start ∧
      ∀ r, is_root example_parents r → r ≤ start)).
Proof.
  assert (parents_ok example_parents) as Hok.
  { apply parents_ok_Forall. repeat constructor; simpl; lia. }
  split; [exact Hok|]. exact (X6_read_parents_graph example_parents Hok).
Defined.

Lemma AddEdge_length g e g' :
  AddEdge g e = Ok g' → length (outgoing_edges_ g') = length (outgoing_edges_ g).
Proof.
  unfold AddEdge. destruct (vec_get _ _) as [es| |] eqn:Hes; simpl; [|done..].
  rewrite (vec_set_Ok _ _ _ _ Hes). simpl. intros [= <-]. simpl.
  apply length_insert.
Qed.

Lemma AddEdge_out_of_range g e :
  ¬ (0 ≤ source e < Z.of_nat (length (outgoing_edges_ g))) →
  AddEdge g e = OutOfRange.
Proof.
  intros Hs. unfold AddEdge.
  destruct (vec_get (outgoing_edges_ g) (source e)) eqn:E; try done.
  - by apply vec_get_range in E.
  - unfold vec_get in E. repeat case_match; done.
Qed.

Lemma read_parents_fails n todo :
  ∀ vertex g start,
    length (outgoing_edges_ g) = n →
    Exists (λ p, ¬ (0 ≤ p ≤ Z.of_nat n)) todo →
    read_parents todo vertex g start = OutOfRange.
Proof.
  induction todo as [|p todo IH]; intros vertex g start Hlen Hbad.
  - by apply Exists_nil in Hbad.
  - simpl. apply Exists_cons in Hbad. destruct (decide (p = 0)) as [->|Hp].
    + destruct Hbad as [Hbad|Hbad]; [lia|]. by apply IH.
    + destruct (decide (0 ≤ p ≤ Z.of_nat n)) as [Hin|Hout].
      * destruct Hbad as [Hbad|Hbad]; [done|].
        destruct (AddEdge g _) as [g1| |] eqn:Hadd; simpl; try done.
        -- apply IH; [|done]. by rewrite (AddEdge_length _ _ _ Hadd).
        -- unfold AddEdge in Hadd. simpl in Hadd.
           destruct (vec_get_in_range (outgoing_edges_ g) (p - 1)) as [es Hes];
             [lia|].
           rewrite Hes in Hadd. simpl in Hadd.
           by rewrite (vec_set_Ok _ _ _ _ Hes) in Hadd.
      * rewrite (AddEdge_out_of_range g (mkEdge (p - 1) vertex)); [done|].
        simpl. lia.
Qed.

(** X7. A parent reference outside [0 .. V] makes the loop of [main] index
    the edge lists out of range: no graph is built and no timestamps or
    answers are produced. *)
Theorem X7_read_parents_out_of_range (parents : list Z) (queries : list (Z * Z)) :
  ¬ parents_ok parents →
  read_parents parents 0 (Graph_new (length parents)) (-1) = OutOfRange ∧
  timestamps parents = OutOfRange ∧
  main parents queries = OutOfRange.
Proof.
  intros Hbad.
  assert (read_parents parents 0 (Graph_new (length parents)) (-1) = OutOfRange)
    as Hread.
  { apply (read_parents_fails (length parents)); [apply length_replicate|].
    apply not_Forall_Exists; [apply _|]. intros Hall. apply Hbad.
    by apply parents_ok_Forall. }
  unfold main, timestamps. by rewrite Hread.
Qed.

Lemma X7_witness :
  ¬ parents_ok [0; 5] ∧
  read_parents [0; 5] 0 (Graph_new (length [0; 5 : Z])) (-1) = OutOfRange ∧
  timestamps [0; 5] = OutOfRange ∧
  main [0; 5] [(1, 1)] = OutOfRange.
Proof.
  assert (¬ parents_ok [0; 5]) as H.
  { intros Hok. specialize (Hok 5). simpl in Hok.
    assert (5 ∈ [0; 5 : Z]) as Hin by (right; left). specialize (Hok Hin). lia. }
  split; [exact H|]. exact (X7_read_parents_out_of_range [0; 5] [(1, 1)] H).
Defined.
(** ** The driver: answering the queries *)

Lemma vec_get_out_of_range {A} (l : list A) i :
  ¬ (0 ≤ i < Z.of_nat (length l)) → vec_get l i = OutOfRange.
Proof.
  intros Hi. destruct (vec_get l i) eqn:E; try done.
  - by apply vec_get_range in E.
  - unfold vec_get in E. repeat case_match; done.
Qed.

Lemma answer_query_out_of_range n tv q :
  time_sized n tv → ¬ query_ok n q → answer_query tv q = OutOfRange.
Proof.
  intros [Hin Hout] Hq. destruct q as [qa qv]. unfold query_ok in Hq.
  simpl in Hq. unfold answer_query. simpl.
  destruct (decide (0 ≤ qa - 1 < Z.of_nat n)) as [Ha|Ha].
  - rewrite (vec_get_default (time_in tv) (qa - 1)) by lia. simpl.
    rewrite (vec_get_out_of_range (time_in tv) (qv - 1)) by lia. done.
  - rewrite (vec_get_out_of_range (time_in tv) (qa - 1)) by lia. done.
Qed.

Lemma answer_queries_out_of_range n tv queries :
  time_sized n tv → Exists (λ q, ¬ query_ok n q) queries →
  answer_queries tv queries = OutOfRange.
Proof.
  intros Hs. induction queries as [|q qs IH]; intros Hbad.
  - by apply Exists_nil in Hbad.
  - simpl. destruct (decide (query_ok n q)) as [Hq|Hq].
    + apply Exists_cons in Hbad as [?|Hbad]; [done|]. rewrite (IH Hbad).
      destruct q as [qa qv]. destruct Hq as [Ha Hv]. simpl in *.
      rewrite (answer_query_spec n) by (done || lia). done.
    + by rewrite (answer_query_out_of_range n).
Qed.

(** X8. For well-formed references [main] writes one line per query, each
    [0] or [1], when every query names two vertices of the input; a single
    query outside [1 .. V] makes it read a timestamp vector out of range,
    and nothing of the output is defined, not even the answers before it. *)
Theorem X8_main_queries (parents : list Z) (queries : list (Z * Z)) :
  parents_ok parents → 2 * Z.of_nat (length parents) ≤ INT_MAX →
  (Forall (query_ok (length parents)) queries →
   ∃ out, main parents queries = Ok out ∧ length out = length queries ∧
          Forall (λ x, x = 0 ∨ x = 1) out) ∧
  (¬ Forall (query_ok (length parents)) queries →
   main parents queries = OutOfRange).
Proof.
  intros Hok Hint.
  destruct (timestamps_defined parents Hok Hint)
    as (g & start & t & w & cm' & tv & Hb & Hdfs & Hrun & Hts & Hsz).
  unfold main. rewrite Hts. simpl. split.
  - intros Hq. rewrite (answer_queries_spec (length parents)) by done.
    eexists. split; [done|]. split; [by rewrite length_fmap|].
    apply Forall_fmap, Forall_forall. intros q _. simpl. case_decide; auto.
  - intros Hq. apply (answer_queries_out_of_range (length parents)); [done|].
    by apply not_Forall_Exists; [apply _|].
Qed.

Lemma X8_witness :
  parents_ok example_parents ∧
  (Forall (query_ok (length example_parents)) [(1, 4); (2, 4)] →
   ∃ out, main example_parents [(1, 4); (2, 4)] = Ok out ∧
          length out = length [(1, 4); (2, 4 : Z)] ∧
          Forall (λ x, x = 0 ∨ x = 1) out) ∧
  (¬ Forall (query_ok (length example_parents)) [(1, 4); (2, 4)] →
   main example_parents [(1, 4); (2, 4)] = OutOfRange).
Proof.
  assert (parents_ok example_parents) as Hok.
  { apply parents_ok_Forall. repeat constructor; simpl; lia. }
  split; [exact Hok|].
  apply (X8_main_queries example_parents [(1, 4); (2, 4)] Hok).
  vm_compute. discriminate.
Defined.
(** ** The engine and its visitor *)

(** X9. The traversal does not depend on the visitor: whatever visitor is
    attached, it is given exactly the callbacks the logging visitor records,
    in that order, and the colours end the same; a callback that fails stops
    the traversal with that failure. *)
Theorem X9_visitor_independence {VS : Type} `{!IDFSVisitor VS}
    (g : Graph) (start : Vertex) (visitor : VS) :
  graph_wf g → start = -1 ∨ in_graph g start →
  ∃ cm' log,
    DepthFirstSearch (CM := Colormap) g ([] : list Event) start = Ok (cm', log) ∧
    DepthFirstSearch (CM := Colormap) g visitor start
    = visitor' ← replay log visitor; Ok (cm', visitor').
Proof.
  intros Hwf Hstart.
  destruct (dfs_rel_total g start Hwf Hstart) as (t & w & cm' & Hdfs).
  exists cm', t. split.
  - by rewrite (dfs_run g start t w cm' [] Hdfs), replay_trace.
  - apply (dfs_run g start t w cm' visitor Hdfs).
Qed.

Lemma X9_witness :
  graph_wf example_graph ∧
  ∃ cm' log,
    DepthFirstSearch (CM := Colormap) example_graph ([] : list Event) 0
      = Ok (cm', log) ∧
    DepthFirstSearch (CM := Colormap) example_graph (TimeDFSVisitor_new 4) 0
    = visitor' ← replay log (TimeDFSVisitor_new 4); Ok (cm', visitor').
Proof.
  assert (graph_wf example_graph) as Hwf by (apply graph_wfb_wf; reflexivity).
  split; [exact Hwf|].
  apply (X9_visitor_independence example_graph 0 (TimeDFSVisitor_new 4) Hwf).
  right. unfold in_graph, vertex_count. simpl. lia.
Defined.

Lemma initialize_length {VS : Type} `{!IDFSVisitor VS}
    (cm cm' : list Color) (s s' : VS) vs :
  initialize_vertices cm s vs = Ok (cm', s') → length cm' = length cm.
Proof.
  revert cm s. induction vs as [|v vs IH]; intros cm s; simpl.
  - by intros [= -> _].
  - unfold vec_set. case_decide; simpl; [|done].
    destruct (InitializeVertex v s) as [s1| |]; simpl; [|done..].
    intros Hrec%IH. by rewrite length_insert in Hrec.
Qed.

(** X10. A start vertex other than [-1] that is no vertex of the graph is
    passed to the visit unchecked, which indexes the colormap with it: the
    traversal has no result, whatever the graph and the visitor. *)
Theorem X10_start_out_of_range {VS : Type} `{!IDFSVisitor VS}
    (g : Graph) (start : Vertex) (visitor : VS) :
  start ≠ -1 → ¬ (0 ≤ start < Z.of_nat (length (GetVertices g))) →
  ∀ r, DepthFirstSearch (CM := Colormap) g visitor start ≠ Ok r.
Proof.
  intros Hne Hout r. unfold DepthFirstSearch, DepthFirstSearch_fuel.
  destruct (initialize_vertices _ visitor (GetVertices g)) as [[cm s]| |] eqn:Hinit;
    simpl; [|done..].
  apply initialize_length in Hinit. simpl in Hinit.
  rewrite length_replicate in Hinit.
  rewrite decide_True by done.
  destruct (StartVertex start s) as [s1| |]; simpl; [|done..].
  destruct (length (GetVertices g)) as [|fuel] eqn:Hn; simpl; [done|].
  unfold vec_set. rewrite decide_False by lia. done.
Qed.

Lemma X10_witness :
  (7 : Z) ≠ -1 ∧
  ∀ r, DepthFirstSearch (CM := Colormap) example_graph ([] : list Event) 7 ≠ Ok r.
Proof.
  assert ((7 : Z) ≠ -1) as H by lia.
  split; [exact H|].
  apply (X10_start_out_of_range example_graph 7 [] H). simpl. lia.
Defined.

(** X11. A visit of a white vertex [v] turns black exactly the vertices it
    discovers, which were white, include [v] and are all reachable from
    [v]; every other vertex keeps its colour (a gray one stays gray); and
    when it returns no edge leads from a vertex it discovered to a white
    vertex. *)
Theorem X11_visit_colours (g : Graph) (cm : list Color) (v : Vertex) (fuel : nat) :
  graph_wf g → length cm = vertex_count g → vec_get cm v = Ok kWhite →
  (white_count cm ≤ fuel)%nat →
  ∃ cm' log,
    DepthFirstSearchVisit (CM := Colormap) fuel g cm ([] : list Event) v
      = Ok (cm', log) ∧
    v ∈ discovered log ∧
    (∀ u, u ∈ discovered log →
       vec_get cm u = Ok kWhite ∧ vec_get cm' u = Ok kBlack ∧
       rtc (edge g) v u) ∧
    (∀ u, u ∉ discovered log → vec_get cm' u = vec_get cm u) ∧
    (∀ u x, u ∈ discovered log → edge g u x → nonwhite cm' x).
Proof.
  intros Hwf Hlen Hw Hfuel.
  destruct (visit_rel_total g Hwf fuel cm v Hlen Hfuel Hw) as (t & w & cm' & Hv).
  pose proof (visit_colours _ _ _ _ _ _ Hv) as (_ & _ & Hin & Hout).
  exists cm', t. split_and!; try done.
  - by rewrite (visit_run g cm v t w cm' fuel [] Hv Hfuel), replay_trace.
  - by eapply visit_discovers_self.
  - intros u Hu. destruct (Hin u Hu). split_and!; try done.
    by eapply (proj1 (rel_reach g)).
  - intros u x Hu Hux. by eapply (proj1 (rel_closed g)).
Qed.

Lemma X11_witness :
  graph_wf example_graph ∧
  ∃ cm' log,
    DepthFirstSearchVisit (CM := Colormap) 2 example_graph
      [kGray; kBlack; kWhite; kWhite] ([] : list Event) 2 = Ok (cm', log) ∧
    2 ∈ discovered log ∧
    (∀ u, u ∈ discovered log →
       vec_get [kGray; kBlack; kWhite; kWhite] u = Ok kWhite ∧
       vec_get cm' u = Ok kBlack ∧ rtc (edge example_graph) 2 u) ∧
    (∀ u, u ∉ discovered log →
       vec_get cm' u = vec_get [kGray; kBlack; kWhite; kWhite] u) ∧
    (∀ u x, u ∈ discovered log → edge example_graph u x → nonwhite cm' x).
Proof.
  assert (graph_wf example_graph) as Hwf by (apply graph_wfb_wf; reflexivity).
  split; [exact Hwf|].
  apply (X11_visit_colours example_graph [kGray; kBlack; kWhite; kWhite] 2 2 Hwf);
    [reflexivity|reflexivity|vm_compute; lia].
Defined.
(** ** Back edges close cycles *)

Lemma elem_of_back t e : EvBackEdge e ∈ EvDiscoverVertex (source e) :: t → EvBackEdge e ∈ t.
Proof. by intros [?|?]%elem_of_cons. Qed.

(** While a vertex is visited, every gray vertex reaches it; so the
    destination of a back edge reaches the source of that edge. *)
Lemma rel_back_edge g :
  graph_wf g →
  (∀ cm v t w cm', visit_rel g cm v t w cm' →
     (∀ x, vec_get cm x = Ok kGray → rtc (edge g) x v) →
     ∀ e, EvBackEdge e ∈ t →
       edge g (source e) (destination e) ∧
       rtc (edge g) (destination e) (source e)) ∧
  (∀ cm es t w cm', edges_rel g cm es t w cm' →
     ∀ v, (∀ e, e ∈ es → source e = v ∧ edge g v (destination e)) →
       (∀ x, vec_get cm x = Ok kGray → rtc (edge g) x v) →
       ∀ e, EvBackEdge e ∈ t →
         edge g (source e) (destination e) ∧
         rtc (edge g) (destination e) (source e)).
Proof.
  intros Hwf. apply visit_edges_rel_ind.
  - intros cm v es body wb cm1 Hw Hes Hbody IH Hg Hgray e He.
    pose proof (vec_get_range _ _ _ Hw) as Hr.
    apply elem_of_cons in He as [?|He]; [done|].
    apply elem_of_app in He as [He|He].
    2:{ apply list_elem_of_singleton in He. done. }
    apply (IH v); [| |done].
    + intros e' He'. destruct (wf_edge g v es e' Hwf Hes He') as [-> _].
      split; [done|]. by eapply edge_intro.
    + intros x Hx. destruct (decide (v = x)) as [->|Hne]; [done|].
      rewrite vec_get_paint_ne in Hx by (done || lia). by apply Hgray.
  - intros cm v _ _ e He. by apply not_elem_of_nil in He.
  - intros cm e rest t1 w1 cm1 t2 w2 cm2 Hw Hv IHv He IHe v Hsrc Hgray e' He'.
    destruct (Hsrc e ltac:(left)) as [Hs Hedge].
    apply elem_of_cons in He' as [?|He']; [done|].
    apply elem_of_app in He' as [He'|He'].
    + apply IHv; [|done]. intros x Hx. eapply rtc_r; [by apply Hgray|done].
    + apply elem_of_cons in He' as [?|He']; [done|].
      apply elem_of_cons in He' as [?|He']; [done|].
      apply (IHe v); [| |done].
      * intros e0 He0. apply Hsrc. by right.
      * intros x Hx. apply Hgray.
        pose proof (visit_colours _ _ _ _ _ _ Hv) as (_ & _ & Hin & Hout).
        destruct (decide (x ∈ discovered t1)) as [Hd|Hd].
        -- destruct (Hin x Hd). congruence.
        -- by rewrite <- (Hout x Hd).
  - intros cm e rest t2 w2 cm2 Hc He IHe v Hsrc Hgray e' He'.
    destruct (Hsrc e ltac:(left)) as [Hs Hedge].
    apply elem_of_cons in He' as [?|He']; [done|].
    apply elem_of_cons in He' as [Heq|He'].
    { simplify_eq. split; [done|]. by apply Hgray. }
    apply elem_of_cons in He' as [?|He']; [done|].
    apply (IHe v); [|done..]. intros e0 He0. apply Hsrc. by right.
  - intros cm e rest t2 w2 cm2 Hc He IHe v Hsrc Hgray e' He'.
    apply elem_of_cons in He' as [?|He']; [done|].
    apply elem_of_cons in He' as [?|He']; [done|].
    apply elem_of_cons in He' as [?|He']; [done|].
    apply (IHe v); [|done..]. intros e0 He0. apply Hsrc. by right.
Qed.

Lemma colours_no_gray cm t cm' :
  colours_spec cm t cm' → (∀ x, vec_get cm x ≠ Ok kGray) →
  ∀ x, vec_get cm' x ≠ Ok kGray.
Proof.
  intros (_ & _ & Hin & Hout) Hno x Hx.
  destruct (decide (x ∈ discovered t)) as [Hd|Hd].
  - destruct (Hin x Hd). congruence.
  - rewrite (Hout x Hd) in Hx. by apply (Hno x).
Qed.

Lemma sweep_back_edge g cm vs t w cm' :
  graph_wf g → sweep_rel g cm vs t w cm' → (∀ x, vec_get cm x ≠ Ok kGray) →
  ∀ e, EvBackEdge e ∈ t →
    edge g (source e) (destination e) ∧ rtc (edge g) (destination e) (source e).
Proof.
  intros Hwf. induction 1 as [| |cm v rest t1 w1 cm1 t2 w2 cm2 Hw Hv Hs IH];
    intros Hno e He.
  - by apply not_elem_of_nil in He.
  - auto.
  - apply elem_of_cons in He as [?|He]; [done|].
    apply elem_of_app in He as [He|He].
    + apply (proj1 (rel_back_edge g Hwf) _ _ _ _ _ Hv); [|done].
      intros x Hx. by destruct (Hno x).
    + apply IH; [|done]. eapply colours_no_gray; [by eapply visit_colours|done].
Qed.

Lemma dfs_back_edge g start t w cm' :
  graph_wf g → dfs_rel g start t w cm' →
  ∀ e, EvBackEdge e ∈ t →
    edge g (source e) (destination e) ∧ rtc (edge g) (destination e) (source e).
Proof.
  intros Hwf [t1 w1 cm1 t2 w2 cm2 n Hrange Hstart Hsweep] e He.
  assert (∀ x, vec_get (replicate n kWhite) x ≠ Ok kGray) as Hno.
  { intros x Hx. apply vec_get_Ok in Hx as [_ Hx].
    apply lookup_replicate in Hx as [? _]. done. }
  apply elem_of_app in He as [He|He].
  { apply list_elem_of_fmap in He as (? & ? & _). done. }
  apply elem_of_app in He as [He|He].
  - inversion Hstart as [|cm st t0 w0 cm0 Hne Hv]; subst.
    + by apply not_elem_of_nil in He.
    + apply elem_of_cons in He as [?|He]; [done|].
      apply (proj1 (rel_back_edge g Hwf) _ _ _ _ _ Hv); [|done].
      intros x Hx. by destruct (Hno x).
  - eapply sweep_back_edge; [done..| |done].
    eapply colours_no_gray; [by eapply start_colours|done].
Qed.

(** X12. [BackEdge] is only ever called for an edge that closes a cycle:
    the edge is an edge of the graph and its destination reaches its
    source. *)
Theorem X12_back_edge_closes_cycle (g : Graph) (start : Vertex) :
  graph_wf g → start = -1 ∨ in_graph g start →
  ∃ cm' log,
    DepthFirstSearch (CM := Colormap) g ([] : list Event) start = Ok (cm', log) ∧
    ∀ e, EvBackEdge e ∈ log →
      edge g (source e) (destination e) ∧
      rtc (edge g) (destination e) (source e).
Proof.
  intros Hwf Hstart.
  destruct (dfs_rel_total g start Hwf Hstart) as (t & w & cm' & Hdfs).
  exists cm', t. split.
  - by rewrite (dfs_run g start t w cm' [] Hdfs), replay_trace.
  - by eapply dfs_back_edge.
Qed.

Lemma X12_witness :
  graph_wf example_graph ∧
  ∃ cm' log,
    DepthFirstSearch (CM := Colormap) example_graph ([] : list Event) (-1)
      = Ok (cm', log) ∧
    ∀ e, EvBackEdge e ∈ log →
      edge example_graph (source e) (destination e) ∧
      rtc (edge example_graph) (destination e) (source e).
Proof.
  assert (graph_wf example_graph) as Hwf by (apply graph_wfb_wf; reflexivity).
  split; [exact Hwf|].
  apply (X12_back_edge_closes_cycle example_graph (-1) Hwf). by left.
Defined.

Lemma ancestor_climb parents a v :
  ancestor_or_self parents a v → ∃ k, climb parents k v = Some a.
Proof.
  induction 1 as [v|a v p Hp _ [k Hk]]; [by exists 0%nat|].
  exists (S k). simpl. by rewrite Hp.
Qed.

(** X13. On a forest, with any number of roots, the traversal that [main]
    runs never calls [BackEdge]. *)
Theorem X13_forest_no_back_edge (parents : list Z) :
  forest parents →
  ∃ g start cm' log,
    read_parents parents 0 (Graph_new (length parents)) (-1) = Ok (g, start) ∧
    DepthFirstSearch (CM := Colormap) g ([] : list Event) start = Ok (cm', log) ∧
    ∀ e, EvBackEdge e ∉ log.
Proof.
  intros [Hok Hac].
  destruct (read_parents_spec parents Hok) as (g & start & Hread & Hb).
  pose proof (built_wf _ _ _ Hb) as Hwf.
  destruct (dfs_rel_total g start Hwf (built_start _ _ _ Hb)) as (t & w & cm' & Hdfs).
  exists g, start, cm', t. split_and!; try done.
  - by rewrite (dfs_run g start t w cm' [] Hdfs), replay_trace.
  - intros e He. destruct (dfs_back_edge _ _ _ _ _ Hwf Hdfs e He) as [Hedge Hreach].
    apply (built_edge _ _ _ Hok Hb) in Hedge.
    apply (built_reach_ancestor _ _ _ Hok Hb), ancestor_climb in Hreach as [k Hk].
    apply (Hac (destination e) (S k)); [lia|]. simpl. by rewrite Hedge.
Qed.

Lemma X13_witness :
  forest three_roots ∧
  ∃ g start cm' log,
    read_parents three_roots 0 (Graph_new (length three_roots)) (-1)
      = Ok (g, start) ∧
    DepthFirstSearch (CM := Colormap) g ([] : list Event) start = Ok (cm', log) ∧
    ∀ e, EvBackEdge e ∉ log.
Proof.
  assert (forest three_roots) as Hf.
  { split.
    - apply parents_ok_Forall. repeat constructor; simpl; lia.
    - apply acyclicb_acyclic. reflexivity. }
  split; [exact Hf|]. exact (X13_forest_no_back_edge three_roots Hf).
Defined.
(** ** The colours record how far the traversal has come *)

Lemma log_colours_ext p p' cm :
  discovered p' = discovered p → finished p' = finished p →
  log_colours p cm → log_colours p' cm.
Proof. intros Hd Hf H x c Hx. rewrite Hd, Hf. by apply H. Qed.

Lemma log_colours_discover p cm v :
  log_colours p cm → vec_get cm v = Ok kWhite →
  log_colours (p ++ [EvDiscoverVertex v]) (paint cm v kGray).
Proof.
  intros H Hw x c Hx. pose proof (vec_get_range _ _ _ Hw) as Hr.
  assert (x ∈ discovered (p ++ [EvDiscoverVertex v]) ↔ x ∈ discovered p ∨ x = v)
    as Hd by (rewrite discovered_app, elem_of_app; simpl;
             by rewrite list_elem_of_singleton).
  assert (finished (p ++ [EvDiscoverVertex v]) = finished p) as Hf
    by (rewrite finished_app; simpl; by rewrite app_nil_r).
  rewrite Hf. destruct (decide (v = x)) as [->|Hne].
  - rewrite (vec_get_paint_eq _ _ _ _ Hw) in Hx. simplify_eq.
    destruct (H x kWhite Hw) as [_ Hnf]. simpl. tauto.
  - rewrite vec_get_paint_ne in Hx by (done || lia).
    specialize (H x c Hx).
    assert (x ≠ v) by done. destruct c; simpl; tauto.
Qed.

Lemma log_colours_run p cm t cm' :
  log_colours p cm → colours_spec cm t cm' → log_colours (p ++ t) cm'.
Proof.
  intros H (_ & Hperm & Hin & Hout) x c Hx.
  assert (x ∈ discovered (p ++ t) ↔ x ∈ discovered p ∨ x ∈ discovered t) as Hd'
    by (by rewrite discovered_app, elem_of_app).
  assert (x ∈ finished (p ++ t) ↔ x ∈ finished p ∨ x ∈ discovered t) as Hf'
    by (by rewrite finished_app, elem_of_app, Hperm).
  destruct (decide (x ∈ discovered t)) as [Hd|Hd].
  - destruct (Hin x Hd) as [_ Hb]. rewrite Hb in Hx. simplify_eq. simpl. tauto.
  - rewrite (Hout x Hd) in Hx. specialize (H x c Hx). destruct c; simpl; tauto.
Qed.

Lemma log_colours_new n vs :
  log_colours (EvInitializeVertex <$> vs) (replicate n kWhite).
Proof.
  intros x c [_ Hx]%vec_get_Ok. apply lookup_replicate in Hx as [-> _].
  rewrite discovered_initialize, finished_initialize.
  split; apply not_elem_of_nil.
Qed.

(** ** Each visit together with the colours at its start *)

Lemma frame_at_embed g p p' t a l1 l2 T :
  frame_at g p' t a → p' = p ++ l1 → T = l1 ++ t ++ l2 → frame_at g p T a.
Proof.
  intros (pre & ta & post & cm & w & cm' & -> & Hv & Hc) -> ->.
  exists (l1 ++ pre), ta, (post ++ l2), cm, w, cm'. split_and!; [|done|].
  - by rewrite <- !(assoc (++)).
  - by rewrite (assoc (++)).
Qed.

Lemma rel_frames g :
  (∀ cm v t w cm', visit_rel g cm v t w cm' →
     ∀ p, log_colours p cm → ∀ a, a ∈ discovered t → frame_at g p t a) ∧
  (∀ cm es t w cm', edges_rel g cm es t w cm' →
     ∀ p, log_colours p cm → ∀ a, a ∈ discovered t → frame_at g p t a).
Proof.
  apply visit_edges_rel_ind.
  - intros cm v es body wb cm1 Hw Hes He IH Hg p Hp a. simpl_log.
    intros [->|Ha]%elem_of_cons.
    + exists [], (EvDiscoverVertex v :: body ++ [EvFinishVertex v]), [].
      eexists cm, _, _. split_and!.
      * by rewrite app_nil_r.
      * by eapply visit_intro.
      * by rewrite app_nil_r.
    + eapply (frame_at_embed g p _ body a [EvDiscoverVertex v] [EvFinishVertex v]);
        [|done..].
      apply IH; [|done]. by apply log_colours_discover.
  - intros cm p _ a Ha. by apply not_elem_of_nil in Ha.
  - intros cm e rest t1 w1 cm1 t2 w2 cm2 _ Hv IH1 _ IH2 p Hp a. simpl_log.
    assert (log_colours (p ++ [EvExamineEdge e]) cm) as Hp1.
    { eapply log_colours_ext; [..|done]; by simpl_log. }
    intros [Ha|Ha]%elem_of_app.
    + eapply (frame_at_embed g p _ t1 a [EvExamineEdge e]
                (EvTreeEdge e :: EvFinishEdge e :: t2)); [|done..].
      by apply IH1.
    + eapply (frame_at_embed g p
                (p ++ EvExamineEdge e :: t1 ++ [EvTreeEdge e; EvFinishEdge e]) t2 a
                (EvExamineEdge e :: t1 ++ [EvTreeEdge e; EvFinishEdge e]) []);
        [|done|].
      * apply IH2; [|done].
        eapply (log_colours_ext ((p ++ [EvExamineEdge e]) ++ t1)).
        -- simpl_log. by rewrite <- ?(assoc (++)).
        -- simpl_log. by rewrite <- ?(assoc (++)).
        -- eapply log_colours_run; [done|]. by eapply visit_colours.
      * simpl. by rewrite app_nil_r, <- !(assoc (++)).
  - intros cm e rest t2 w2 cm2 _ _ IH p Hp a Ha. simpl_log.
    eapply (frame_at_embed g p _ t2 a
              [EvExamineEdge e; EvBackEdge e; EvFinishEdge e] []); [|done|].
    + apply IH; [|done]. eapply log_colours_ext; [..|done]; by simpl_log.
    + simpl. by rewrite app_nil_r.
  - intros cm e rest t2 w2 cm2 _ _ IH p Hp a Ha. simpl_log.
    eapply (frame_at_embed g p _ t2 a
              [EvExamineEdge e; EvForwardOrCrossEdge e; EvFinishEdge e] []); [|done|].
    + apply IH; [|done]. eapply log_colours_ext; [..|done]; by simpl_log.
    + simpl. by rewrite app_nil_r.
Qed.

Lemma sweep_frames g cm vs t w cm' :
  sweep_rel g cm vs t w cm' →
  ∀ p, log_colours p cm → ∀ a, a ∈ discovered t → frame_at g p t a.
Proof.
  induction 1 as [| |cm v rest t1 w1 cm1 t2 w2 cm2 Hw Hv _ IH]; intros p Hp a;
    simpl_log.
  - by intros ?%not_elem_of_nil.
  - auto.
  - assert (log_colours (p ++ [EvStartVertex v]) cm) as Hp1.
    { eapply log_colours_ext; [..|done]; by simpl_log. }
    intros [Ha|Ha]%elem_of_app.
    + eapply (frame_at_embed g p _ t1 a [EvStartVertex v] t2); [|done..].
      by eapply (proj1 (rel_frames g)).
    + eapply (frame_at_embed g p (p ++ EvStartVertex v :: t1) t2 a
                (EvStartVertex v :: t1) []); [|done|].
      * apply IH; [|done].
        eapply (log_colours_ext ((p ++ [EvStartVertex v]) ++ t1)).
        -- simpl_log. by rewrite <- ?(assoc (++)).
        -- simpl_log. by rewrite <- ?(assoc (++)).
        -- eapply log_colours_run; [done|]. by eapply visit_colours.
      * simpl. by rewrite app_nil_r.
Qed.

Lemma dfs_frames g start t w cm' :
  dfs_rel g start t w cm' → ∀ a, a ∈ discovered t → frame_at g [] t a.
Proof.
  intros [t1 w1 cm1 t2 w2 cm2 n Hrange Hstart Hsweep] a. simpl_log.
  pose proof (log_colours_new n (GetVertices g)) as Hp.
  intros [Ha|Ha]%elem_of_app.
  - inversion Hstart as [|cm st t0 w0 cm0 Hne Hv]; subst; simpl in Ha.
    { by apply not_elem_of_nil in Ha. }
    eapply (frame_at_embed g []
              ((EvInitializeVertex <$> GetVertices g) ++ [EvStartVertex start]) t0 a
              ((EvInitializeVertex <$> GetVertices g) ++ [EvStartVertex start]) t2);
      [|done|].
    + eapply (proj1 (rel_frames g)); [done| |done].
      eapply log_colours_ext; [..|exact Hp]; by simpl_log.
    + simpl. by rewrite <- !(assoc (++)).
  - eapply (frame_at_embed g [] ((EvInitializeVertex <$> GetVertices g) ++ t1) t2 a
              ((EvInitializeVertex <$> GetVertices g) ++ t1) []); [|done|].
    + eapply sweep_frames; [done| |done].
      eapply log_colours_run; [exact Hp|]. by eapply start_colours.
    + simpl. by rewrite app_nil_r, <- !(assoc (++)).
Qed.
(** ** Timestamps of a visit and of the edges that leave it *)

Section EdgeStamps.
Context (g : Graph) (start : Vertex) (t : list Event) (w : list ColorWrite)
        (cm' : list Color) (s0 tv : TimeDFSVisitor).
Hypothesis Hwf : graph_wf g.
Hypothesis Hdfs : dfs_rel g start t w cm'.
Hypothesis Hint : 2 * Z.of_nat (vertex_count g) ≤ INT_MAX.
Hypothesis Hs0 : time_sized (vertex_count g) s0.
Hypothesis Ht0 : timer s0 = 0.
Hypothesis Hrun : replay t s0 = Ok tv.

(** The stamps given in a segment of the log are its ticks. *)
Lemma stamps_segment l1 l2 l3 :
  t = l1 ++ l2 ++ l3 →
  (∀ u, u ∈ discovered l2 → ticks l1 ≤ tin tv u < ticks l1 + ticks l2) ∧
  (∀ u, u ∈ finished l2 → ticks l1 ≤ tout tv u < ticks l1 + ticks l2).
Proof using All.
  intros Ht.
  destruct (dfs_discovered _ _ _ _ _ Hwf Hdfs) as [Hnd_in _].
  destruct (dfs_finished _ _ _ _ _ Hwf Hdfs) as [Hnd_out _].
  pose proof (stamps_ticks g start t w cm' Hwf Hdfs) as Hticks.
  pose proof (stamps_range g start t w cm' Hwf Hdfs) as Hrange.
  assert (0 ≤ timer s0) as Hlo by lia.
  assert (timer s0 + ticks t ≤ INT_MAX) as Hhi by lia.
  pose proof (segment_in _ t _ tv Hs0 Hrange Hlo Hhi Hrun Hnd_in Hnd_out l1 l2 l3)
    as Sin.
  pose proof (segment_out _ t _ tv Hs0 Hrange Hlo Hhi Hrun Hnd_in Hnd_out l1 l2 l3)
    as Sout.
  rewrite Ht0 in Sin, Sout.
  split; intros u Hu; [specialize (Sin u Ht Hu)|specialize (Sout u Ht Hu)]; lia.
Qed.

Lemma ticks_discover v : ticks [EvDiscoverVertex v] = 1.
Proof using. done. Qed.

Lemma ticks_finish v : ticks [EvFinishVertex v] = 1.
Proof using. done. Qed.

(** The stamps of a visit, of the vertices discovered inside it, and of the
    vertices that are gray or black when it starts. *)
Lemma stamps_frame pre ta post cm a wa cma :
  t = pre ++ ta ++ post → visit_rel g cm a ta wa cma → log_colours pre cm →
  tin tv a = ticks pre ∧ tout tv a = ticks pre + ticks ta - 1 ∧ 2 ≤ ticks ta ∧
  (∀ u, u ∈ discovered ta → u ≠ a →
     tin tv a < tin tv u ∧ tout tv u < tout tv a) ∧
  (∀ u, vec_get cm u = Ok kGray → tin tv u < tin tv a ∧ tout tv a < tout tv u) ∧
  (∀ u, vec_get cm u = Ok kBlack → tout tv u < tin tv a).
Proof using All.
  intros Ht Hv Hc.
  pose proof (visit_ticks _ _ _ _ _ _ Hv) as Hta.
  pose proof (visit_colours _ _ _ _ _ _ Hv) as (_ & Hperm_ta & Hin_ta & _).
  destruct (visit_inv _ _ _ _ _ _ Hv)
    as (es & body & wb & cm1 & Hta_eq & _ & _ & Hw & Hes & Hbody).
  pose proof (edges_colours _ _ _ _ _ _ Hbody) as (_ & Hperm & _).
  assert (ticks ta = 1 + ticks body + 1) as Htb.
  { rewrite Hta_eq.
    change (EvDiscoverVertex a :: body ++ [EvFinishVertex a])
      with ([EvDiscoverVertex a] ++ body ++ [EvFinishVertex a]).
    rewrite !ticks_app, ticks_discover, ticks_finish. lia. }
  assert (t = pre ++ [EvDiscoverVertex a] ++ (body ++ [EvFinishVertex a] ++ post))
    as Ht1.
  { rewrite Ht, Hta_eq. simpl. by rewrite <- !(assoc (++)). }
  assert (t = (pre ++ [EvDiscoverVertex a] ++ body) ++ [EvFinishVertex a] ++ post)
    as Ht2.
  { rewrite Ht, Hta_eq. simpl. by rewrite <- !(assoc (++)). }
  assert (t = (pre ++ [EvDiscoverVertex a]) ++ body ++ ([EvFinishVertex a] ++ post))
    as Ht3.
  { rewrite Ht, Hta_eq. simpl. by rewrite <- !(assoc (++)). }
  assert (t = [] ++ pre ++ (ta ++ post)) as Ht4 by done.
  assert (t = (pre ++ ta) ++ post ++ []) as Ht5.
  { rewrite Ht. by rewrite app_nil_r, <- !(assoc (++)). }
  destruct (stamps_segment _ _ _ Ht1) as [S1 _].
  destruct (stamps_segment _ _ _ Ht2) as [_ S2].
  destruct (stamps_segment _ _ _ Ht3) as [S3i S3o].
  destruct (stamps_segment _ _ _ Ht4) as [S4i S4o].
  destruct (stamps_segment _ _ _ Ht5) as [_ S5].
  specialize (S1 a ltac:(simpl; left)). specialize (S2 a ltac:(simpl; left)).
  rewrite ticks_discover in S1. rewrite ticks_finish in S2.
  rewrite !ticks_app, ticks_discover in S2.
  assert (ticks [] = 0) as Hnil by done. rewrite Hnil in S4i, S4o.
  split_and!; try lia.
  - intros u Hu Hne.
    assert (u ∈ discovered body) as Hub.
    { revert Hu. rewrite Hta_eq. simpl_log. rewrite elem_of_cons.
      intros [?|?]; done. }
    assert (u ∈ finished body) as Hfb by by rewrite Hperm.
    specialize (S3i u Hub). specialize (S3o u Hfb).
    rewrite ticks_app, ticks_discover in S3i, S3o. lia.
  - intros u Hu. destruct (Hc u kGray Hu) as [Hd Hnf].
    specialize (S4i u Hd).
    assert (u ∉ discovered ta) as Hnd.
    { intros [Hwu _]%Hin_ta. congruence. }
    assert (u ∈ finished post) as Hp.
    { destruct (dfs_colours _ _ _ _ _ Hdfs) as (_ & Hpt & _).
      assert (u ∈ finished t) as Hf.
      { rewrite Hpt, Ht, !discovered_app, !elem_of_app. by left. }
      revert Hf. rewrite Ht, !finished_app, !elem_of_app, Hperm_ta. tauto. }
    specialize (S5 u Hp). rewrite ticks_app in S5. lia.
  - intros u Hu. destruct (Hc u kBlack Hu) as [_ Hf].
    specialize (S4o u Hf). lia.
Qed.

(** Every edge is of one of three kinds: its destination is visited inside
    the visit of its source; it leads back into a visit that is still open;
    or its destination was finished before its source was discovered. *)
Lemma stamps_edge u v :
  edge g u v →
  (tin tv u < tin tv v ∧ tout tv v < tout tv u) ∨
  (tin tv v ≤ tin tv u ∧ tout tv u ≤ tout tv v) ∨
  tout tv v < tin tv u.
Proof using All.
  intros Huv. destruct (edge_in_graph _ _ _ Hwf Huv) as [Hu _].
  destruct (dfs_discovered _ _ _ _ _ Hwf Hdfs) as [_ Hd].
  assert (u ∈ discovered t) as Hut by (rewrite Hd; by apply wf_vertices).
  destruct (dfs_frames _ _ _ _ _ Hdfs u Hut)
    as (pre & ta & post & cm & wa & cma & Ht & Hv & Hc).
  simpl in Hc.
  destruct (stamps_frame _ _ _ _ _ _ _ Ht Hv Hc)
    as (Hi & Ho & Hta & Hnest & Hgray & Hblack).
  pose proof (visit_colours _ _ _ _ _ _ Hv) as (_ & _ & _ & Hout).
  destruct (proj1 (rel_closed g) _ _ _ _ _ Hv u v) as (c & Hcv & Hnw);
    [by eapply visit_discovers_self|done|].
  destruct (decide (v ∈ discovered ta)) as [Hdv|Hdv].
  - destruct (decide (v = u)) as [->|Hne]; [right; left; lia|].
    left. by apply Hnest.
  - rewrite (Hout v Hdv) in Hcv. destruct c; [done| |].
    + right. left. specialize (Hgray v Hcv). lia.
    + right. right. by apply Hblack.
Qed.
End EdgeStamps.

(** X14. The timestamps classify every edge [u → v] of the graph: either
    [v] is stamped strictly inside the interval of [u] (tree or forward
    edge), or the interval of [v] contains that of [u] and [v] reaches [u],
    so that the edge closes a cycle (back edge), or [v] was finished before
    [u] was discovered (cross edge). *)
Theorem X14_edge_stamps (g : Graph) (start : Vertex) :
  graph_wf g → start = -1 ∨ in_graph g start →
  2 * Z.of_nat (vertex_count g) ≤ INT_MAX →
  ∃ cm' tv,
    DepthFirstSearch (CM := Colormap) g (TimeDFSVisitor_new (vertex_count g)) start
      = Ok (cm', tv) ∧
    ∀ u v, edge g u v →
      (tin tv u < tin tv v ∧ tout tv v < tout tv u) ∨
      (tin tv v ≤ tin tv u ∧ tout tv u ≤ tout tv v ∧ rtc (edge g) v u) ∨
      tout tv v < tin tv u.
Proof.
  intros Hwf Hstart Hint.
  destruct (timestamps_run g start (TimeDFSVisitor_new (vertex_count g)) Hwf Hstart
              Hint (new_time_sized _) eq_refl) as (t & w & cm' & tv & Hdfs & Hrun & Hr).
  exists cm', tv. split; [done|]. intros u v Huv.
  destruct (edge_in_graph _ _ _ Hwf Huv) as [Hu Hv].
  destruct (stamps_edge g start t w cm' _ tv Hwf Hdfs Hint (new_time_sized _)
              eq_refl Hrun u v Huv) as [H|[H|H]]; [by left| |by right; right].
  right. left. split_and!; try lia.
  apply (stamps_contains_reach g start t w cm' _ tv Hwf Hdfs Hint
           (new_time_sized _) eq_refl Hrun); [done..|]. split; lia.
Qed.

Lemma X14_witness :
  graph_wf example_graph ∧
  ∃ cm' tv,
    DepthFirstSearch (CM := Colormap) example_graph
      (TimeDFSVisitor_new (vertex_count example_graph)) 0 = Ok (cm', tv) ∧
    ∀ u v, edge example_graph u v →
      (tin tv u < tin tv v ∧ tout tv v < tout tv u) ∨
      (tin tv v ≤ tin tv u ∧ tout tv u ≤ tout tv v ∧
       rtc (edge example_graph) v u) ∨
      tout tv v < tin tv u.
Proof.
  assert (graph_wf example_graph) as Hwf by (apply graph_wfb_wf; reflexivity).
  split; [exact Hwf|].
  apply (X14_edge_stamps example_graph 0 Hwf).
  - right. unfold in_graph, vertex_count. simpl. lia.
  - vm_compute. discriminate.
Defined.

Lemma dag_finish_order g start t w cm' s0 tv :
  graph_wf g → dfs_rel g start t w cm' →
  2 * Z.of_nat (vertex_count g) ≤ INT_MAX →
  time_sized (vertex_count g) s0 → timer s0 = 0 → replay t s0 = Ok tv →
  dag g → ∀ u v, edge g u v → tout tv v < tout tv u.
Proof.
  intros Hwf Hdfs Hint Hs0 Ht0 Hrun Hdag u v Huv.
  destruct (edge_in_graph _ _ _ Hwf Huv) as [Hu Hv].
  pose proof (stamps_bounds g start t w cm' s0 tv Hwf Hdfs Hint Hs0 Ht0 Hrun u Hu).
  destruct (stamps_edge g start t w cm' s0 tv Hwf Hdfs Hint Hs0 Ht0 Hrun u v Huv)
    as [H1|[H1|H1]]; [lia| |lia].
  destruct (Hdag u). eapply tc_rtc_r; [by apply tc_once|].
  apply (stamps_contains_reach g start t w cm' s0 tv Hwf Hdfs Hint Hs0 Ht0 Hrun);
    [done..|]. split; lia.
Qed.

Lemma example_graph_edge u v : edge example_graph u v → u < v.
Proof.
  intros (es & e & Hes & He & <-).
  pose proof (vec_get_range _ _ _ Hes) as Hr. simpl in Hr.
  assert (u = 0 ∨ u = 1 ∨ u = 2 ∨ u = 3) as Hu by lia.
  destruct Hu as [Hu|[Hu|[Hu|Hu]]]; subst u;
    vm_compute in Hes; simplify_eq;
    repeat (apply elem_of_cons in He as [->|He]; [simpl; lia|]);
    by apply not_elem_of_nil in He.
Qed.

Lemma example_graph_dag : dag example_graph.
Proof.
  intros x Hx. enough (∀ a b, tc (edge example_graph) a b → a < b) as H.
  { specialize (H x x Hx). lia. }
  clear. induction 1 as [a b H|a b c H _ IH].
  - by apply example_graph_edge.
  - apply example_graph_edge in H. lia.
Qed.

(** X15. On a graph without cycles every edge leads to a vertex that is
    finished earlier: decreasing [time_out] is a topological order. *)
Theorem X15_dag_finish_order (g : Graph) (start : Vertex) :
  graph_wf g → start = -1 ∨ in_graph g start →
  2 * Z.of_nat (vertex_count g) ≤ INT_MAX →
  dag g →
  ∃ cm' tv,
    DepthFirstSearch (CM := Colormap) g (TimeDFSVisitor_new (vertex_count g)) start
      = Ok (cm', tv) ∧
    ∀ u v, edge g u v → tout tv v < tout tv u.
Proof.
  intros Hwf Hstart Hint Hdag.
  destruct (timestamps_run g start (TimeDFSVisitor_new (vertex_count g)) Hwf Hstart
              Hint (new_time_sized _) eq_refl) as (t & w & cm' & tv & Hdfs & Hrun & Hr).
  exists cm', tv. split; [done|].
  by apply (dag_finish_order g start t w cm' _ tv Hwf Hdfs Hint (new_time_sized _)
              eq_refl Hrun).
Qed.

Lemma X15_witness :
  graph_wf example_graph ∧ dag example_graph ∧
  ∃ cm' tv,
    DepthFirstSearch (CM := Colormap) example_graph
      (TimeDFSVisitor_new (vertex_count example_graph)) (-1) = Ok (cm', tv) ∧
    ∀ u v, edge example_graph u v → tout tv v < tout tv u.
Proof.
  assert (graph_wf example_graph) as Hwf by (apply graph_wfb_wf; reflexivity).
  split; [exact Hwf|]. split; [exact example_graph_dag|].
  apply (X15_dag_finish_order example_graph (-1) Hwf).
  - by left.
  - vm_compute. discriminate.
  - exact example_graph_dag.
Defined.
(** ** The start vertex *)

Lemma reach_in_graph g a u :
  graph_wf g → in_graph g a → rtc (edge g) a u → in_graph g u.
Proof.
  intros Hwf Ha Hr. induction Hr as [|a b c Hab _ IH]; [done|].
  apply IH. by destruct (edge_in_graph _ _ _ Hwf Hab).
Qed.

Lemma ticks_initialize vs l :
  ticks ((EvInitializeVertex <$> vs) ++ [EvStartVertex l]) = 0.
Proof. unfold ticks. by simpl_log. Qed.

(** X16. A traversal from a given start vertex discovers it at time [0],
    and the interval of the start vertex contains the interval of [v]
    exactly when [v] can be reached from the start vertex. *)
Theorem X16_start_reaches (g : Graph) (start : Vertex) :
  graph_wf g → in_graph g start →
  2 * Z.of_nat (vertex_count g) ≤ INT_MAX →
  ∃ cm' tv,
    DepthFirstSearch (CM := Colormap) g (TimeDFSVisitor_new (vertex_count g)) start
      = Ok (cm', tv) ∧
    tin tv start = 0 ∧
    ∀ v, in_graph g v → (contains tv start v ↔ rtc (edge g) start v).
Proof.
  intros Hwf Hs Hint.
  destruct (timestamps_run g start (TimeDFSVisitor_new (vertex_count g)) Hwf
              (or_intror Hs) Hint (new_time_sized _) eq_refl)
    as (t & w & cm' & tv & Hdfs & Hrun & Hr).
  exists cm', tv. split; [done|].
  pose proof (stamps_frame g start t w cm' _ tv Hwf Hdfs Hint (new_time_sized _)
                eq_refl Hrun) as Hframe.
  pose proof (stamps_contains_reach g start t w cm' _ tv Hwf Hdfs Hint
                (new_time_sized _) eq_refl Hrun start) as Hreach.
  pose proof Hdfs as Hdfs'.
  destruct Hdfs' as [t1 w1 cm1 t2 w2 cm2 n Hrange Hstart Hsweep].
  inversion Hstart as [|cm st t0 w0 cm0 Hne Hv]; subst.
  { unfold in_graph in Hs. lia. }
  destruct (Hframe ((EvInitializeVertex <$> GetVertices g) ++ [EvStartVertex start])
              t0 t2 (replicate n kWhite) start w1 cm1)
    as (Hi & Ho & Hta & Hnest & _); [|done|..].
  { simpl. by rewrite <- !(assoc (++)). }
  { eapply log_colours_ext; [..|apply (log_colours_new n (GetVertices g))];
      by simpl_log. }
  rewrite ticks_initialize in Hi, Ho. split; [done|].
  intros v Hgv. split; [by apply Hreach|]. intros Hsv.
  assert (v ∈ discovered t0) as Hd.
  { eapply visit_covers; [done| |done]. intros u Hu.
    apply (reach_in_graph _ _ _ Hwf Hs) in Hu.
    apply vec_get_Ok. split; [unfold in_graph in Hu; lia|].
    apply lookup_replicate_2. unfold in_graph, vertex_count in Hu.
    unfold n, GetVertices. lia. }
  destruct (decide (v = start)) as [->|Hvs]; [split; lia|].
  specialize (Hnest v Hd Hvs). split; lia.
Qed.

Lemma X16_witness :
  graph_wf example_graph ∧ in_graph example_graph 2 ∧
  ∃ cm' tv,
    DepthFirstSearch (CM := Colormap) example_graph
      (TimeDFSVisitor_new (vertex_count example_graph)) 2 = Ok (cm', tv) ∧
    tin tv 2 = 0 ∧
    ∀ v, in_graph example_graph v →
      (contains tv 2 v ↔ rtc (edge example_graph) 2 v).
Proof.
  assert (graph_wf example_graph) as Hwf by (apply graph_wfb_wf; reflexivity).
  assert (in_graph example_graph 2) as Hs
    by (unfold in_graph, vertex_count; simpl; lia).
  split; [exact Hwf|]. split; [exact Hs|].
  apply (X16_start_reaches example_graph 2 Hwf Hs).
  vm_compute. discriminate.
Defined.

(** ** The size of an interval *)

(** X17. The length of the interval of a vertex [a] counts the vertices
    whose interval it contains: [time_out[a] - time_in[a] + 1] is twice the
    number of vertices [v] for which the query [(a, v)] is answered
    with [1]. *)
Theorem X17_interval_size (g : Graph) (start : Vertex) :
  graph_wf g → start = -1 ∨ in_graph g start →
  2 * Z.of_nat (vertex_count g) ≤ INT_MAX →
  ∃ cm' tv,
    DepthFirstSearch (CM := Colormap) g (TimeDFSVisitor_new (vertex_count g)) start
      = Ok (cm', tv) ∧
    ∀ a, in_graph g a →
      tout tv a - tin tv a + 1
      = 2 * Z.of_nat (length (filter (contains tv a) (GetVertices g))).
Proof.
  intros Hwf Hstart Hint.
  destruct (timestamps_run g start (TimeDFSVisitor_new (vertex_count g)) Hwf Hstart
              Hint (new_time_sized _) eq_refl) as (t & w & cm' & tv & Hdfs & Hrun & Hr).
  exists cm', tv. split; [done|]. intros a Ha.
  pose proof (stamps_bounds g start t w cm' _ tv Hwf Hdfs Hint (new_time_sized _)
                eq_refl Hrun) as Hb.
  destruct (stamps_interval g start t w cm' _ tv Hwf Hdfs Hint (new_time_sized _)
              eq_refl Hrun a Ha)
    as (pre & ta & post & Ht & (cm & wa & cma & Hv) & Hi & Ho & _ & _ & _ & Hin & Hout).
  pose proof (visit_colours _ _ _ _ _ _ Hv) as (Hnd & Hperm & _ & _).
  assert (discovered ta ≡ₚ filter (contains tv a) (GetVertices g)) as Hp.
  { apply NoDup_Permutation; [done|by apply NoDup_filter, vertices_NoDup|].
    intros x. rewrite list_elem_of_filter, (wf_vertices g x Hwf). split.
    - intros Hx. assert (in_graph g x) as Hgx.
      { apply (stamps_range g start t w cm' Hwf Hdfs). left.
        rewrite Ht, !discovered_app, !elem_of_app. tauto. }
      split; [|done]. destruct (decide (x = a)) as [->|Hne]; [split; lia|].
      specialize (Hin x Hx Hne). split; lia.
    - intros [[Hc1 Hc2] Hgx]. destruct (decide (x ∈ discovered ta)) as [|Hx]; [done|].
      specialize (Hb x Hgx). destruct (Hout x Hgx Hx); lia. }
  rewrite <- Hp. rewrite Hi, Ho. unfold ticks. rewrite Hperm. lia.
Qed.

Lemma X17_witness :
  graph_wf example_graph ∧
  ∃ cm' tv,
    DepthFirstSearch (CM := Colormap) example_graph
      (TimeDFSVisitor_new (vertex_count example_graph)) (-1) = Ok (cm', tv) ∧
    ∀ a, in_graph example_graph a →
      tout tv a - tin tv a + 1
      = 2 * Z.of_nat (length (filter (contains tv a) (GetVertices example_graph))).
Proof.
  assert (graph_wf example_graph) as Hwf by (apply graph_wfb_wf; reflexivity).
  split; [exact Hwf|].
  apply (X17_interval_size example_graph (-1) Hwf).
  - by left.
  - vm_compute. discriminate.
Defined.

(** ** The timer *)

(** X18. After a full traversal the timer stands at [2V], and the two
    vectors together hold every value [0 .. 2V-1] exactly once. *)
Theorem X18_every_tick_once (g : Graph) (start : Vertex) :
  graph_wf g → start = -1 ∨ in_graph g start →
  2 * Z.of_nat (vertex_count g) ≤ INT_MAX →
  ∃ cm' tv,
    DepthFirstSearch (CM := Colormap) g (TimeDFSVisitor_new (vertex_count g)) start
      = Ok (cm', tv) ∧
    timer tv = 2 * Z.of_nat (vertex_count g) ∧
    time_in tv ++ time_out tv ≡ₚ seqZ 0 (2 * Z.of_nat (vertex_count g)).
Proof.
  intros Hwf Hstart Hint.
  destruct (timestamps_run g start (TimeDFSVisitor_new (vertex_count g)) Hwf Hstart
              Hint (new_time_sized _) eq_refl) as (t & w & cm' & tv & Hdfs & Hrun & Hr).
  exists cm', tv. split; [done|].
  pose proof (stamps_ticks g start t w cm' Hwf Hdfs) as Hticks.
  pose proof (stamps_bounds g start t w cm' _ tv Hwf Hdfs Hint (new_time_sized _)
                eq_refl Hrun) as Hb.
  pose proof (stamps_sized g start t w cm' _ tv Hwf Hdfs Hint (new_time_sized _)
                eq_refl Hrun) as [Hlin Hlout].
  split.
  - destruct (replay_time (vertex_count g) t (TimeDFSVisitor_new (vertex_count g))
                (new_time_sized _)) as (s' & Hrun' & _ & Htimer & _).
    + by apply (stamps_range g start t w cm').
    + done.
    + simpl. lia.
    + rewrite Hrun in Hrun'. simplify_eq. rewrite Htimer. simpl. lia.
  - apply submseteq_length_Permutation.
    + apply NoDup_submseteq.
      * by apply (stamps_NoDup g start t w cm' (TimeDFSVisitor_new (vertex_count g))
                    tv Hwf Hdfs Hint (new_time_sized _)).
      * intros x. rewrite elem_of_app, elem_of_seqZ.
        intros [Hx|Hx]; apply list_elem_of_lookup in Hx as [i Hx];
          pose proof (lookup_lt_Some _ _ _ Hx) as Hlt;
          specialize (Hb (Z.of_nat i) ltac:(unfold in_graph; lia));
          unfold tin, tout in Hb; rewrite Nat2Z.id in Hb.
        -- rewrite Hx in Hb. simpl in Hb. lia.
        -- rewrite Hx in Hb. simpl in Hb.
           assert (is_Some (time_in tv !! i)) as [y Hy]
             by (apply lookup_lt_is_Some; lia).
           rewrite Hy in Hb. simpl in Hb. lia.
    + rewrite length_seqZ, length_app. lia.
Qed.

Lemma X18_witness :
  graph_wf example_graph ∧
  ∃ cm' tv,
    DepthFirstSearch (CM := Colormap) example_graph
      (TimeDFSVisitor_new (vertex_count example_graph)) 0 = Ok (cm', tv) ∧
    timer tv = 2 * Z.of_nat (vertex_count example_graph) ∧
    time_in tv ++ time_out tv
      ≡ₚ seqZ 0 (2 * Z.of_nat (vertex_count example_graph)).
Proof.
  assert (graph_wf example_graph) as Hwf by (apply graph_wfb_wf; reflexivity).
  split; [exact Hwf|].
  apply (X18_every_tick_once example_graph 0 Hwf).
  - right. unfold in_graph, vertex_count. simpl. lia.
  - vm_compute. discriminate.
Defined.

(** ** Answers in both directions *)

(** X19. On every well-formed input, whatever its shape, two different
    vertices are never answered [1] in both directions. *)
Theorem X19_answers_antisymmetric (parents : list Z) (a v : Z) :
  parents_ok parents → 2 * Z.of_nat (length parents) ≤ INT_MAX →
  1 ≤ a ≤ Z.of_nat (length parents) → 1 ≤ v ≤ Z.of_nat (length parents) →
  main parents [(a, v); (v, a)] = Ok [1; 1] → a = v.
Proof.
  intros Hok Hint Ha Hv.
  destruct (timestamps_defined parents Hok Hint)
    as (g & start & t & w & cm' & tv & Hb & Hdfs & Hrun & Hts & Hsz).
  pose proof (built_vertex_count _ _ _ Hb) as Hn.
  pose proof (built_wf _ _ _ Hb) as Hwf.
  assert (2 * Z.of_nat (vertex_count g) ≤ INT_MAX) as Hint' by by rewrite Hn.
  unfold main. rewrite Hts. simpl.
  rewrite !(answer_query_spec (length parents)) by (done || lia). simpl.
  destruct (decide (a = v)) as [|Hne]; [done|].
  pose proof (stamps_nesting g start t w cm' _ tv Hwf Hdfs Hint' (new_time_sized _)
                eq_refl Hrun (a - 1) (v - 1)) as Hnest.
  pose proof (stamps_bounds g start t w cm' _ tv Hwf Hdfs Hint' (new_time_sized _)
                eq_refl Hrun) as Hbd.
  assert (in_graph g (a - 1)) as Hga by (unfold in_graph; rewrite Hn; lia).
  assert (in_graph g (v - 1)) as Hgv by (unfold in_graph; rewrite Hn; lia).
  specialize (Hnest Hga Hgv ltac:(lia)).
  pose proof (Hbd _ Hga). pose proof (Hbd _ Hgv).
  unfold contains. repeat case_decide; intros; simplify_eq; lia.
Qed.

Lemma X19_witness :
  parents_ok example_parents ∧
  main example_parents [(2, 2); (2, 2)] = Ok [1; 1] ∧ (2 : Z) = 2.
Proof.
  assert (parents_ok example_parents) as Hok.
  { apply parents_ok_Forall. repeat constructor; simpl; lia. }
  split; [exact Hok|]. split; [reflexivity|].
  apply (X19_answers_antisymmetric example_parents 2 2 Hok).
  - vm_compute. discriminate.
  - simpl. lia.
  - simpl. lia.
  - reflexivity.
Defined.
(** ** Cycles are found *)

(** What happens to an outgoing edge: a back edge is reported, or the
    destination is discovered while the edges are examined, or it was black
    from the start. *)
Lemma edges_kind g cm es t w cm' :
  edges_rel g cm es t w cm' →
  ∀ e, e ∈ es →
    EvBackEdge e ∈ t ∨ destination e ∈ discovered t ∨
    vec_get cm (destination e) = Ok kBlack.
Proof.
  induction 1 as [|cm e rest t1 w1 cm1 t2 w2 cm2 Hw Hv He IH
                 |cm e rest t2 w2 cm2 Hc He IH|cm e rest t2 w2 cm2 Hc He IH];
    intros e'.
  - by intros ?%not_elem_of_nil.
  - pose proof (visit_colours _ _ _ _ _ _ Hv) as (_ & _ & _ & Hout).
    assert (∀ x, x ∈ discovered (EvExamineEdge e :: t1 ++ EvTreeEdge e ::
                                 EvFinishEdge e :: t2)
                 ↔ x ∈ discovered t1 ∨ x ∈ discovered t2) as Hd.
    { intros x. simpl_log. by rewrite elem_of_app. }
    intros [->|Hin]%elem_of_cons.
    + right. left. apply Hd. left. by eapply visit_discovers_self.
    + destruct (IH e' Hin) as [Hb|[Hb|Hb]].
      * left. right. apply elem_of_app. right. by do 2 right.
      * right. left. apply Hd. by right.
      * destruct (decide (destination e' ∈ discovered t1)) as [Hd1|Hd1].
        -- right. left. apply Hd. by left.
        -- right. right. by rewrite <- (Hout _ Hd1).
  - intros [->|Hin]%elem_of_cons.
    + left. right. left.
    + destruct (IH e' Hin) as [Hb|[Hb|Hb]]; [|by right; left|by right; right].
      left. by do 3 right.
  - intros [->|Hin]%elem_of_cons.
    + by right; right.
    + destruct (IH e' Hin) as [Hb|[Hb|Hb]]; [|by right; left|by right; right].
      left. by do 3 right.
Qed.

Lemma cycle_back_edge g start t w cm' s0 tv :
  graph_wf g → dfs_rel g start t w cm' →
  2 * Z.of_nat (vertex_count g) ≤ INT_MAX →
  time_sized (vertex_count g) s0 → timer s0 = 0 → replay t s0 = Ok tv →
  ∀ x, tc (edge g) x x → ∃ e, EvBackEdge e ∈ t.
Proof.
  intros Hwf Hdfs Hint Hs0 Ht0 Hrun x Hx.
  pose proof (stamps_bounds g start t w cm' s0 tv Hwf Hdfs Hint Hs0 Ht0 Hrun) as Hb.
  pose proof (stamps_edge g start t w cm' s0 tv Hwf Hdfs Hint Hs0 Ht0 Hrun) as Hedge.
  assert (∀ a b, tc (edge g) a b →
            tout tv b < tout tv a ∨
            ∃ u v, edge g u v ∧ tin tv v ≤ tin tv u ∧ tout tv u ≤ tout tv v) as Hpath.
  { induction 1 as [a b Hab|a b c Hab _ IH].
    - destruct (edge_in_graph _ _ _ Hwf Hab) as [Ha _]. specialize (Hb a Ha).
      destruct (Hedge a b Hab) as [?|[?|?]]; [left; lia|right; eauto|left; lia].
    - destruct IH as [IH|IH]; [|by right].
      destruct (edge_in_graph _ _ _ Hwf Hab) as [Ha _]. specialize (Hb a Ha).
      destruct (Hedge a b Hab) as [?|[?|?]]; [left; lia|right; eauto|left; lia]. }
  destruct (Hpath x x Hx) as [?|(u & v & Huv & Hi & Ho)]; [lia|].
  destruct (edge_in_graph _ _ _ Hwf Huv) as [Hu _].
  destruct (dfs_discovered _ _ _ _ _ Hwf Hdfs) as [_ Hd].
  assert (u ∈ discovered t) as Hut by (rewrite Hd; by apply wf_vertices).
  destruct (dfs_frames _ _ _ _ _ Hdfs u Hut)
    as (pre & ta & post & cm & wa & cma & Ht & Hv & Hc).
  simpl in Hc.
  destruct (stamps_frame g start t w cm' s0 tv Hwf Hdfs Hint Hs0 Ht0 Hrun
              _ _ _ _ _ _ _ Ht Hv Hc) as (_ & _ & _ & Hnest & _ & Hblack).
  pose proof (visit_colours _ _ _ _ _ _ Hv) as (Hnd & _).
  destruct (visit_inv _ _ _ _ _ _ Hv)
    as (es & body & wb & cm1 & Hta_eq & _ & _ & Hw & Hes & Hbody).
  destruct Huv as (es' & e & Hes' & He & <-).
  rewrite Hes in Hes'. simplify_eq.
  pose proof (vec_get_range _ _ _ Hw) as Hr.
  destruct (edges_kind _ _ _ _ _ _ Hbody e He) as [Hk|[Hk|Hk]].
  - exists e. rewrite !elem_of_app. right. left. right.
    apply elem_of_app. by left.
  - exfalso. revert Hnd. simpl. rewrite discovered_app, NoDup_cons.
    intros [Hnu _].
    assert (destination e ≠ u) as Hne.
    { intros Heq. apply Hnu. rewrite <- Heq. apply elem_of_app. by left. }
    assert (destination e ∈ discovered
              (EvDiscoverVertex u :: body ++ [EvFinishVertex u])) as Hin.
    { simpl. right. rewrite discovered_app, elem_of_app. by left. }
    specialize (Hnest _ Hin Hne). lia.
  - exfalso. destruct (decide (u = destination e)) as [Heq|Hne].
    + rewrite <- Heq in Hk. rewrite (vec_get_paint_eq _ _ _ _ Hw) in Hk. done.
    + rewrite vec_get_paint_ne in Hk by (done || lia).
      specialize (Hblack _ Hk). specialize (Hb u Hu). lia.
Qed.

(** X20. The traversal calls [BackEdge] exactly when the graph has a
    cycle (shown for graphs whose [2V] timestamps fit an [int]). *)
Theorem X20_back_edge_iff_cycle (g : Graph) (start : Vertex) :
  graph_wf g → start = -1 ∨ in_graph g start →
  2 * Z.of_nat (vertex_count g) ≤ INT_MAX →
  ∃ cm' log,
    DepthFirstSearch (CM := Colormap) g ([] : list Event) start = Ok (cm', log) ∧
    ((∃ e, EvBackEdge e ∈ log) ↔ (∃ x, tc (edge g) x x)).
Proof.
  intros Hwf Hstart Hint.
  destruct (timestamps_run g start (TimeDFSVisitor_new (vertex_count g)) Hwf Hstart
              Hint (new_time_sized _) eq_refl) as (t & w & cm' & tv & Hdfs & Hrun & Hr).
  exists cm', t. split.
  { by rewrite (dfs_run g start t w cm' [] Hdfs), replay_trace. }
  split.
  - intros [e He]. destruct (dfs_back_edge _ _ _ _ _ Hwf Hdfs e He) as [Hedge Hreach].
    exists (source e). eapply tc_rtc_r; [by apply tc_once|done].
  - intros [x Hx].
    by apply (cycle_back_edge g start t w cm' _ tv Hwf Hdfs Hint (new_time_sized _)
                eq_refl Hrun x).
Qed.

Lemma X20_witness :
  graph_wf example_graph ∧
  ∃ cm' log,
    DepthFirstSearch (CM := Colormap) example_graph ([] : list Event) 0
      = Ok (cm', log) ∧
    ((∃ e, EvBackEdge e ∈ log) ↔ (∃ x, tc (edge example_graph) x x)).
Proof.
  assert (graph_wf example_graph) as Hwf by (apply graph_wfb_wf; reflexivity).
  split; [exact Hwf|].
  apply (X20_back_edge_iff_cycle example_graph 0 Hwf).
  - right. unfold in_graph, vertex_count. simpl. lia.
  - vm_compute. discriminate.
Defined.
(** ** The top level of the traversal *)

Lemma rel_no_initialize g :
  (∀ cm v t w cm', visit_rel g cm v t w cm' → ∀ x, EvInitializeVertex x ∉ t) ∧
  (∀ cm es t w cm', edges_rel g cm es t w cm' → ∀ x, EvInitializeVertex x ∉ t).
Proof.
  apply visit_edges_rel_ind.
  - intros cm v es body wb cm1 _ _ _ IH _ x.
    rewrite elem_of_cons, elem_of_app, list_elem_of_singleton.
    intros [?|[?%IH|?]]; done.
  - intros cm x. apply not_elem_of_nil.
  - intros cm e rest t1 w1 cm1 t2 w2 cm2 _ _ IH1 _ IH2 x.
    rewrite elem_of_cons, elem_of_app, !elem_of_cons.
    intros [?|[?%IH1|[?|[?|?%IH2]]]]; done.
  - intros cm e rest t2 w2 cm2 _ _ IH x. rewrite !elem_of_cons.
    intros [?|[?|[?|?%IH]]]; done.
  - intros cm e rest t2 w2 cm2 _ _ IH x. rewrite !elem_of_cons.
    intros [?|[?|[?|?%IH]]]; done.
Qed.

Lemma sweep_top g cm vs t w cm' :
  sweep_rel g cm vs t w cm' →
  (∀ x, EvInitializeVertex x ∉ t) ∧
  (∀ v, EvStartVertex v ∈ t →
     ∃ l1 l2, t = l1 ++ EvStartVertex v :: EvDiscoverVertex v :: l2).
Proof.
  induction 1 as [| |cm v rest t1 w1 cm1 t2 w2 cm2 Hw Hv _ [IHi IHs]].
  - split; intros x Hx; by apply not_elem_of_nil in Hx.
  - done.
  - split.
    + intros x. rewrite elem_of_cons, elem_of_app.
      intros [?|[Hx|Hx]]; [done| |by apply IHi in Hx].
      by apply (proj1 (rel_no_initialize g) _ _ _ _ _ Hv) in Hx.
    + intros u. rewrite elem_of_cons, elem_of_app.
      destruct (visit_inv _ _ _ _ _ _ Hv) as (es & body & ? & ? & Ht1 & _).
      intros [Hu|[Hu|Hu]].
      * simplify_eq. exists [], (body ++ [EvFinishVertex v] ++ t2). simpl.
        by rewrite <- !(assoc (++)).
      * apply elem_of_started in Hu.
        rewrite (visit_started _ _ _ _ _ _ Hv) in Hu.
        by apply not_elem_of_nil in Hu.
      * destruct (IHs u Hu) as (l1 & l2 & ->).
        exists (EvStartVertex v :: t1 ++ l1), l2. simpl.
        by rewrite <- !(assoc (++)).
Qed.

(** X21. [DepthFirstSearch] first calls [InitializeVertex] for every vertex,
    in vertex order, and never again; and every [StartVertex v] is
    followed at once by [DiscoverVertex v]. *)
Theorem X21_initialize_then_start (g : Graph) (start : Vertex) :
  graph_wf g → start = -1 ∨ in_graph g start →
  ∃ cm' log rest,
    DepthFirstSearch (CM := Colormap) g ([] : list Event) start = Ok (cm', log) ∧
    log = (EvInitializeVertex <$> GetVertices g) ++ rest ∧
    (∀ x, EvInitializeVertex x ∉ rest) ∧
    (∀ v, EvStartVertex v ∈ log →
       ∃ l1 l2, log = l1 ++ EvStartVertex v :: EvDiscoverVertex v :: l2).
Proof.
  intros Hwf Hstart.
  destruct (dfs_rel_total g start Hwf Hstart) as (t & w & cm' & Hdfs).
  pose proof (dfs_run g start t w cm' [] Hdfs) as Hrun.
  rewrite replay_trace in Hrun. simpl in Hrun.
  destruct Hdfs as [t1 w1 cm1 t2 w2 cm2 n Hrange Hst Hsweep].
  destruct (sweep_top _ _ _ _ _ _ Hsweep) as [Hi Hs].
  exists cm2, ((EvInitializeVertex <$> GetVertices g) ++ t1 ++ t2), (t1 ++ t2).
  split_and!; [done|done|..].
  - intros x. rewrite elem_of_app. intros [Hx|Hx]; [|by apply Hi in Hx].
    inversion Hst as [|cm st t0 w0 cm0 Hne Hv]; subst.
    + by apply not_elem_of_nil in Hx.
    + apply elem_of_cons in Hx as [?|Hx]; [done|].
      by apply (proj1 (rel_no_initialize g) _ _ _ _ _ Hv) in Hx.
  - intros v. rewrite !elem_of_app. intros [Hv|[Hv|Hv]].
    + apply list_elem_of_fmap in Hv as (? & ? & _). done.
    + inversion Hst as [|cm st t0 w0 cm0 Hne Hv0]; subst.
      { by apply not_elem_of_nil in Hv. }
      destruct (visit_inv _ _ _ _ _ _ Hv0) as (es & body & ? & ? & Ht0 & _).
      apply elem_of_cons in Hv as [Hv|Hv].
      * simplify_eq. exists (EvInitializeVertex <$> GetVertices g),
          (body ++ [EvFinishVertex start] ++ t2). simpl.
        by rewrite <- !(assoc (++)).
      * apply elem_of_started in Hv.
        rewrite (visit_started _ _ _ _ _ _ Hv0) in Hv.
        by apply not_elem_of_nil in Hv.
    + destruct (Hs v Hv) as (l1 & l2 & ->).
      exists ((EvInitializeVertex <$> GetVertices g) ++ t1 ++ l1), l2.
      by rewrite <- !(assoc (++)).
Qed.

Lemma X21_witness :
  graph_wf example_graph ∧
  ∃ cm' log rest,
    DepthFirstSearch (CM := Colormap) example_graph ([] : list Event) (-1)
      = Ok (cm', log) ∧
    log = (EvInitializeVertex <$> GetVertices example_graph) ++ rest ∧
    (∀ x, EvInitializeVertex x ∉ rest) ∧
    (∀ v, EvStartVertex v ∈ log →
       ∃ l1 l2, log = l1 ++ EvStartVertex v :: EvDiscoverVertex v :: l2).
Proof.
  assert (graph_wf example_graph) as Hwf by (apply graph_wfb_wf; reflexivity).
  split; [exact Hwf|].
  apply (X21_initialize_then_start example_graph (-1) Hwf). by left.
Defined.

(** ** The roots of the traversal *)

Lemma black_reach g cm u x :
  (∀ a b, edge g a b → vec_get cm a = Ok kBlack → vec_get cm b = Ok kBlack) →
  rtc (edge g) u x → vec_get cm u = Ok kBlack → vec_get cm x = Ok kBlack.
Proof. intros Hcl. induction 1; eauto. Qed.

(** Between two root visits no vertex is gray and the black vertices are
    closed under the edges; a visit keeps both. *)
Lemma visit_black_closed g cm v t w cm' :
  visit_rel g cm v t w cm' →
  (∀ x, vec_get cm x ≠ Ok kGray) →
  (∀ a b, edge g a b → vec_get cm a = Ok kBlack → vec_get cm b = Ok kBlack) →
  (∀ x, vec_get cm' x ≠ Ok kGray) ∧
  (∀ a b, edge g a b → vec_get cm' a = Ok kBlack → vec_get cm' b = Ok kBlack) ∧
  (∀ x, vec_get cm x = Ok kBlack → vec_get cm' x = Ok kBlack) ∧
  vec_get cm' v = Ok kBlack.
Proof.
  intros Hv Hno Hcl.
  pose proof (visit_colours _ _ _ _ _ _ Hv) as Hcol.
  pose proof (colours_no_gray _ _ _ Hcol Hno) as Hno'.
  destruct Hcol as (_ & _ & Hin & Hout).
  assert (∀ x, vec_get cm x = Ok kBlack → vec_get cm' x = Ok kBlack) as Hkeep.
  { intros x Hx. destruct (decide (x ∈ discovered t)) as [Hd|Hd].
    - by destruct (Hin x Hd).
    - by rewrite (Hout x Hd). }
  split_and!; [done| |done|].
  - intros a b Hab Ha.
    assert (nonwhite cm' b) as (c & Hc & Hnw).
    { destruct (decide (a ∈ discovered t)) as [Hd|Hd].
      - by eapply (proj1 (rel_closed g)).
      - rewrite (Hout a Hd) in Ha. exists kBlack. split; [|done].
        apply Hkeep. by eapply Hcl. }
    destruct c; [done| |done]. by destruct (Hno' b).
  - apply Hin. by eapply visit_discovers_self.
Qed.

Lemma sweep_roots g cm vs t w cm' :
  sweep_rel g cm vs t w cm' →
  (∀ x, vec_get cm x ≠ Ok kGray) →
  (∀ a b, edge g a b → vec_get cm a = Ok kBlack → vec_get cm b = Ok kBlack) →
  ∀ bs, (∀ b, b ∈ bs → vec_get cm b = Ok kBlack) →
  ∀ l1 r l2, started t = l1 ++ r :: l2 →
  ∀ r', r' ∈ bs ++ l1 → ¬ rtc (edge g) r' r.
Proof.
  induction 1 as [| |cm v rest t1 w1 cm1 t2 w2 cm2 Hw Hv _ IH];
    intros Hno Hcl bs Hbs l1 r l2 Hst r' Hr'.
  - by destruct l1.
  - eauto.
  - revert Hst. simpl. rewrite started_app, (visit_started _ _ _ _ _ _ Hv). simpl.
    destruct (visit_black_closed _ _ _ _ _ _ Hv Hno Hcl)
      as (Hno1 & Hcl1 & Hkeep & Hvb).
    destruct l1 as [|v' l1]; simpl; intros Hst; simplify_eq.
    + rewrite app_nil_r in Hr'. intros Hreach.
      pose proof (black_reach _ _ _ _ Hcl Hreach (Hbs _ Hr')). congruence.
    + apply (IH Hno1 Hcl1 (bs ++ [v']) ) with (l1 := l1) (l2 := l2); [|done|].
      * intros b [Hb|Hb%list_elem_of_singleton]%elem_of_app; [|by subst].
        by apply Hkeep, Hbs.
      * revert Hr'. rewrite !elem_of_app, elem_of_cons, list_elem_of_singleton. tauto.
Qed.

(** X22. [StartVertex] is called only for a vertex that none of the
    vertices started earlier can reach: each started vertex is the root of
    a new tree of the traversal. *)
Theorem X22_roots_unreachable (g : Graph) (start : Vertex) :
  graph_wf g → start = -1 ∨ in_graph g start →
  ∃ cm' log,
    DepthFirstSearch (CM := Colormap) g ([] : list Event) start = Ok (cm', log) ∧
    ∀ l1 r l2, started log = l1 ++ r :: l2 →
      ∀ r', r' ∈ l1 → ¬ rtc (edge g) r' r.
Proof.
  intros Hwf Hstart.
  destruct (dfs_rel_total g start Hwf Hstart) as (t & w & cm' & Hdfs).
  pose proof (dfs_run g start t w cm' [] Hdfs) as Hrun.
  rewrite replay_trace in Hrun. simpl in Hrun.
  exists cm', t. split; [done|]. clear Hrun.
  destruct Hdfs as [t1 w1 cm1 t2 w2 cm2 n Hrange Hst Hsweep].
  assert (∀ x, vec_get (replicate n kWhite) x ≠ Ok kGray) as Hno.
  { intros x Hx. apply vec_get_Ok in Hx as [_ Hx].
    apply lookup_replicate in Hx as [? _]. done. }
  assert (∀ a b, edge g a b → vec_get (replicate n kWhite) a = Ok kBlack →
                 vec_get (replicate n kWhite) b = Ok kBlack) as Hcl.
  { intros a b _ Ha. apply vec_get_Ok in Ha as [_ Ha].
    apply lookup_replicate in Ha as [? _]. done. }
  intros l1 r l2. rewrite !started_app, started_initialize. simpl.
  inversion Hst as [|cm st t0 w0 cm0 Hne Hv]; subst; simpl.
  - intros Hs r' Hr'.
    by apply (sweep_roots _ _ _ _ _ _ Hsweep Hno Hcl [] ltac:(by intros ? ?%not_elem_of_nil)
                l1 r l2 Hs r').
  - rewrite (visit_started _ _ _ _ _ _ Hv). simpl.
    destruct (visit_black_closed _ _ _ _ _ _ Hv Hno Hcl)
      as (Hno1 & Hcl1 & Hkeep & Hvb).
    destruct l1 as [|v' l1]; simpl; intros Hs r' Hr'; simplify_eq.
    { by apply not_elem_of_nil in Hr'. }
    apply (sweep_roots _ _ _ _ _ _ Hsweep Hno1 Hcl1 [v']) with (l1 := l1) (l2 := l2);
      [|done|].
    + by intros b ->%list_elem_of_singleton.
    + revert Hr'. rewrite elem_of_app, elem_of_cons, list_elem_of_singleton. tauto.
Qed.

Lemma X22_witness :
  graph_wf example_graph ∧
  ∃ cm' log,
    DepthFirstSearch (CM := Colormap) example_graph ([] : list Event) 2
      = Ok (cm', log) ∧
    ∀ l1 r l2, started log = l1 ++ r :: l2 →
      ∀ r', r' ∈ l1 → ¬ rtc (edge example_graph) r' r.
Proof.
  assert (graph_wf example_graph) as Hwf by (apply graph_wfb_wf; reflexivity).
  split; [exact Hwf|].
  apply (X22_roots_unreachable example_graph 2 Hwf).
  right. unfold in_graph, vertex_count. simpl. lia.
Defined.
